(** * c64ttf: the bitmap vectorisation algorithm

    A shallow embedding of the four vectorisation stages of [c64ttf.py]
    ([unpackChar], [generateEdges], [scaleEdges], [mergeContours]) and of
    their composition [vectorizeGlyph], followed by the properties of the
    outlines they produce. *)

From Stdlib Require Import String.
From Stdlib Require Import ZArith List Bool Lia Permutation Arith Sorted.
Import ListNotations.
Open Scope Z_scope.

(** ** Python results: a value, an exception, or a loop that ran out of fuel *)

Inductive exn : Type := IndexError | ValueError.

Inductive outcome (A : Type) : Type :=
| Done (a : A)
| Raised (e : exn)
| Timeout.

Arguments Done {A} a.
Arguments Raised {A} e.
Arguments Timeout {A}.

Definition bind {A B : Type} (m : outcome A) (k : A -> outcome B) : outcome B :=
  match m with
  | Done a => k a
  | Raised e => Raised e
  | Timeout => Timeout
  end.

Definition fmap {A B : Type} (f : A -> B) (m : outcome A) : outcome B :=
  bind m (fun a => Done (f a)).

Notation "x <- m ;; k" := (bind m (fun x => k))
  (at level 61, m at next level, right associativity).
Notation "' pat <- m ;; k" := (bind m (fun x => match x with pat => k end))
  (at level 61, pat pattern, m at next level, right associativity).

(** A [for] loop over a list, threading an accumulator; an exception raised
    by the body leaves the loop. *)
Fixpoint foldM {A S : Type} (body : S -> A -> outcome S) (l : list A) (s : S)
  : outcome S :=
  match l with
  | [] => Done s
  | a :: l' => s' <- body s a ;; foldM body l' s'
  end.

(** [l[i]] for an index that is not negative. *)
Definition getitem {A : Type} (l : list A) (i : nat) : outcome A :=
  match nth_error l i with
  | Some a => Done a
  | None => Raised IndexError
  end.

(** ** Data model *)

Definition point : Type := Z * Z.
Definition edge : Type := point * point.
Definition contour : Type := list point.
Definition PixelGrid : Type := list (list bool).

Definition point_eqb (p q : point) : bool :=
  (fst p =? fst q) && (snd p =? snd q).

Definition edge_eqb (e f : edge) : bool :=
  point_eqb (fst e) (fst f) && point_eqb (snd e) (snd f).

(** Python compares nested lists lexicographically. *)
Definition point_ltb (p q : point) : bool :=
  (fst p <? fst q) || ((fst p =? fst q) && (snd p <? snd q)).

Definition edge_leb (e f : edge) : bool :=
  point_ltb (fst e) (fst f)
  || (point_eqb (fst e) (fst f)
      && (point_ltb (snd e) (snd f) || point_eqb (snd e) (snd f))).

(** ** 1) unpackChar *)

(** [range(7, -1, -1)] *)
Definition bitRange : list Z := [7; 6; 5; 4; 3; 2; 1; 0].

Definition unpackRow (row : Z) : list bool :=
  map (fun bit => Z.land (Z.shiftr row bit) 1 =? 1) bitRange.

Definition unpackChar (glyphData : list Z) : PixelGrid :=
  map unpackRow (rev glyphData).

(** ** 2) generateEdges *)

(** [bitmap[y][x]] *)
Definition pixel (bitmap : PixelGrid) (y x : nat) : outcome bool :=
  row <- getitem bitmap y ;; getitem row x.

(** [atBorder or not bitmap[y'][x']], with Python's short-circuit [or]. *)
Definition openSide (atBorder : bool) (bitmap : PixelGrid) (y' x' : nat)
  : outcome bool :=
  if atBorder then Done true else q <- pixel bitmap y' x' ;; Done (negb q).

Definition append_if {A : Type} (c : bool) (l : list A) (a : A) : list A :=
  if c then l ++ [a] else l.

(** The body of the two nested loops, for the pixel at column [x], row [y]. *)
Definition visitPixel (bitmap : PixelGrid) (height width : nat) (y x : nat)
  (edges : list edge) : outcome (list edge) :=
  let X := Z.of_nat x in
  let Y := Z.of_nat y in
  p <- pixel bitmap y x ;;
  if p then
    l <- openSide (X =? 0) bitmap y (x - 1) ;;
    let edges := append_if l edges ((X, Y), (X, Y + 1)) in
    t <- openSide (Y =? Z.of_nat height - 1) bitmap (y + 1) x ;;
    let edges := append_if t edges ((X, Y + 1), (X + 1, Y + 1)) in
    r <- openSide (X =? Z.of_nat width - 1) bitmap y (x + 1) ;;
    let edges := append_if r edges ((X + 1, Y + 1), (X + 1, Y)) in
    b <- openSide (Y =? 0) bitmap (y - 1) x ;;
    let edges := append_if b edges ((X + 1, Y), (X, Y)) in
    Done edges
  else Done edges.

Definition generateEdges (bitmap : PixelGrid) : outcome (list edge) :=
  let height := length bitmap in
  row0 <- getitem bitmap 0 ;;
  let width := length row0 in
  foldM (fun edges y =>
           foldM (fun edges x => visitPixel bitmap height width y x edges)
                 (seq 0 width) edges)
        (seq 0 height) [].

(** ** 3) scaleEdges *)

Definition scalePoint (pixelSize descent : Z) (p : point) : point :=
  (fst p * pixelSize, (snd p - descent) * pixelSize).

Definition scaleEdge (pixelSize descent : Z) (e : edge) : edge :=
  (scalePoint pixelSize descent (fst e), scalePoint pixelSize descent (snd e)).

Definition scaleEdges (edges : list edge) (pixelSize descent : Z) : list edge :=
  map (scaleEdge pixelSize descent) edges.

(** ** 4) mergeContours *)

(** [sorted(edges)]: the result is the only ordered arrangement of the
    edges, since edges that compare equal are equal. *)
Fixpoint insertEdge (e : edge) (l : list edge) : list edge :=
  match l with
  | [] => [e]
  | f :: l' => if edge_leb e f then e :: l else f :: insertEdge e l'
  end.

Fixpoint sorted (edges : list edge) : list edge :=
  match edges with
  | [] => []
  | e :: l => insertEdge e (sorted l)
  end.

(** [edgeList.remove(e)]: drops the first edge equal to [e]. *)
Fixpoint list_remove (e : edge) (l : list edge) : outcome (list edge) :=
  match l with
  | [] => Raised ValueError
  | f :: l' =>
      if edge_eqb f e then Done l'
      else l'' <- list_remove e l' ;; Done (f :: l'')
  end.

(** [contour[-1] = p] *)
Definition set_last (c : contour) (p : point) : outcome contour :=
  match c with
  | [] => Raised IndexError
  | _ :: _ => Done (removelast c ++ [p])
  end.

(** [[edge for edge in edgeList if edge[0] == current[1]]] *)
Definition continuations (edgeList : list edge) (current : edge) : list edge :=
  filter (fun e => point_eqb (fst e) (snd current)) edgeList.

(** One pass through the body of the inner [while] loop. *)
Definition chainStep (current : edge) (c : contour) (edgeList : list edge)
  : outcome (edge * contour * list edge) :=
  next <- getitem (continuations edgeList current) 0 ;;
  c' <- (if (fst (snd next) =? fst (fst current))
            || (snd (snd next) =? snd (fst current))
         then set_last c (snd next)
         else Done (c ++ [snd next])) ;;
  edgeList' <- list_remove next edgeList ;;
  Done (next, c', edgeList').

(** The inner loop, [while current[1] != start[0]]. *)
Fixpoint followChain (fuel : nat) (start current : edge) (c : contour)
  (edgeList : list edge) : outcome (contour * list edge) :=
  if point_eqb (snd current) (fst start) then Done (c, edgeList)
  else
    match fuel with
    | O => Timeout
    | S fuel' =>
        '(next, c', edgeList') <- chainStep current c edgeList ;;
        followChain fuel' start next c' edgeList'
    end.

(** The outer loop, [while len(edgeList) > 1]; the state is the list of
    finished contours and the pool of edges still to be consumed. *)
Fixpoint mergeLoop (fuel : nat) (edgeList : list edge) (contours : list contour)
  : outcome (list contour * list edge) :=
  if (length edgeList <=? 1)%nat then Done (contours, edgeList)
  else
    match fuel with
    | O => Timeout
    | S fuel' =>
        start <- getitem edgeList 0 ;;
        edgeList1 <- list_remove start edgeList ;;
        '(c, edgeList2) <-
          followChain fuel start start [fst start; snd start] edgeList1 ;;
        mergeLoop fuel' edgeList2 (contours ++ [removelast c])
    end.

(** The state in which the stitching stops: contours and leftover pool. *)
Definition stitch (edges : list edge) : outcome (list contour * list edge) :=
  mergeLoop (length edges) (sorted edges) [].

Definition mergeContours (edges : list edge) : outcome (list contour) :=
  fmap fst (stitch edges).

(** ** vectorizeGlyph *)

Definition vectorizeGlyph (glyphData : option (list Z)) (pixelSize descent : Z)
  : outcome (list contour) :=
  match glyphData with
  | None => Done []
  | Some rows =>
      if (length rows =? 0)%nat then Done []
      else
        let bitmap := unpackChar rows in
        edges <- generateEdges bitmap ;;
        let scaledEdges := scaleEdges edges pixelSize descent in
        mergeContours scaledEdges
  end.

(** ** makeTTFGlyph *)

(** The fields that [makeTTFGlyph] sets on a fontTools [Glyph]; the numpy
    arrays are lists, [program.assembly] is the empty list of instructions. *)
Record Glyph : Type := {
  numberOfContours : Z;
  coordinates : list point;
  flags : list Z;
  endPtsOfContours : list Z;
  program_assembly : list String.string
}.

Definition makeTTFGlyph (polygons : list contour) : Glyph :=
  let coords := concat polygons in
  {| numberOfContours := Z.of_nat (length polygons);
     coordinates := coords;
     flags := repeat 1 (length coords);
     endPtsOfContours :=
       map (fun idx =>
              fold_right Z.add 0
                (map (fun polygon => Z.of_nat (length polygon))
                     (firstn (idx + 1) polygons)) - 1)
           (seq 0 (length polygons));
     program_assembly := [] |}.

(** ** makeTable_hhea and makeTable_OS2 *)

(** The versions [1.0] are whole numbers and are kept as such. *)
Record hheaTable : Type := {
  hhea_tableVersion : Z;
  hhea_ascent : Z;
  hhea_descent : Z;
  hhea_lineGap : Z;
  hhea_advanceWidthMax : Z;
  hhea_minLeftSideBearing : Z;
  hhea_minRightSideBearing : Z;
  hhea_xMaxExtent : Z;
  hhea_caretSlopeRise : Z;
  hhea_caretSlopeRun : Z;
  hhea_caretOffset : Z;
  hhea_reserved0 : Z;
  hhea_reserved1 : Z;
  hhea_reserved2 : Z;
  hhea_reserved3 : Z;
  hhea_metricDataFormat : Z;
  hhea_numOfLongHorMetrics : Z
}.

Definition makeTable_hhea (pixelSize descent : Z) : hheaTable :=
  {| hhea_tableVersion := 1;
     hhea_ascent := (8 - descent) * pixelSize;
     hhea_descent := - descent * pixelSize;
     hhea_lineGap := 0;
     hhea_advanceWidthMax := 0;
     hhea_minLeftSideBearing := 0;
     hhea_minRightSideBearing := 0;
     hhea_xMaxExtent := 0;
     hhea_caretSlopeRise := 1;
     hhea_caretSlopeRun := 0;
     hhea_caretOffset := 0;
     hhea_reserved0 := 0;
     hhea_reserved1 := 0;
     hhea_reserved2 := 0;
     hhea_reserved3 := 0;
     hhea_metricDataFormat := 0;
     hhea_numOfLongHorMetrics := 0 |}.

Record Panose : Type := {
  bFamilyType : Z;
  bSerifStyle : Z;
  bWeight : Z;
  bProportion : Z;
  bContrast : Z;
  bStrokeVariation : Z;
  bArmStyle : Z;
  bLetterForm : Z;
  bMidline : Z;
  bXHeight : Z
}.

Record OS2Table : Type := {
  os2_version : Z;
  xAvgCharWidth : Z;
  usWeightClass : Z;
  usWidthClass : Z;
  fsType : Z;
  ySubscriptXSize : Z;
  ySubscriptYSize : Z;
  ySubscriptXOffset : Z;
  ySubscriptYOffset : Z;
  ySuperscriptXSize : Z;
  ySuperscriptYSize : Z;
  ySuperscriptXOffset : Z;
  ySuperscriptYOffset : Z;
  yStrikeoutSize : Z;
  yStrikeoutPosition : Z;
  sFamilyClass : Z;
  panose : Panose;
  ulUnicodeRange1 : Z;
  ulUnicodeRange2 : Z;
  ulUnicodeRange3 : Z;
  ulUnicodeRange4 : Z;
  achVendID : String.string;
  fsSelection : Z;
  fsFirstCharIndex : Z;
  fsLastCharIndex : Z;
  sTypoAscender : Z;
  sTypoDescender : Z;
  sTypoLineGap : Z;
  usWinAscent : Z;
  usWinDescent : Z;
  ulCodePageRange1 : Z;
  ulCodePageRange2 : Z;
  sxHeight : Z;
  sCapHeight : Z;
  usDefaultChar : Z;
  usBreakChar : Z;
  usMaxContex : Z
}.

(** Python 2 divides integers with [/] rounding down, as [Z.div] does. *)
Definition makeTable_OS2 (pixelSize descentPixels minUnicode maxUnicode : Z)
  : OS2Table :=
  let size := 8 * pixelSize in
  let descent := pixelSize * descentPixels in
  {| os2_version := 4;
     xAvgCharWidth := size;
     usWeightClass := 400;
     usWidthClass := 5;
     fsType := 0;
     ySubscriptXSize := size;
     ySubscriptYSize := size / 2;
     ySubscriptXOffset := 0;
     ySubscriptYOffset := descent;
     ySuperscriptXSize := size / 2;
     ySuperscriptYSize := size / 2;
     ySuperscriptXOffset := 0;
     ySuperscriptYOffset := size / 2;
     yStrikeoutSize := pixelSize;
     yStrikeoutPosition := size / 2 - descent;
     sFamilyClass := 2058;
     panose := {| bFamilyType := 2;
                  bSerifStyle := 1;
                  bWeight := 6;
                  bProportion := 9;
                  bContrast := 6;
                  bStrokeVariation := 2;
                  bArmStyle := 2;
                  bLetterForm := 8;
                  bMidline := 1;
                  bXHeight := 1 |};
     ulUnicodeRange1 := 2147483779;
     ulUnicodeRange2 := 268499040;
     ulUnicodeRange3 := 0;
     ulUnicodeRange4 := 0;
     achVendID := "C=64"%string;
     fsSelection := 64;
     fsFirstCharIndex := minUnicode;
     fsLastCharIndex := maxUnicode;
     sTypoAscender := size - descent;
     sTypoDescender := 0 - descent;
     sTypoLineGap := 0;
     usWinAscent := size - descent;
     usWinDescent := descent;
     ulCodePageRange1 := 1;
     ulCodePageRange2 := 3221225472;
     sxHeight := 6 * pixelSize - descent;
     sCapHeight := size - descent;
     usDefaultChar := 0;
     usBreakChar := 32;
     usMaxContex := 0 |}.

(** ** readCharBitmaps *)

(** [while len(data) % 8 != 0: data.append(0)] *)
Fixpoint padToEight (fuel : nat) (data : list Z) : outcome (list Z) :=
  if (length data mod 8 =? 0)%nat then Done data
  else
    match fuel with
    | O => Timeout
    | S fuel' => padToEight fuel' (data ++ [0])
    end.

(** [range(0, stop, 8)] *)
Definition rangeBy8 (stop : nat) : list nat :=
  map (fun k => (8 * k)%nat) (seq 0 ((stop + 7) / 8)).

(** [readCharBitmaps] on the bytes of the named file ([None] when no file
    is named); the messages it prints are left out. *)
Definition readCharBitmaps (file : option (list Z)) : outcome (list (list Z)) :=
  match file with
  | None => Done []
  | Some bytes =>
      let data := skipn 2 bytes in
      data <- padToEight 8 data ;;
      if (length data =? 0)%nat then Done []
      else if (2048 <? length data)%nat then Done []
      else Done (map (fun idx => firstn 8 (skipn idx data))
                     (rangeBy8 (length data)))
  end.

(** ** mapGlyphs *)

(** A Python dictionary with string keys: at most one entry for a key. *)
Definition dict (V : Type) : Type := list (String.string * V).

Fixpoint dict_get {V : Type} (k : String.string) (d : dict V) : option V :=
  match d with
  | [] => None
  | (k', v) :: d' => if String.eqb k' k then Some v else dict_get k d'
  end.

Fixpoint dict_set {V : Type} (k : String.string) (v : V) (d : dict V) : dict V :=
  match d with
  | [] => [(k, v)]
  | (k', v') :: d' =>
      if String.eqb k' k then (k, v) :: d' else (k', v') :: dict_set k v d'
  end.

(** [l[i]] for any integer index: a negative index counts from the end. *)
Definition getitemZ {A : Type} (l : list A) (i : Z) : outcome A :=
  if 0 <=? i then getitem l (Z.to_nat i)
  else if 0 <=? Z.of_nat (length l) + i
       then getitem l (Z.to_nat (Z.of_nat (length l) + i))
       else Raised IndexError.

(** An entry of [CHAR_HI] or [CHAR_LO]: character generator index, glyph
    name, code points. *)
Definition charEntry : Type := Z * String.string * list Z.

(** A glyph as the dictionaries hold it: bitmap rows and code points. *)
Definition glyphEntry : Type := list Z * list Z.

Definition mapGlyphs (glyphData : list (list Z)) (charset : list charEntry)
  : outcome (dict glyphEntry) :=
  foldM (fun d (char : charEntry) =>
           let '(idx, name, codes) := char in
           if idx <? Z.of_nat (length glyphData)
           then bitmap <- getitemZ glyphData idx ;;
                Done (dict_set name (bitmap, codes) d)
           else Done d)
        charset [].

(** ** hmtx *)




(** ** Notions used to state the properties *)

(** A pixel grid as the stages expect it: at least one row, and every row
    as long as the first one. *)
Definition wellFormed (bitmap : PixelGrid) : bool :=
  match bitmap with
  | [] => false
  | row0 :: _ => forallb (fun row => (length row =? length row0)%nat) bitmap
  end.

Definition gridHeight (bitmap : PixelGrid) : nat := length bitmap.
Definition gridWidth (bitmap : PixelGrid) : nat := length (nth 0%nat bitmap []).

(** The cell at column [x], row [y]; cells outside the grid are empty. *)
Definition px (bitmap : PixelGrid) (x y : Z) : bool :=
  if (0 <=? x) && (0 <=? y)
  then nth (Z.to_nat x) (nth (Z.to_nat y) bitmap []) false
  else false.

(** The four sides of the cell at [(x, y)], clockwise. *)
Definition leftEdge (x y : Z) : edge := ((x, y), (x, y + 1)).
Definition topEdge (x y : Z) : edge := ((x, y + 1), (x + 1, y + 1)).
Definition rightEdge (x y : Z) : edge := ((x + 1, y + 1), (x + 1, y)).
Definition bottomEdge (x y : Z) : edge := ((x + 1, y), (x, y)).

Definition only_if {A : Type} (c : bool) (a : A) : list A :=
  if c then [a] else [].

(** The sides of a cell that face an empty cell. *)
Definition cellEdges (f : Z -> Z -> bool) (x y : Z) : list edge :=
  if f x y then
    only_if (negb (f (x - 1) y)) (leftEdge x y)
    ++ only_if (negb (f x (y + 1))) (topEdge x y)
    ++ only_if (negb (f (x + 1) y)) (rightEdge x y)
    ++ only_if (negb (f x (y - 1))) (bottomEdge x y)
  else [].

Definition rowEdges (f : Z -> Z -> bool) (width : nat) (y : Z) : list edge :=
  flat_map (fun x => cellEdges f (Z.of_nat x) y) (seq 0 width).

Definition boundaryEdges (bitmap : PixelGrid) : list edge :=
  flat_map (fun y => rowEdges (px bitmap) (gridWidth bitmap) (Z.of_nat y))
           (seq 0 (gridHeight bitmap)).

(** Sums of integer weights over a list. *)
Fixpoint sumZ {A : Type} (w : A -> Z) (l : list A) : Z :=
  match l with
  | [] => 0
  | a :: l' => w a + sumZ w l'
  end.

(** What an edge adds to the balance of a point: [+1] when it leaves the
    point, [-1] when it enters it. *)
Definition excess (p : point) (e : edge) : Z :=
  Z.b2z (point_eqb (fst e) p) - Z.b2z (point_eqb (snd e) p).

(** Every point is entered as often as it is left. *)
Definition balanced (edges : list edge) : Prop :=
  forall p, sumZ (excess p) edges = 0.

(** An edge between two different points that share a coordinate. *)
Definition axisAligned (e : edge) : bool :=
  negb (point_eqb (fst e) (snd e))
  && ((fst (fst e) =? fst (snd e)) || (snd (fst e) =? snd (snd e))).

(** The walk around the four sides of a cell. *)
Definition aroundCell (w : edge -> Z) (x y : Z) : Z :=
  w (leftEdge x y) + w (topEdge x y) + w (rightEdge x y) + w (bottomEdge x y).

(** *** Fill rules

    Whether a unit cell lies inside a set of contours is decided on the ray
    that leaves the centre of the cell towards larger [x]: only vertical
    segments to the right of the centre whose span contains the centre's
    height meet it. A cell is named by its lower left corner. *)

Definition crosses (cell : point) (s : edge) : bool :=
  (fst (fst s) =? fst (snd s))
  && (fst cell <? fst (fst s))
  && (Z.min (snd (fst s)) (snd (snd s)) <=? snd cell)
  && (snd cell <? Z.max (snd (fst s)) (snd (snd s))).

(** [+1] for a crossing that goes up, [-1] for one that goes down. *)
Definition crossing (cell : point) (s : edge) : Z :=
  if crosses cell s
  then (if snd (fst s) <? snd (snd s) then 1 else -1)
  else 0.

(** The sides of the closed polygon of a contour, the closing side from
    the last point back to the first included. *)
Definition segments (c : contour) : list edge :=
  match c with
  | [] => []
  | p :: rest => combine c (rest ++ [p])
  end.

Definition windingNumber (contours : list contour) (cell : point) : Z :=
  sumZ (fun c => sumZ (crossing cell) (segments c)) contours.

Definition crossingCount (contours : list contour) (cell : point) : nat :=
  length (filter (crosses cell) (flat_map segments contours)).

Definition insideEvenOdd (contours : list contour) (cell : point) : bool :=
  Nat.odd (crossingCount contours cell).

Definition insideNonzero (contours : list contour) (cell : point) : bool :=
  negb (windingNumber contours cell =? 0).

(** The sides of an open polyline. *)
Definition pathSegments (c : contour) : list edge := combine c (tl c).

(** The pool while a chain from [s] has reached [t]: together with the
    edges of the chain it would be balanced. *)
Definition chainInv (s t : point) (pool : list edge) : Prop :=
  forall p, sumZ (excess p) pool
            = Z.b2z (point_eqb t p) - Z.b2z (point_eqb s p).

(** The weight that a side shared by two filled cells would carry: the
    left side of a cell whose left neighbour is filled, and the top side of
    the cell below a filled cell. *)
Definition sideways (w : edge -> Z) (f : Z -> Z -> bool) (x y : Z) : Z :=
  Z.b2z (f x y && f (x - 1) y) * w (leftEdge x y).
Definition upwards (w : edge -> Z) (f : Z -> Z -> bool) (x y : Z) : Z :=
  Z.b2z (f x y && f x (y - 1)) * w (topEdge x (y - 1)).

(** The contour under construction ends with the straight run that the
    current edge belongs to: its last point is the end of the current edge,
    and the point before lies on the line of the current edge. *)
Definition openRun (current : edge) (c : contour) : Prop :=
  exists c0 v,
    c = c0 ++ [v; snd current]
    /\ ((fst (fst current) = fst (snd current) /\ fst v = fst (snd current))
        \/ (snd (fst current) = snd (snd current)
            /\ snd v = snd (snd current))).

Definition contourWeight (w : edge -> Z) (c : contour) : Z :=
  sumZ w (segments c).

Definition pathWeight (w : edge -> Z) (c : contour) : Z :=
  sumZ w (pathSegments c).

(** The cell of which a clockwise unit edge is a side. *)
Definition cellOf (e : edge) : Z * Z :=
  let '((x1, y1), (x2, y2)) := e in
  if y2 =? y1 + 1 then (x1, y1)
  else if x2 =? x1 + 1 then (x1, y1 - 1)
  else if y2 =? y1 - 1 then (x1 - 1, y2)
  else (x2, y1).

(** A side of the cell [(x, y)] that faces an empty cell or the outside of
    the grid. *)
Definition openSideOf (bitmap : PixelGrid) (x y : Z) (e : edge) : Prop :=
  (e = leftEdge x y /\ px bitmap (x - 1) y = false)
  \/ (e = topEdge x y /\ px bitmap x (y + 1) = false)
  \/ (e = rightEdge x y /\ px bitmap (x + 1) y = false)
  \/ (e = bottomEdge x y /\ px bitmap x (y - 1) = false).

(** Moving the points of edges and contours, each coordinate on its own. *)
Definition mapPoint (fx fy : Z -> Z) (p : point) : point :=
  (fx (fst p), fy (snd p)).

Definition mapEdge (fx fy : Z -> Z) (e : edge) : edge :=
  (mapPoint fx fy (fst e), mapPoint fx fy (snd e)).

Definition mapContours (fx fy : Z -> Z) (contours : list contour)
  : list contour :=
  map (map (mapPoint fx fy)) contours.

(** The number of filled cells of a grid. *)
Definition filledCells (bitmap : PixelGrid) : Z :=
  sumZ (fun y =>
          sumZ (fun x => Z.b2z (px bitmap (Z.of_nat x) (Z.of_nat y)))
               (seq 0 (gridWidth bitmap)))
       (seq 0 (gridHeight bitmap)).

(** The 8x8 grid whose filled cells are the 3x3 block with lower left cell
    [(x0, y0)], its centre cell left empty. *)
Definition ringCell (x0 y0 x y : nat) : bool :=
  (x0 <=? x)%nat && (x <? x0 + 3)%nat && (y0 <=? y)%nat && (y <? y0 + 3)%nat
  && negb ((x =? x0 + 1)%nat && (y =? y0 + 1)%nat).

Definition ringGrid (x0 y0 : nat) : PixelGrid :=
  map (fun y => map (fun x => ringCell x0 y0 x y) (seq 0 8)) (seq 0 8).

(** A point on an axis-parallel segment, its end points included. *)
Definition onSegment (p : point) (e : edge) : bool :=
  (Z.min (fst (fst e)) (fst (snd e)) <=? fst p)
  && (fst p <=? Z.max (fst (fst e)) (fst (snd e)))
  && (Z.min (snd (fst e)) (snd (snd e)) <=? snd p)
  && (snd p <=? Z.max (snd (fst e)) (snd (snd e))).

(** A segment whose end points share a coordinate (the two may coincide). *)
Definition axisParallel (e : edge) : bool :=
  (fst (fst e) =? fst (snd e)) || (snd (fst e) =? snd (snd e)).

(** Weighs the segments that are not axis-parallel. *)
Definition skewWeight (e : edge) : Z := if axisParallel e then 0 else 1.

(** A point at which one of the edges starts or ends. *)
Definition endpointOf (edges : list edge) (p : point) : Prop :=
  exists e, In e edges /\ (p = fst e \/ p = snd e).

(** The integer whose binary digits are the given bits, first bit first. *)
Definition packRow (bits : list bool) : Z :=
  fold_left (fun acc b => 2 * acc + Z.b2z b) bits 0.


(** The entry of the character set that decides what [mapGlyphs] stores
    under a name: the last one with this name whose index is in range. *)
Definition lastEntry (glyphCount : nat) (name : String.string)
  (charset : list charEntry) : option charEntry :=
  find (fun char : charEntry =>
          let '(idx, name', _) := char in
          String.eqb name' name && (idx <? Z.of_nat glyphCount))
       (rev charset).

(** A result that is a value or an [IndexError]. *)
Definition doneOrIndexError {A : Type} (m : outcome A) : Prop :=
  (exists a, m = Done a) \/ m = Raised IndexError.

(** The end points of contours counted from [base]: the expression of
    [makeTTFGlyph], which counts from 0. *)
Definition endPointsFrom (base : Z) (polygons : list contour) : list Z :=
  map (fun idx =>
         base + fold_right Z.add 0
                  (map (fun polygon : contour => Z.of_nat (length polygon))
                       (firstn (idx + 1) polygons)) - 1)
      (seq 0 (length polygons)).

(** What [mapGlyphs] stores for a character set entry. *)
Definition glyphOfEntry (glyphData : list (list Z)) (char : charEntry)
  : glyphEntry :=
  let '(idx, _, codes) := char in (nth (Z.to_nat idx) glyphData [], codes).

(** *** Corners

    A step of length 1 along an axis. *)
Definition unitStep (a b : point) : Prop :=
  (fst a = fst b /\ (snd b = snd a + 1 \/ snd b = snd a - 1))
  \/ (snd a = snd b /\ (fst b = fst a + 1 \/ fst b = fst a - 1)).

(** Three vertices in a row that form a corner: the sides [a -> b] and
    [b -> c] are parallel to the axes, neither of them is a single point,
    and one is vertical and the other horizontal. *)
Definition corner (a b c : point) : Prop :=
  (fst a = fst b /\ snd a <> snd b /\ snd b = snd c /\ fst b <> fst c)
  \/ (snd a = snd b /\ fst a <> fst b /\ fst b = fst c /\ snd b <> snd c).

(** Every vertex of a polyline other than its two ends is a corner. *)
Fixpoint allCorners (l : list point) : Prop :=
  match l with
  | [] => True
  | a :: t =>
      match t with
      | b :: c :: _ => corner a b c /\ allCorners t
      | _ => True
      end
  end.

(** Every vertex of the closed polygon of a contour is a corner. *)
Definition closedCorners (c : contour) : Prop :=
  allCorners (c ++ firstn 2 c).

(** The straight run that ends with the edge [a -> b] started at [v]: the
    three points lie on one axis-parallel line, [a] between [v] and [b]
    (or at [v]), and [b] beyond [a]. *)
Definition sameRun (v a b : point) : Prop :=
  (fst a = fst b /\ fst v = fst b
   /\ ((snd a < snd b /\ snd v <= snd a) \/ (snd b < snd a /\ snd a <= snd v)))
  \/ (snd a = snd b /\ snd v = snd b
      /\ ((fst a < fst b /\ fst v <= fst a)
          \/ (fst b < fst a /\ fst a <= fst v))).

(** [b] and [c] lie on one axis-parallel line through [v], both away from
    [v]. *)
Definition sameLine (v b c : point) : Prop :=
  (fst v = fst b /\ fst v = fst c /\ snd v <> snd b /\ snd v <> snd c)
  \/ (snd v = snd b /\ snd v = snd c /\ fst v <> fst b /\ fst v <> fst c).

(** Not before [s] in the order of points. *)
Definition notBefore (s p : point) : Prop := point_ltb p s = false.

(** The contour under construction while a chain is followed: all its
    inner vertices are corners, its last side is the run of the current
    edge, it starts at the start of the seed edge, and its first side is
    the run of the seed edge. *)
Definition cornerRun (start current : edge) (c : contour) : Prop :=
  exists c0 v,
    c = c0 ++ [v; snd current]
    /\ allCorners c
    /\ sameRun v (fst current) (snd current)
    /\ hd (0, 0) c = fst start
    /\ (sameRun (fst start) (snd start) (nth 1 c (0, 0))
        \/ (snd start = nth 1 c (0, 0)
            /\ unitStep (fst start) (snd start))).

(** A contour all of whose vertices are corners has at least 4 of them. *)
Definition goodContour (c : contour) : Prop :=
  closedCorners c /\ (4 <= length c)%nat.

(** Edges in the order in which [sorted] arranges them. *)
Definition edgeOrder (e f : edge) : Prop := edge_leb e f = true.




(** * Properties *)

(** ** The outcome monad and loops *)

Lemma bind_Done {A B : Type} (m : outcome A) (k : A -> outcome B) (b : B) :
  bind m k = Done b -> exists a, m = Done a /\ k a = Done b.
Proof.
  destruct m as [a | e | ]; simpl; try discriminate.
  intros H. exists a. split; [reflexivity | exact H].
Qed.

Lemma foldM_appends {A E : Type} (body : list E -> A -> outcome (list E))
  (f : A -> list E) (l : list A) :
  (forall a s, In a l -> body s a = Done (s ++ f a)) ->
  forall s, foldM body l s = Done (s ++ flat_map f l).
Proof.
  induction l as [ | a l IH]; intros Hbody s; simpl.
  - now rewrite app_nil_r.
  - rewrite (Hbody a s (or_introl eq_refl)). simpl.
    rewrite IH by (intros; apply Hbody; now right).
    now rewrite app_assoc.
Qed.

(** ** Comparisons *)

Lemma point_eqb_eq (p q : point) : point_eqb p q = true <-> p = q.
Proof.
  destruct p as [a b], q as [c d]. unfold point_eqb. simpl.
  rewrite andb_true_iff, !Z.eqb_eq. split.
  - intros [-> ->]. reflexivity.
  - intros H. inversion H. auto.
Qed.

Lemma point_eqb_refl (p : point) : point_eqb p p = true.
Proof. now apply point_eqb_eq. Qed.

Lemma point_eqb_neq (p q : point) : point_eqb p q = false <-> p <> q.
Proof.
  rewrite <- point_eqb_eq. destruct (point_eqb p q); intuition congruence.
Qed.

Lemma edge_eqb_eq (e f : edge) : edge_eqb e f = true <-> e = f.
Proof.
  destruct e as [a b], f as [c d]. unfold edge_eqb. simpl.
  rewrite andb_true_iff, !point_eqb_eq. split.
  - intros [-> ->]. reflexivity.
  - intros H. inversion H. auto.
Qed.

Lemma edge_eqb_refl (e : edge) : edge_eqb e e = true.
Proof. now apply edge_eqb_eq. Qed.

(** ** Well-formed grids *)

Lemma wellFormed_rows (bitmap : PixelGrid) :
  wellFormed bitmap = true ->
  (0 < gridHeight bitmap)%nat /\
  forall y, (y < gridHeight bitmap)%nat ->
            length (nth y bitmap []) = gridWidth bitmap.
Proof.
  unfold wellFormed, gridHeight, gridWidth.
  destruct bitmap as [ | row0 rest]; [discriminate | ].
  intros H. split; [simpl; lia | ].
  intros y Hy. rewrite forallb_forall in H.
  apply Nat.eqb_eq. apply H. now apply nth_In.
Qed.

Lemma px_outside (bitmap : PixelGrid) (x y : Z) :
  wellFormed bitmap = true ->
  x < 0 \/ Z.of_nat (gridWidth bitmap) <= x \/
  y < 0 \/ Z.of_nat (gridHeight bitmap) <= y ->
  px bitmap x y = false.
Proof.
  intros Hwf Hout. unfold px.
  destruct (0 <=? x) eqn:Hx; [ | reflexivity].
  destruct (0 <=? y) eqn:Hy; [ | reflexivity]. simpl.
  apply Z.leb_le in Hx, Hy.
  destruct (wellFormed_rows _ Hwf) as [_ Hrows].
  destruct (Nat.lt_ge_cases (Z.to_nat y) (gridHeight bitmap)) as [Hlt | Hge].
  - apply nth_overflow. rewrite (Hrows _ Hlt). lia.
  - unfold gridHeight in Hge. rewrite (nth_overflow bitmap [] Hge).
    now destruct (Z.to_nat x).
Qed.

Lemma pixel_px (bitmap : PixelGrid) (y x : nat) :
  wellFormed bitmap = true ->
  (y < gridHeight bitmap)%nat -> (x < gridWidth bitmap)%nat ->
  pixel bitmap y x = Done (px bitmap (Z.of_nat x) (Z.of_nat y)).
Proof.
  intros Hwf Hy Hx. destruct (wellFormed_rows _ Hwf) as [_ Hrows].
  unfold pixel, getitem, px.
  rewrite (nth_error_nth' bitmap [] Hy). simpl.
  rewrite (nth_error_nth' (nth y bitmap []) false)
    by (rewrite (Hrows _ Hy); exact Hx).
  replace ((0 <=? Z.of_nat x) && (0 <=? Z.of_nat y)) with true
    by (symmetry; apply andb_true_iff; split; apply Z.leb_le; lia).
  now rewrite !Nat2Z.id.
Qed.

(** ** generateEdges computes the boundary edges *)

Lemma openSide_px (bitmap : PixelGrid) (atBorder : bool) (y' x' : nat) (X Y : Z) :
  wellFormed bitmap = true ->
  (atBorder = true -> px bitmap X Y = false) ->
  (atBorder = false ->
   (y' < gridHeight bitmap)%nat /\ (x' < gridWidth bitmap)%nat /\
   X = Z.of_nat x' /\ Y = Z.of_nat y') ->
  openSide atBorder bitmap y' x' = Done (negb (px bitmap X Y)).
Proof.
  intros Hwf Hb Hin. unfold openSide. destruct atBorder.
  - now rewrite Hb.
  - destruct (Hin eq_refl) as (Hy & Hx & -> & ->).
    now rewrite (pixel_px _ _ _ Hwf Hy Hx).
Qed.

Lemma append_if_only_if {A : Type} (c : bool) (l : list A) (a : A) :
  append_if c l a = l ++ only_if c a.
Proof. destruct c; simpl; [reflexivity | now rewrite app_nil_r]. Qed.

Lemma visitPixel_cellEdges (bitmap : PixelGrid) (y x : nat) (edges : list edge) :
  wellFormed bitmap = true ->
  (y < gridHeight bitmap)%nat -> (x < gridWidth bitmap)%nat ->
  visitPixel bitmap (gridHeight bitmap) (gridWidth bitmap) y x edges
  = Done (edges ++ cellEdges (px bitmap) (Z.of_nat x) (Z.of_nat y)).
Proof.
  intros Hwf Hy Hx. unfold visitPixel, cellEdges.
  rewrite (pixel_px _ _ _ Hwf Hy Hx). simpl.
  destruct (px bitmap (Z.of_nat x) (Z.of_nat y)); [ | now rewrite app_nil_r].
  rewrite (openSide_px bitmap _ y (x - 1) (Z.of_nat x - 1) (Z.of_nat y) Hwf).
  2: { intros H. apply Z.eqb_eq in H. apply px_outside; [exact Hwf | lia]. }
  2: { intros H. apply Z.eqb_neq in H. repeat split; lia. }
  simpl.
  rewrite (openSide_px bitmap _ (y + 1) x (Z.of_nat x) (Z.of_nat y + 1) Hwf).
  2: { intros H. apply Z.eqb_eq in H. apply px_outside; [exact Hwf | lia]. }
  2: { intros H. apply Z.eqb_neq in H. repeat split; lia. }
  simpl.
  rewrite (openSide_px bitmap _ y (x + 1) (Z.of_nat x + 1) (Z.of_nat y) Hwf).
  2: { intros H. apply Z.eqb_eq in H. apply px_outside; [exact Hwf | lia]. }
  2: { intros H. apply Z.eqb_neq in H. repeat split; lia. }
  simpl.
  rewrite (openSide_px bitmap _ (y - 1) x (Z.of_nat x) (Z.of_nat y - 1) Hwf).
  2: { intros H. apply Z.eqb_eq in H. apply px_outside; [exact Hwf | lia]. }
  2: { intros H. apply Z.eqb_neq in H. repeat split; lia. }
  simpl. rewrite !append_if_only_if, <- !app_assoc. reflexivity.
Qed.

Lemma generateEdges_boundaryEdges (bitmap : PixelGrid) :
  wellFormed bitmap = true ->
  generateEdges bitmap = Done (boundaryEdges bitmap).
Proof.
  intros Hwf. unfold generateEdges.
  destruct (wellFormed_rows _ Hwf) as [Hpos _].
  assert (Hrow0 : getitem bitmap 0 = Done (nth 0%nat bitmap [])).
  { unfold getitem. now rewrite (nth_error_nth' bitmap [] Hpos). }
  rewrite Hrow0. simpl.
  fold (gridWidth bitmap). fold (gridHeight bitmap).
  change (Done (boundaryEdges bitmap))
    with (Done ([] ++ boundaryEdges bitmap) : outcome (list edge)).
  unfold boundaryEdges.
  apply foldM_appends. intros y s Hy. apply in_seq in Hy.
  unfold rowEdges. apply foldM_appends. intros x s' Hx. apply in_seq in Hx.
  apply visitPixel_cellEdges; [exact Hwf | lia | lia].
Qed.

(** ** Sums of weights *)

Lemma sumZ_app {A : Type} (w : A -> Z) (l1 l2 : list A) :
  sumZ w (l1 ++ l2) = sumZ w l1 + sumZ w l2.
Proof. induction l1 as [ | a l1 IH]; simpl; lia. Qed.

Lemma sumZ_flat_map {A B : Type} (w : B -> Z) (g : A -> list B) (l : list A) :
  sumZ w (flat_map g l) = sumZ (fun a => sumZ w (g a)) l.
Proof.
  induction l as [ | a l IH]; simpl; [reflexivity | ].
  now rewrite sumZ_app, IH.
Qed.

Lemma sumZ_ext_in {A : Type} (f g : A -> Z) (l : list A) :
  (forall a, In a l -> f a = g a) -> sumZ f l = sumZ g l.
Proof.
  induction l as [ | a l IH]; intros H; simpl; [reflexivity | ].
  rewrite (H a (or_introl eq_refl)), IH; [reflexivity | ].
  intros; apply H; now right.
Qed.

Lemma sumZ_plus {A : Type} (f g : A -> Z) (l : list A) :
  sumZ (fun a => f a + g a) l = sumZ f l + sumZ g l.
Proof. induction l as [ | a l IH]; simpl; lia. Qed.

Lemma sumZ_zero {A : Type} (f : A -> Z) (l : list A) :
  (forall a, In a l -> f a = 0) -> sumZ f l = 0.
Proof.
  induction l as [ | a l IH]; intros H; simpl; [reflexivity | ].
  rewrite (H a (or_introl eq_refl)), IH; [reflexivity | ].
  intros; apply H; now right.
Qed.

Lemma sumZ_telescope (g : nat -> Z) (n : nat) :
  sumZ (fun i => g (S i) - g i) (seq 0 n) = g n - g 0%nat.
Proof.
  induction n as [ | n IH]; [simpl; lia | ].
  rewrite seq_S, sumZ_app, IH. simpl. lia.
Qed.

(** The weight of a single index picked out of a range. *)
Lemma sumZ_pick (g : nat -> Z) (a n : nat) :
  sumZ (fun i => if (i =? a)%nat then g i else 0) (seq 0 n)
  = if (a <? n)%nat then g a else 0.
Proof.
  induction n as [ | n IH]; [reflexivity | ].
  rewrite seq_S, sumZ_app, IH. simpl.
  destruct (Nat.eqb_spec n a) as [-> | Hne].
  - rewrite Nat.ltb_irrefl.
    replace (a <? S a)%nat with true by (symmetry; apply Nat.ltb_lt; lia). lia.
  - destruct (Nat.ltb_spec a n), (Nat.ltb_spec a (S n)); lia.
Qed.

Lemma sumZ_Permutation {A : Type} (w : A -> Z) (l1 l2 : list A) :
  Permutation l1 l2 -> sumZ w l1 = sumZ w l2.
Proof. induction 1; simpl; lia. Qed.

(** ** The weight of the boundary is the weight of the walks around the
       filled cells

    Where two filled cells touch, the side between them is emitted by
    neither; had both emitted it, the two copies would run in opposite
    directions.  So for a weight that changes sign with the direction, the
    boundary weighs as much as the walks around all filled cells. *)

Section BoundaryWeight.

Variable w : edge -> Z.
Hypothesis w_reverse : forall p q, w (q, p) = - w (p, q).

Lemma sumZ_only_if (c : bool) (e : edge) :
  sumZ w (only_if c e) = Z.b2z c * w e.
Proof. destruct c; unfold only_if, Z.b2z; cbn [sumZ]; lia. Qed.

Lemma sumZ_cellEdges (f : Z -> Z -> bool) (x y : Z) :
  sumZ w (cellEdges f x y)
  = Z.b2z (f x y) * aroundCell w x y
    + (sideways w f (x + 1) y - sideways w f x y)
    + (upwards w f x y - upwards w f x (y + 1)).
Proof.
  unfold cellEdges, sideways, upwards, aroundCell.
  replace (x + 1 - 1) with x by lia. replace (y + 1 - 1) with y by lia.
  assert (HR : w (rightEdge x y) = - w (leftEdge (x + 1) y))
    by (unfold rightEdge, leftEdge; apply w_reverse).
  assert (HB : w (bottomEdge x y) = - w (topEdge x (y - 1))).
  { unfold bottomEdge, topEdge. replace (y - 1 + 1) with y by lia.
    apply w_reverse. }
  destruct (f x y);
    [ | rewrite ?andb_false_r; cbn [Z.b2z andb sumZ]; lia].
  rewrite !sumZ_app, !sumZ_only_if.
  destruct (f (x - 1) y), (f x (y + 1)), (f (x + 1) y), (f x (y - 1));
    cbn [Z.b2z andb negb sumZ]; lia.
Qed.

Lemma sumZ_boundaryEdges (bitmap : PixelGrid) :
  wellFormed bitmap = true ->
  sumZ w (boundaryEdges bitmap)
  = sumZ (fun y =>
            sumZ (fun x =>
                    Z.b2z (px bitmap (Z.of_nat x) (Z.of_nat y))
                    * aroundCell w (Z.of_nat x) (Z.of_nat y))
                 (seq 0 (gridWidth bitmap)))
         (seq 0 (gridHeight bitmap)).
Proof.
  intros Hwf. unfold boundaryEdges, rowEdges.
  set (W := gridWidth bitmap). set (H := gridHeight bitmap).
  set (f := px bitmap).
  rewrite sumZ_flat_map.
  (* each row: the sideways terms telescope *)
  assert (Hrow : forall y : nat,
    sumZ w (flat_map (fun x => cellEdges f (Z.of_nat x) (Z.of_nat y)) (seq 0 W))
    = sumZ (fun x => Z.b2z (f (Z.of_nat x) (Z.of_nat y))
                     * aroundCell w (Z.of_nat x) (Z.of_nat y)) (seq 0 W)
      + (sumZ (fun x => upwards w f (Z.of_nat x) (Z.of_nat (S y - 1))) (seq 0 W)
         - sumZ (fun x => upwards w f (Z.of_nat x) (Z.of_nat (S y))) (seq 0 W))).
  { intros y. rewrite sumZ_flat_map.
    rewrite (sumZ_ext_in _ (fun x : nat =>
      (Z.b2z (f (Z.of_nat x) (Z.of_nat y))
       * aroundCell w (Z.of_nat x) (Z.of_nat y)
       + (upwards w f (Z.of_nat x) (Z.of_nat y)
          - upwards w f (Z.of_nat x) (Z.of_nat (S y))))
      + (sideways w f (Z.of_nat (S x)) (Z.of_nat y)
         - sideways w f (Z.of_nat x) (Z.of_nat y)))).
    2: { intros x _. rewrite sumZ_cellEdges, !Nat2Z.inj_succ. unfold Z.succ. lia. }
    rewrite sumZ_plus.
    rewrite (sumZ_telescope (fun x => sideways w f (Z.of_nat x) (Z.of_nat y))).
    rewrite sumZ_plus.
    assert (H0 : sideways w f (Z.of_nat 0) (Z.of_nat y) = 0).
    { unfold sideways, f. rewrite (px_outside bitmap (Z.of_nat 0 - 1)) by (auto; lia).
      rewrite andb_false_r. reflexivity. }
    assert (HW : sideways w f (Z.of_nat W) (Z.of_nat y) = 0).
    { unfold sideways, f. rewrite (px_outside bitmap (Z.of_nat W)) by (auto; unfold W; lia).
      reflexivity. }
    rewrite H0, HW.
    replace (S y - 1)%nat with y by lia.
    assert (Hminus : forall (g h : nat -> Z) l,
               sumZ (fun x => g x - h x) l = sumZ g l - sumZ h l).
    { intros g h l. induction l; simpl; lia. }
    rewrite Hminus. lia. }
  rewrite (sumZ_ext_in _ _ _ (fun y _ => Hrow y)).
  rewrite sumZ_plus.
  set (up := fun y : nat =>
               sumZ (fun x => upwards w f (Z.of_nat x) (Z.of_nat y)) (seq 0 W)).
  assert (Hup : sumZ (fun y : nat => up (S y - 1)%nat - up (S y)) (seq 0 H) = 0).
  { rewrite (sumZ_ext_in _ (fun y : nat => - up (S y) - - up y)).
    2: { intros y _. replace (S y - 1)%nat with y by lia. lia. }
    rewrite (sumZ_telescope (fun y => - up y)).
    assert (H0 : up 0%nat = 0).
    { unfold up. apply sumZ_zero. intros x _. unfold upwards, f.
      rewrite (px_outside bitmap (Z.of_nat x) (Z.of_nat 0 - 1)) by (auto; lia).
      rewrite andb_false_r. reflexivity. }
    assert (HH : up H = 0).
    { unfold up. apply sumZ_zero. intros x _. unfold upwards, f.
      rewrite (px_outside bitmap (Z.of_nat x) (Z.of_nat H))
        by (auto; unfold H; lia).
      reflexivity. }
    lia. }
  fold up. unfold up at 1 in Hup. unfold up at 1 in Hup.
  lia.
Qed.

End BoundaryWeight.

(** ** The boundary is balanced *)

Lemma excess_reverse (c p q : point) : excess c (q, p) = - excess c (p, q).
Proof. unfold excess. simpl. lia. Qed.

Lemma excess_aroundCell (c : point) (x y : Z) : aroundCell (excess c) x y = 0.
Proof.
  unfold aroundCell, excess, leftEdge, topEdge, rightEdge, bottomEdge.
  simpl. lia.
Qed.

Lemma boundaryEdges_balanced (bitmap : PixelGrid) :
  wellFormed bitmap = true -> balanced (boundaryEdges bitmap).
Proof.
  intros Hwf c.
  rewrite (sumZ_boundaryEdges (excess c) (excess_reverse c) bitmap Hwf).
  apply sumZ_zero. intros y _. apply sumZ_zero. intros x _.
  rewrite excess_aroundCell. lia.
Qed.

(** ** The boundary winds once around every filled cell *)

Lemma crossing_formula (cell : point) (s : edge) :
  crossing cell s
  = Z.b2z ((fst (fst s) =? fst (snd s)) && (fst cell <? fst (fst s)))
    * (Z.b2z (snd cell <? snd (snd s)) - Z.b2z (snd cell <? snd (fst s))).
Proof.
  destruct cell as [cx cy], s as [[x1 y1] [x2 y2]].
  unfold crossing, crosses. simpl.
  destruct (x1 =? x2), (cx <? x1); simpl; try reflexivity.
  destruct (Z.leb_spec (Z.min y1 y2) cy), (Z.ltb_spec cy (Z.max y1 y2)),
    (Z.ltb_spec y1 y2), (Z.ltb_spec cy y2), (Z.ltb_spec cy y1); simpl; lia.
Qed.

Lemma crossing_reverse (cell p q : point) :
  crossing cell (q, p) = - crossing cell (p, q).
Proof.
  rewrite !crossing_formula. simpl.
  rewrite (Z.eqb_sym (fst q) (fst p)).
  destruct (Z.eqb_spec (fst p) (fst q)) as [-> | ]; simpl; lia.
Qed.

Lemma crossing_collinear (cell p q r : point) :
  (fst p = fst q /\ fst q = fst r) \/ (snd p = snd q /\ snd q = snd r) ->
  crossing cell (p, q) + crossing cell (q, r) = crossing cell (p, r).
Proof.
  rewrite !crossing_formula. simpl. intros [[-> ->] | [-> ->]].
  - rewrite Z.eqb_refl. simpl. lia.
  - lia.
Qed.

Lemma crossing_aroundCell (cell : point) (x y : Z) :
  aroundCell (crossing cell) x y
  = if (x =? fst cell) && (y =? snd cell) then -1 else 0.
Proof.
  destruct cell as [cx cy].
  unfold aroundCell, leftEdge, topEdge, rightEdge, bottomEdge.
  rewrite !crossing_formula. simpl.
  rewrite !Z.eqb_refl.
  replace (x =? x + 1) with false by (symmetry; apply Z.eqb_neq; lia).
  replace (x + 1 =? x) with false by (symmetry; apply Z.eqb_neq; lia).
  destruct (Z.ltb_spec cx x), (Z.ltb_spec cx (x + 1)), (Z.ltb_spec cy y),
    (Z.ltb_spec cy (y + 1)), (Z.eqb_spec x cx), (Z.eqb_spec y cy);
    simpl; lia.
Qed.

Lemma boundaryEdges_winding (bitmap : PixelGrid) (cell : point) :
  wellFormed bitmap = true ->
  sumZ (crossing cell) (boundaryEdges bitmap)
  = - Z.b2z (px bitmap (fst cell) (snd cell)).
Proof.
  intros Hwf. destruct cell as [cx cy]. simpl.
  rewrite (sumZ_boundaryEdges (crossing (cx, cy)) (crossing_reverse (cx, cy))
             bitmap Hwf).
  set (f := fun x y : nat => - Z.b2z (px bitmap (Z.of_nat x) (Z.of_nat y))).
  rewrite (sumZ_ext_in _ (fun y : nat =>
             if (y =? Z.to_nat cy)%nat
             then (if (0 <=? cy) && (0 <=? cx) && (Z.to_nat cx <? gridWidth bitmap)%nat
                   then f (Z.to_nat cx) y else 0)
             else 0)).
  2: { intros y _.
       rewrite (sumZ_ext_in _ (fun x : nat =>
             if (x =? Z.to_nat cx)%nat
             then (if (0 <=? cx) && (Z.of_nat y =? cy) then f x y else 0)
             else 0)).
       2: { intros x _. rewrite crossing_aroundCell. simpl. unfold f.
            destruct (Nat.eqb_spec x (Z.to_nat cx)), (Z.leb_spec 0 cx),
              (Z.eqb_spec (Z.of_nat y) cy), (Z.eqb_spec (Z.of_nat x) cx);
              simpl; lia. }
       rewrite sumZ_pick.
       destruct (Nat.eqb_spec y (Z.to_nat cy)), (Z.leb_spec 0 cx),
         (Z.leb_spec 0 cy), (Z.eqb_spec (Z.of_nat y) cy),
         (Nat.ltb_spec (Z.to_nat cx) (gridWidth bitmap)); simpl; lia. }
  rewrite sumZ_pick. unfold f.
  destruct (Z.leb_spec 0 cy), (Z.leb_spec 0 cx),
    (Nat.ltb_spec (Z.to_nat cx) (gridWidth bitmap)),
    (Nat.ltb_spec (Z.to_nat cy) (gridHeight bitmap)); simpl;
    rewrite ?Z2Nat.id by lia; try lia;
    rewrite (px_outside bitmap cx cy Hwf) by lia; reflexivity.
Qed.

(** ** Sorting and removing keep the edges *)

Lemma insertEdge_Permutation (e : edge) (l : list edge) :
  Permutation (insertEdge e l) (e :: l).
Proof.
  induction l as [ | f l IH]; simpl; [reflexivity | ].
  destruct (edge_leb e f); [reflexivity | ].
  rewrite IH. apply perm_swap.
Qed.

Lemma sorted_Permutation (edges : list edge) : Permutation (sorted edges) edges.
Proof.
  induction edges as [ | e l IH]; simpl; [reflexivity | ].
  rewrite insertEdge_Permutation. now constructor.
Qed.

Lemma sorted_length (edges : list edge) : length (sorted edges) = length edges.
Proof. apply Permutation_length, sorted_Permutation. Qed.

Lemma list_remove_Done (e : edge) (l l' : list edge) :
  list_remove e l = Done l' -> Permutation l (e :: l').
Proof.
  revert l'. induction l as [ | f l IH]; intros l' H; simpl in H.
  - discriminate.
  - destruct (edge_eqb f e) eqn:Hfe.
    + apply edge_eqb_eq in Hfe. inversion H. subst. reflexivity.
    + apply bind_Done in H. destruct H as (l'' & Hrem & Hl').
      inversion Hl'. subst. rewrite (IH _ Hrem). apply perm_swap.
Qed.

Lemma list_remove_In (e : edge) (l : list edge) :
  In e l -> exists l', list_remove e l = Done l'.
Proof.
  induction l as [ | f l IH]; intros Hin; [contradiction | ]. simpl.
  destruct (edge_eqb f e) eqn:Hfe; [eauto | ].
  destruct Hin as [-> | Hin]; [now rewrite edge_eqb_refl in Hfe | ].
  destruct (IH Hin) as [l' ->]. simpl. eauto.
Qed.

Lemma list_remove_head (e : edge) (l : list edge) :
  list_remove e (e :: l) = Done l.
Proof. simpl. now rewrite edge_eqb_refl. Qed.

(** ** One step of the chain *)

Lemma continuations_first (pool : list edge) (current next : edge) :
  getitem (continuations pool current) 0 = Done next ->
  In next pool /\ fst next = snd current.
Proof.
  unfold getitem, continuations.
  destruct (filter (fun e => point_eqb (fst e) (snd current)) pool)
    as [ | a l] eqn:Hf; simpl; [discriminate | ].
  intros H. inversion H. subst a.
  assert (Hin : In next (filter (fun e => point_eqb (fst e) (snd current)) pool))
    by (rewrite Hf; now left).
  apply filter_In in Hin. destruct Hin as [Hin Heq].
  apply point_eqb_eq in Heq. auto.
Qed.

Lemma excess_no_continuation (p : point) (pool : list edge) :
  (forall e, In e pool -> point_eqb (fst e) p = false) ->
  sumZ (excess p) pool <= 0.
Proof.
  induction pool as [ | e l IH]; intros H; simpl; [lia | ].
  assert (He := H e (or_introl eq_refl)).
  assert (Hl : sumZ (excess p) l <= 0) by (apply IH; intros; apply H; now right).
  unfold excess at 1. rewrite He.
  destruct (point_eqb (snd e) p); cbn [Z.b2z]; lia.
Qed.

Lemma continuations_exist (pool : list edge) (current : edge) :
  0 < sumZ (excess (snd current)) pool ->
  exists next, getitem (continuations pool current) 0 = Done next.
Proof.
  intros Hpos. unfold getitem, continuations.
  destruct (filter (fun e => point_eqb (fst e) (snd current)) pool)
    as [ | a l] eqn:Hf; simpl; [ | eauto].
  exfalso.
  assert (Hle : sumZ (excess (snd current)) pool <= 0); [ | lia].
  apply excess_no_continuation. intros e Hin.
  destruct (point_eqb (fst e) (snd current)) eqn:He; [ | reflexivity].
  assert (Hin' : In e (filter (fun e => point_eqb (fst e) (snd current)) pool))
    by (apply filter_In; auto).
  rewrite Hf in Hin'. contradiction.
Qed.

Lemma chainStep_Done (current next : edge) (c c' : contour)
  (pool pool' : list edge) :
  chainStep current c pool = Done (next, c', pool') ->
  In next pool /\ fst next = snd current /\ Permutation pool (next :: pool') /\
  ((fst (snd next) = fst (fst current) \/ snd (snd next) = snd (fst current))
   /\ c <> [] /\ c' = removelast c ++ [snd next]
   \/ (fst (snd next) <> fst (fst current)
       /\ snd (snd next) <> snd (fst current))
      /\ c' = c ++ [snd next]).
Proof.
  unfold chainStep. intros H.
  apply bind_Done in H. destruct H as (n & Hn & H).
  apply bind_Done in H. destruct H as (c1 & Hc & H).
  apply bind_Done in H. destruct H as (l1 & Hl & H).
  inversion H. subst n c1 l1. clear H.
  destruct (continuations_first _ _ _ Hn) as [Hin Hfst].
  split; [exact Hin | ]. split; [exact Hfst | ].
  split; [now apply list_remove_Done | ].
  destruct ((fst (snd next) =? fst (fst current))
            || (snd (snd next) =? snd (fst current))) eqn:Hm.
  - left. apply orb_true_iff in Hm. rewrite !Z.eqb_eq in Hm.
    split; [exact Hm | ].
    unfold set_last in Hc. destruct c; [discriminate | ].
    inversion Hc. split; [discriminate | reflexivity].
  - right. apply orb_false_iff in Hm. rewrite !Z.eqb_neq in Hm.
    inversion Hc. auto.
Qed.

Lemma chainStep_succeeds (current : edge) (c : contour) (pool : list edge) :
  c <> [] ->
  0 < sumZ (excess (snd current)) pool ->
  exists next c' pool', chainStep current c pool = Done (next, c', pool').
Proof.
  intros Hc Hpos. unfold chainStep.
  destruct (continuations_exist _ _ Hpos) as [next Hn]. rewrite Hn. simpl.
  destruct (continuations_first _ _ _ Hn) as [Hin _].
  destruct (list_remove_In _ _ Hin) as [pool' Hrem].
  destruct ((fst (snd next) =? fst (fst current))
            || (snd (snd next) =? snd (fst current))).
  - destruct c as [ | p c]; [contradiction | ]. simpl set_last. simpl bind.
    rewrite Hrem. simpl. eauto.
  - simpl. rewrite Hrem. simpl. eauto.
Qed.

(** ** Chains through balanced pools close *)

Lemma chainInv_step (s : point) (current next : edge) (pool pool' : list edge) :
  chainInv s (snd current) pool ->
  fst next = snd current ->
  Permutation pool (next :: pool') ->
  chainInv s (snd next) pool'.
Proof.
  intros Hinv Hfst Hperm p.
  specialize (Hinv p). rewrite (sumZ_Permutation _ _ _ Hperm) in Hinv.
  simpl in Hinv. unfold excess in Hinv at 1. rewrite Hfst in Hinv.
  lia.
Qed.

Lemma point_eqb_sym (p q : point) : point_eqb p q = point_eqb q p.
Proof. unfold point_eqb. now rewrite (Z.eqb_sym (fst p)), (Z.eqb_sym (snd p)). Qed.

Lemma followChain_succeeds (fuel : nat) (start : edge) :
  forall (current : edge) (c : contour) (pool : list edge),
    (length pool < fuel)%nat ->
    chainInv (fst start) (snd current) pool ->
    c <> [] ->
    exists c' pool',
      followChain fuel start current c pool = Done (c', pool')
      /\ balanced pool'
      /\ (length pool' <= length pool)%nat
      /\ incl pool' pool.
Proof.
  induction fuel as [ | fuel IH]; intros current c pool Hfuel Hinv Hc; [lia | ].
  simpl. destruct (point_eqb (snd current) (fst start)) eqn:Hclosed.
  - exists c, pool. split; [reflexivity | ].
    split; [ | split; [lia | apply incl_refl]].
    intros p. rewrite (Hinv p). apply point_eqb_eq in Hclosed.
    rewrite Hclosed. lia.
  - assert (Hpos : 0 < sumZ (excess (snd current)) pool).
    { rewrite (Hinv (snd current)), point_eqb_refl.
      rewrite (point_eqb_sym (fst start)), Hclosed. simpl. lia. }
    destruct (chainStep_succeeds current c pool Hc Hpos)
      as (next & c1 & pool1 & Hstep).
    rewrite Hstep. simpl.
    destruct (chainStep_Done _ _ _ _ _ _ Hstep) as (Hin & Hfst & Hperm & Hc1).
    assert (Hlen : length pool = S (length pool1))
      by (rewrite (Permutation_length Hperm); reflexivity).
    destruct (IH next c1 pool1) as (c' & pool' & Hrun & Hbal & Hle & Hincl).
    + lia.
    + eapply chainInv_step; eauto.
    + destruct Hc1 as [(_ & _ & ->) | (_ & ->)]; intros H;
        apply app_eq_nil in H; destruct H; discriminate.
    + exists c', pool'. split; [exact Hrun | ]. split; [exact Hbal | ].
      split; [lia | ].
      intros e He. apply Hincl in He.
      apply (Permutation_in e (Permutation_sym Hperm)). now right.
Qed.

Lemma balanced_single (e : edge) : balanced [e] -> fst e = snd e.
Proof.
  intros H. specialize (H (fst e)). simpl in H. unfold excess in H.
  rewrite point_eqb_refl in H.
  destruct (point_eqb (snd e) (fst e)) eqn:Heq.
  - apply point_eqb_eq in Heq. congruence.
  - simpl in H. lia.
Qed.

Lemma mergeLoop_succeeds (fuel : nat) :
  forall (pool : list edge) (contours : list contour),
    (length pool <= fuel)%nat ->
    balanced pool ->
    (forall e, In e pool -> fst e <> snd e) ->
    exists contours', mergeLoop fuel pool contours = Done (contours', []).
Proof.
  induction fuel as [ | fuel IH]; intros pool contours Hfuel Hbal Hloop.
  - destruct pool; [ | simpl in Hfuel; lia]. simpl. eauto.
  - destruct pool as [ | start pool]; [simpl; eauto | ].
    destruct pool as [ | e2 pool].
    { exfalso. apply (Hloop start); [now left | ]. now apply balanced_single. }
    cbn [mergeLoop length Nat.leb].
    unfold getitem. cbn [nth_error]. cbn [bind].
    rewrite list_remove_head. cbn [bind].
    destruct (followChain_succeeds (S fuel) start start [fst start; snd start]
                (e2 :: pool)) as (c' & pool' & Hrun & Hbal' & Hle & Hincl).
    + simpl in *. lia.
    + intros p. specialize (Hbal p). cbn [sumZ] in Hbal |- *.
      unfold excess in Hbal at 1. lia.
    + discriminate.
    + rewrite Hrun. cbn [bind].
      apply IH.
      * simpl in *. lia.
      * exact Hbal'.
      * intros e He. apply Hloop. right. now apply Hincl.
Qed.

Lemma balanced_Permutation (l1 l2 : list edge) :
  Permutation l1 l2 -> balanced l1 -> balanced l2.
Proof.
  intros Hperm Hbal p. rewrite <- (sumZ_Permutation _ _ _ Hperm). apply Hbal.
Qed.

Lemma stitch_succeeds (edges : list edge) :
  balanced edges ->
  (forall e, In e edges -> fst e <> snd e) ->
  exists contours, stitch edges = Done (contours, []).
Proof.
  intros Hbal Hloop. unfold stitch. apply mergeLoop_succeeds.
  - now rewrite sorted_length.
  - apply (balanced_Permutation edges); [ | exact Hbal].
    apply Permutation_sym, sorted_Permutation.
  - intros e He. apply Hloop.
    apply (Permutation_in e (sorted_Permutation edges) He).
Qed.

(** ** Stitching keeps the weight of the edges

    For a weight that adds up along a straight line, the finished contours
    and the pool together always weigh as much as the edges handed in. *)

Lemma axisAligned_spec (e : edge) :
  axisAligned e = true <->
  fst e <> snd e
  /\ (fst (fst e) = fst (snd e) \/ snd (fst e) = snd (snd e)).
Proof.
  unfold axisAligned.
  rewrite andb_true_iff, negb_true_iff, point_eqb_neq, orb_true_iff, !Z.eqb_eq.
  reflexivity.
Qed.

Lemma combine_app_l {A B : Type} (l m : list A) (l' : list B) :
  (length l' <= length l)%nat -> combine (l ++ m) l' = combine l l'.
Proof.
  revert l'. induction l as [ | a l IH]; intros [ | b l'] Hlen; simpl in *;
    try reflexivity; try lia.
  - now destruct m.
  - f_equal. apply IH. lia.
Qed.

Section StitchWeight.

Variable w : edge -> Z.
Hypothesis w_collinear :
  forall p q r : point,
    (fst p = fst q /\ fst q = fst r) \/ (snd p = snd q /\ snd q = snd r) ->
    w (p, q) + w (q, r) = w (p, r).

Lemma pathWeight_snoc (c0 : contour) (v t : point) :
  pathWeight w (c0 ++ [v; t]) = pathWeight w (c0 ++ [v]) + w (v, t).
Proof.
  unfold pathWeight, pathSegments.
  induction c0 as [ | a c0 IH]; [simpl; lia | ].
  destruct c0 as [ | b c0].
  - simpl. lia.
  - simpl in IH |- *. lia.
Qed.

Lemma chainStep_weight (current next : edge) (c c' : contour)
  (pool pool' : list edge) :
  openRun current c ->
  axisAligned current = true ->
  axisAligned next = true ->
  chainStep current c pool = Done (next, c', pool') ->
  openRun next c'
  /\ pathWeight w c' = pathWeight w c + w next
  /\ hd (0, 0) c' = hd (0, 0) c.
Proof.
  intros (c0 & v & Hc & Hline) Hcur Hnext Hstep.
  destruct (chainStep_Done _ _ _ _ _ _ Hstep) as (_ & Hfst & _ & Hcase).
  apply axisAligned_spec in Hcur, Hnext.
  destruct current as [A B], next as [B' C]. simpl in *. subst B'.
  destruct Hcur as [HAB HcurAx], Hnext as [HBC HnextAx].
  destruct Hcase as [(Hmerge & _ & ->) | (Hturn & ->)]; subst c.
  - (* the run is extended *)
    replace (c0 ++ [v; B]) with ((c0 ++ [v]) ++ [B])
      by (now rewrite <- app_assoc).
    rewrite removelast_last, <- !app_assoc. simpl app.
    assert (Hcol : (fst v = fst B /\ fst B = fst C)
                   \/ (snd v = snd B /\ snd B = snd C)).
    { destruct A as [ax ay], B as [bx by_], C as [cx cy], v as [vx vy].
      simpl in *.
      assert (ax <> bx \/ ay <> by_)
        by (destruct (Z.eq_dec ax bx), (Z.eq_dec ay by_); subst; auto;
            exfalso; apply HAB; reflexivity).
      lia. }
    split; [ | split].
    + exists c0, v. split; [reflexivity | ]. simpl.
      destruct Hcol as [[H1 H2] | [H1 H2]]; [left | right]; split; congruence.
    + rewrite !pathWeight_snoc. rewrite <- (w_collinear v B C Hcol). lia.
    + destruct c0; reflexivity.
  - (* a corner *)
    split; [ | split].
    + exists (c0 ++ [v]), B. split; [now rewrite <- !app_assoc | ]. simpl.
      destruct HnextAx; [left | right]; split; congruence.
    + replace ((c0 ++ [v; B]) ++ [C]) with ((c0 ++ [v]) ++ [B; C])
        by (now rewrite <- !app_assoc).
      rewrite pathWeight_snoc. rewrite <- app_assoc. reflexivity.
    + destruct c0; reflexivity.
Qed.

Lemma followChain_weight (fuel : nat) (start : edge) :
  forall (current : edge) (c c' : contour) (pool pool' : list edge),
    Forall (fun e => axisAligned e = true) pool ->
    axisAligned current = true ->
    openRun current c ->
    followChain fuel start current c pool = Done (c', pool') ->
    pathWeight w c' + sumZ w pool' = pathWeight w c + sumZ w pool
    /\ (exists c0 v, c' = c0 ++ [v; fst start])
    /\ hd (0, 0) c' = hd (0, 0) c
    /\ Forall (fun e => axisAligned e = true) pool'.
Proof.
  induction fuel as [ | fuel IH];
    intros current c c' pool pool' Hpool Hcur Hrun Hfollow; simpl in Hfollow;
    destruct (point_eqb (snd current) (fst start)) eqn:Hclosed;
    try discriminate.
  - inversion Hfollow. subst c' pool'. apply point_eqb_eq in Hclosed.
    destruct Hrun as (c0 & v & -> & _). rewrite Hclosed. eauto 6.
  - inversion Hfollow. subst c' pool'. apply point_eqb_eq in Hclosed.
    destruct Hrun as (c0 & v & -> & _). rewrite Hclosed. eauto 6.
  - apply bind_Done in Hfollow.
    destruct Hfollow as ([[next c1] pool1] & Hstep & Hfollow).
    destruct (chainStep_Done _ _ _ _ _ _ Hstep) as (Hin & _ & Hperm & _).
    assert (Hnext : axisAligned next = true)
      by (rewrite Forall_forall in Hpool; now apply Hpool).
    assert (Hpool1 : Forall (fun e => axisAligned e = true) pool1).
    { apply (Permutation_Forall Hperm) in Hpool. now inversion Hpool. }
    destruct (chainStep_weight _ _ _ _ _ _ Hrun Hcur Hnext Hstep)
      as (Hrun1 & Hw1 & Hhd1).
    destruct (IH _ _ _ _ _ Hpool1 Hnext Hrun1 Hfollow)
      as (Hw & Hend & Hhd & Hpool').
    rewrite (sumZ_Permutation w _ _ Hperm). simpl.
    repeat split; try assumption; [lia | congruence].
Qed.

Lemma segments_closed (c0 : contour) (v s : point) :
  hd (0, 0) (c0 ++ [v; s]) = s ->
  segments (removelast (c0 ++ [v; s])) = pathSegments (c0 ++ [v; s]).
Proof.
  intros Hhd.
  replace (c0 ++ [v; s]) with ((c0 ++ [v]) ++ [s]) in *
    by (now rewrite <- app_assoc).
  rewrite removelast_last.
  destruct (c0 ++ [v]) as [ | p rest] eqn:HX.
  { destruct c0; discriminate. }
  simpl in Hhd. subst p. unfold segments, pathSegments.
  change (tl ((s :: rest) ++ [s])) with (rest ++ [s]).
  rewrite combine_app_l; [reflexivity | ].
  rewrite length_app. simpl. lia.
Qed.

Lemma mergeLoop_weight (fuel : nat) :
  forall (pool pool' : list edge) (contours contours' : list contour),
    Forall (fun e => axisAligned e = true) pool ->
    mergeLoop fuel pool contours = Done (contours', pool') ->
    sumZ (contourWeight w) contours' + sumZ w pool'
    = sumZ (contourWeight w) contours + sumZ w pool.
Proof.
  induction fuel as [ | fuel IH]; intros pool pool' contours contours' Hpool Hrun;
    cbn [mergeLoop] in Hrun;
    destruct (length pool <=? 1)%nat eqn:Hlen; try discriminate;
    try (inversion Hrun; subst; reflexivity).
  apply bind_Done in Hrun. destruct Hrun as (start & Hstart & Hrun).
  apply bind_Done in Hrun. destruct Hrun as (pool1 & Hrem & Hrun).
  apply bind_Done in Hrun. destruct Hrun as ([c pool2] & Hfollow & Hrun).
  destruct pool as [ | e pool]; [discriminate | ].
  unfold getitem in Hstart. simpl in Hstart. inversion Hstart. subst e.
  rewrite list_remove_head in Hrem. inversion Hrem. subst pool1.
  inversion Hpool as [ | ? ? Hstart_ax Hpool1]. subst.
  assert (Hopen : openRun start [fst start; snd start]).
  { exists [], (fst start). split; [reflexivity | ].
    apply axisAligned_spec in Hstart_ax. destruct Hstart_ax as [_ [H | H]];
      [left | right]; split; congruence. }
  destruct (followChain_weight _ _ _ _ _ _ _ Hpool1 Hstart_ax Hopen Hfollow)
    as (Hw & (c0 & v & Hc) & Hhd & Hpool2).
  rewrite (IH _ _ _ _ Hpool2 Hrun).
  rewrite sumZ_app. simpl. unfold contourWeight at 2.
  subst c. rewrite segments_closed by exact Hhd.
  unfold pathWeight in Hw at 1 2. unfold pathSegments in Hw at 2.
  simpl in Hw. destruct start as [s t]. simpl in *. lia.
Qed.

Lemma stitch_weight (edges pool' : list edge) (contours : list contour) :
  Forall (fun e => axisAligned e = true) edges ->
  stitch edges = Done (contours, pool') ->
  sumZ (contourWeight w) contours + sumZ w pool' = sumZ w edges.
Proof.
  intros Hax Hrun. unfold stitch in Hrun.
  apply mergeLoop_weight in Hrun.
  - rewrite Hrun. simpl. apply sumZ_Permutation, sorted_Permutation.
  - apply (Permutation_Forall (Permutation_sym (sorted_Permutation edges))).
    exact Hax.
Qed.

End StitchWeight.

(** ** The edges of the boundary, one by one *)

Lemma in_only_if {A : Type} (c : bool) (a b : A) :
  In b (only_if c a) <-> b = a /\ c = true.
Proof. destruct c; simpl; intuition congruence. Qed.

Lemma in_cellEdges (bitmap : PixelGrid) (x y : Z) (e : edge) :
  In e (cellEdges (px bitmap) x y)
  <-> px bitmap x y = true /\ openSideOf bitmap x y e.
Proof.
  unfold cellEdges, openSideOf. destruct (px bitmap x y).
  - rewrite !in_app_iff, !in_only_if, !negb_true_iff. intuition.
  - simpl. intuition discriminate.
Qed.

Lemma in_boundaryEdges (bitmap : PixelGrid) (e : edge) :
  In e (boundaryEdges bitmap)
  <-> exists x y : nat,
        (x < gridWidth bitmap)%nat /\ (y < gridHeight bitmap)%nat
        /\ px bitmap (Z.of_nat x) (Z.of_nat y) = true
        /\ openSideOf bitmap (Z.of_nat x) (Z.of_nat y) e.
Proof.
  unfold boundaryEdges, rowEdges. rewrite in_flat_map. split.
  - intros (y & Hy & He). apply in_flat_map in He. destruct He as (x & Hx & He).
    apply in_seq in Hx, Hy. apply in_cellEdges in He.
    exists x, y. intuition lia.
  - intros (x & y & Hx & Hy & Hp & He). exists y. split; [apply in_seq; lia | ].
    apply in_flat_map. exists x. split; [apply in_seq; lia | ].
    apply in_cellEdges. auto.
Qed.

Lemma openSideOf_cellOf (bitmap : PixelGrid) (x y : Z) (e : edge) :
  openSideOf bitmap x y e -> cellOf e = (x, y).
Proof.
  unfold openSideOf, leftEdge, topEdge, rightEdge, bottomEdge.
  intros [[-> _] | [[-> _] | [[-> _] | [-> _]]]]; unfold cellOf;
    repeat match goal with
           | |- context [?a =? ?b] => destruct (Z.eqb_spec a b); try lia
           end;
    f_equal; lia.
Qed.

Lemma openSideOf_axisAligned (bitmap : PixelGrid) (x y : Z) (e : edge) :
  openSideOf bitmap x y e -> axisAligned e = true.
Proof.
  unfold openSideOf, leftEdge, topEdge, rightEdge, bottomEdge.
  intros [[-> _] | [[-> _] | [[-> _] | [-> _]]]];
    apply axisAligned_spec; simpl; (split; [intros H; inversion H; lia | auto]).
Qed.

Lemma boundaryEdges_axisAligned (bitmap : PixelGrid) :
  Forall (fun e => axisAligned e = true) (boundaryEdges bitmap).
Proof.
  apply Forall_forall. intros e He. apply in_boundaryEdges in He.
  destruct He as (x & y & _ & _ & _ & He).
  now apply openSideOf_axisAligned in He.
Qed.

Lemma boundaryEdges_no_loop (bitmap : PixelGrid) (e : edge) :
  In e (boundaryEdges bitmap) -> fst e <> snd e.
Proof.
  intros He. pose proof (boundaryEdges_axisAligned bitmap) as H.
  rewrite Forall_forall in H. apply H in He.
  now apply axisAligned_spec in He.
Qed.

Lemma cellEdges_NoDup (f : Z -> Z -> bool) (x y : Z) : NoDup (cellEdges f x y).
Proof.
  unfold cellEdges, leftEdge, topEdge, rightEdge, bottomEdge.
  destruct (f x y); [ | constructor].
  destruct (f (x - 1) y), (f x (y + 1)), (f (x + 1) y), (f x (y - 1)); simpl;
    repeat (constructor; simpl);
    try (intros H; decompose [or] H; try contradiction;
         match goal with Heq : _ = _ |- _ => inversion Heq; lia end).
Qed.

Lemma NoDup_flat_map_key {A B : Type} (k : B -> A) (f : A -> list B)
  (l : list A) :
  NoDup l ->
  (forall a, In a l -> NoDup (f a)) ->
  (forall a b, In a l -> In b (f a) -> k b = a) ->
  NoDup (flat_map f l).
Proof.
  induction l as [ | a l IH]; intros Hl Hf Hk; simpl; [constructor | ].
  apply NoDup_cons_iff in Hl. destruct Hl as [Ha Hl].
  apply NoDup_app.
  - apply Hf. now left.
  - apply IH; [exact Hl | intros; apply Hf; now right | ].
    intros a' b Ha' Hb. apply Hk; [now right | exact Hb].
  - intros b Hb Hb'. apply in_flat_map in Hb'. destruct Hb' as (a' & Ha' & Hb').
    apply Ha. rewrite <- (Hk a b (or_introl eq_refl) Hb).
    rewrite (Hk a' b (or_intror Ha') Hb'). exact Ha'.
Qed.

Lemma boundaryEdges_NoDup (bitmap : PixelGrid) : NoDup (boundaryEdges bitmap).
Proof.
  unfold boundaryEdges, rowEdges.
  apply (NoDup_flat_map_key (fun e => Z.to_nat (snd (cellOf e)))).
  - apply seq_NoDup.
  - intros y _.
    apply (NoDup_flat_map_key (fun e => Z.to_nat (fst (cellOf e)))).
    + apply seq_NoDup.
    + intros x _. apply cellEdges_NoDup.
    + intros x e _ He. apply in_cellEdges in He. destruct He as [_ He].
      rewrite (openSideOf_cellOf _ _ _ _ He). simpl. apply Nat2Z.id.
  - intros y e _ He. apply in_flat_map in He. destruct He as (x & _ & He).
    apply in_cellEdges in He. destruct He as [_ He].
    rewrite (openSideOf_cellOf _ _ _ _ He). simpl. apply Nat2Z.id.
Qed.

(** ** Every boundary edge is continued *)

Lemma excess_entered (p : point) (e : edge) (pool : list edge) :
  In e pool -> snd e = p -> fst e <> p ->
  (forall e', In e' pool -> point_eqb (fst e') p = false) ->
  sumZ (excess p) pool < 0.
Proof.
  induction pool as [ | a l IH]; intros Hin Hsnd Hfst Hnone; [contradiction | ].
  cbn [sumZ].
  assert (Ha := Hnone a (or_introl eq_refl)).
  assert (Hl : sumZ (excess p) l <= 0)
    by (apply excess_no_continuation; intros; apply Hnone; now right).
  unfold excess at 1. rewrite Ha.
  destruct Hin as [-> | Hin].
  - rewrite Hsnd, point_eqb_refl. cbn [Z.b2z]. lia.
  - assert (sumZ (excess p) l < 0)
      by (apply IH; auto; intros; apply Hnone; now right).
    destruct (point_eqb (snd a) p); cbn [Z.b2z]; lia.
Qed.

Lemma balanced_continued (edges : list edge) (e : edge) :
  balanced edges -> In e edges -> fst e <> snd e ->
  exists e', In e' edges /\ fst e' = snd e.
Proof.
  intros Hbal Hin Hloop.
  destruct (existsb (fun e' => point_eqb (fst e') (snd e)) edges) eqn:Hex.
  - apply existsb_exists in Hex. destruct Hex as (e' & He' & Heq).
    apply point_eqb_eq in Heq. eauto.
  - exfalso. specialize (Hbal (snd e)).
    assert (sumZ (excess (snd e)) edges < 0); [ | lia].
    apply (excess_entered _ e); auto.
    intros e' He'. destruct (point_eqb (fst e') (snd e)) eqn:Heq; auto.
    assert (existsb (fun e' => point_eqb (fst e') (snd e)) edges = true)
      by (apply existsb_exists; eauto).
    congruence.
Qed.

(** ** Stitching commutes with increasing changes of coordinates

    [mergeContours] only compares coordinates, for equality and for order;
    a change of coordinates that is strictly increasing in [x] and in [y]
    keeps the outcome of every comparison. *)

Lemma getitem_map {A B : Type} (f : A -> B) (l : list A) (i : nat) :
  getitem (map f l) i = fmap f (getitem l i).
Proof.
  unfold getitem. rewrite nth_error_map.
  now destruct (nth_error l i).
Qed.

Lemma removelast_map {A B : Type} (f : A -> B) (l : list A) :
  removelast (map f l) = map f (removelast l).
Proof.
  induction l as [ | a l IH]; [reflexivity | ].
  simpl. destruct l; [reflexivity | ]. simpl in *. now rewrite IH.
Qed.

Section IncreasingMap.

Variables fx fy : Z -> Z.
Hypothesis fx_increasing : forall a b, a < b -> fx a < fx b.
Hypothesis fy_increasing : forall a b, a < b -> fy a < fy b.

Lemma increasing_ltb (f : Z -> Z) :
  (forall a b, a < b -> f a < f b) ->
  forall a b, (f a <? f b) = (a <? b) /\ (f a =? f b) = (a =? b).
Proof.
  intros Hf a b.
  destruct (Z.lt_total a b) as [H | [-> | H]].
  - pose proof (Hf _ _ H). split.
    + transitivity true; [apply Z.ltb_lt | symmetry; apply Z.ltb_lt]; lia.
    + transitivity false; [apply Z.eqb_neq | symmetry; apply Z.eqb_neq]; lia.
  - now rewrite !Z.ltb_irrefl, !Z.eqb_refl.
  - pose proof (Hf _ _ H). split.
    + transitivity false; [apply Z.ltb_ge | symmetry; apply Z.ltb_ge]; lia.
    + transitivity false; [apply Z.eqb_neq | symmetry; apply Z.eqb_neq]; lia.
Qed.

Lemma fx_eqb (a b : Z) : (fx a =? fx b) = (a =? b).
Proof. apply (increasing_ltb fx fx_increasing). Qed.

Lemma fy_eqb (a b : Z) : (fy a =? fy b) = (a =? b).
Proof. apply (increasing_ltb fy fy_increasing). Qed.

Lemma fx_ltb (a b : Z) : (fx a <? fx b) = (a <? b).
Proof. apply (increasing_ltb fx fx_increasing). Qed.

Lemma fy_ltb (a b : Z) : (fy a <? fy b) = (a <? b).
Proof. apply (increasing_ltb fy fy_increasing). Qed.

Lemma point_eqb_mapPoint (p q : point) :
  point_eqb (mapPoint fx fy p) (mapPoint fx fy q) = point_eqb p q.
Proof. unfold point_eqb, mapPoint. simpl. now rewrite fx_eqb, fy_eqb. Qed.

Lemma point_ltb_mapPoint (p q : point) :
  point_ltb (mapPoint fx fy p) (mapPoint fx fy q) = point_ltb p q.
Proof.
  unfold point_ltb, mapPoint. simpl. now rewrite fx_eqb, fx_ltb, fy_ltb.
Qed.

Lemma edge_eqb_mapEdge (e f : edge) :
  edge_eqb (mapEdge fx fy e) (mapEdge fx fy f) = edge_eqb e f.
Proof. unfold edge_eqb, mapEdge. simpl. now rewrite !point_eqb_mapPoint. Qed.

Lemma edge_leb_mapEdge (e f : edge) :
  edge_leb (mapEdge fx fy e) (mapEdge fx fy f) = edge_leb e f.
Proof.
  unfold edge_leb, mapEdge. simpl.
  now rewrite !point_eqb_mapPoint, !point_ltb_mapPoint.
Qed.

Lemma insertEdge_mapEdge (e : edge) (l : list edge) :
  insertEdge (mapEdge fx fy e) (map (mapEdge fx fy) l)
  = map (mapEdge fx fy) (insertEdge e l).
Proof.
  induction l as [ | f l IH]; [reflexivity | ].
  simpl. rewrite edge_leb_mapEdge.
  destruct (edge_leb e f); simpl; [reflexivity | now rewrite IH].
Qed.

Lemma sorted_mapEdge (l : list edge) :
  sorted (map (mapEdge fx fy) l) = map (mapEdge fx fy) (sorted l).
Proof.
  induction l as [ | e l IH]; [reflexivity | ].
  simpl. now rewrite IH, insertEdge_mapEdge.
Qed.

Lemma list_remove_mapEdge (e : edge) (l : list edge) :
  list_remove (mapEdge fx fy e) (map (mapEdge fx fy) l)
  = fmap (map (mapEdge fx fy)) (list_remove e l).
Proof.
  induction l as [ | f l IH]; [reflexivity | ].
  simpl. rewrite edge_eqb_mapEdge.
  destruct (edge_eqb f e); [reflexivity | ].
  rewrite IH. now destruct (list_remove e l).
Qed.

Lemma continuations_mapEdge (l : list edge) (current : edge) :
  continuations (map (mapEdge fx fy) l) (mapEdge fx fy current)
  = map (mapEdge fx fy) (continuations l current).
Proof.
  unfold continuations.
  change (snd (mapEdge fx fy current)) with (mapPoint fx fy (snd current)).
  generalize (snd current) as t. intros t.
  induction l as [ | e l IH]; [reflexivity | ].
  cbn [map filter].
  change (fst (mapEdge fx fy e)) with (mapPoint fx fy (fst e)).
  rewrite point_eqb_mapPoint, IH.
  now destruct (point_eqb (fst e) t).
Qed.

Lemma set_last_mapPoint (c : contour) (p : point) :
  set_last (map (mapPoint fx fy) c) (mapPoint fx fy p)
  = fmap (map (mapPoint fx fy)) (set_last c p).
Proof.
  destruct c as [ | q c]; [reflexivity | ].
  unfold set_last, fmap. cbn [map bind].
  change (mapPoint fx fy q :: map (mapPoint fx fy) c)
    with (map (mapPoint fx fy) (q :: c)).
  now rewrite removelast_map, map_app.
Qed.

Lemma chainStep_mapEdge (current : edge) (c : contour) (pool : list edge) :
  chainStep (mapEdge fx fy current) (map (mapPoint fx fy) c)
            (map (mapEdge fx fy) pool)
  = fmap (fun '(next, c', pool') =>
            (mapEdge fx fy next, map (mapPoint fx fy) c',
             map (mapEdge fx fy) pool'))
         (chainStep current c pool).
Proof.
  unfold chainStep.
  rewrite continuations_mapEdge, getitem_map.
  destruct (getitem (continuations pool current) 0) as [next | | ];
    try reflexivity.
  cbn [fmap bind].
  change (fst (snd (mapEdge fx fy next))) with (fx (fst (snd next))).
  change (snd (snd (mapEdge fx fy next))) with (fy (snd (snd next))).
  change (fst (fst (mapEdge fx fy current))) with (fx (fst (fst current))).
  change (snd (fst (mapEdge fx fy current))) with (fy (snd (fst current))).
  change (snd (mapEdge fx fy next)) with (mapPoint fx fy (snd next)).
  rewrite fx_eqb, fy_eqb, list_remove_mapEdge.
  destruct ((fst (snd next) =? fst (fst current))
            || (snd (snd next) =? snd (fst current))).
  - rewrite set_last_mapPoint.
    destruct (set_last c (snd next)); try reflexivity. cbn [fmap bind].
    destruct (list_remove next pool); reflexivity.
  - cbn [bind].
    destruct (list_remove next pool); try reflexivity. cbn [fmap bind].
    now rewrite map_app.
Qed.

Lemma followChain_mapEdge (fuel : nat) (start : edge) :
  forall (current : edge) (c : contour) (pool : list edge),
    followChain fuel (mapEdge fx fy start) (mapEdge fx fy current)
                (map (mapPoint fx fy) c) (map (mapEdge fx fy) pool)
    = fmap (fun '(c', pool') =>
              (map (mapPoint fx fy) c', map (mapEdge fx fy) pool'))
           (followChain fuel start current c pool).
Proof.
  induction fuel as [ | fuel IH]; intros current c pool; cbn [followChain];
    change (snd (mapEdge fx fy current)) with (mapPoint fx fy (snd current));
    change (fst (mapEdge fx fy start)) with (mapPoint fx fy (fst start));
    rewrite point_eqb_mapPoint;
    destruct (point_eqb (snd current) (fst start)); try reflexivity.
  rewrite chainStep_mapEdge.
  destruct (chainStep current c pool) as [[[next c1] pool1] | | ];
    try reflexivity.
  cbn [fmap bind]. apply IH.
Qed.

Lemma mergeLoop_mapEdge (fuel : nat) :
  forall (pool : list edge) (contours : list contour),
    mergeLoop fuel (map (mapEdge fx fy) pool) (mapContours fx fy contours)
    = fmap (fun '(contours', pool') =>
              (mapContours fx fy contours', map (mapEdge fx fy) pool'))
           (mergeLoop fuel pool contours).
Proof.
  induction fuel as [ | fuel IH]; intros pool contours; cbn [mergeLoop];
    rewrite length_map; destruct (length pool <=? 1)%nat; try reflexivity.
  rewrite getitem_map.
  destruct (getitem pool 0) as [start | | ]; try reflexivity.
  cbn [fmap bind]. rewrite list_remove_mapEdge.
  destruct (list_remove start pool) as [pool1 | | ]; try reflexivity.
  cbn [fmap bind].
  change [fst (mapEdge fx fy start); snd (mapEdge fx fy start)]
    with (map (mapPoint fx fy) [fst start; snd start]).
  rewrite followChain_mapEdge.
  destruct (followChain (S fuel) start start [fst start; snd start] pool1)
    as [[c pool2] | | ]; try reflexivity.
  cbn [fmap bind].
  rewrite removelast_map.
  replace (mapContours fx fy contours ++ [map (mapPoint fx fy) (removelast c)])
    with (mapContours fx fy (contours ++ [removelast c]))
    by (unfold mapContours; now rewrite map_app).
  apply IH.
Qed.

Lemma stitch_mapEdge (edges : list edge) :
  stitch (map (mapEdge fx fy) edges)
  = fmap (fun '(contours, pool) =>
            (mapContours fx fy contours, map (mapEdge fx fy) pool))
         (stitch edges).
Proof.
  unfold stitch. rewrite length_map, sorted_mapEdge.
  apply (mergeLoop_mapEdge (length edges) (sorted edges) []).
Qed.

Lemma mergeContours_mapEdge (edges : list edge) :
  mergeContours (map (mapEdge fx fy) edges)
  = fmap (mapContours fx fy) (mergeContours edges).
Proof.
  unfold mergeContours. rewrite stitch_mapEdge.
  destruct (stitch edges) as [[contours pool] | | ]; reflexivity.
Qed.

End IncreasingMap.

Lemma mergeContours_scaleEdges (edges : list edge) (pixelSize descent : Z) :
  0 < pixelSize ->
  mergeContours (scaleEdges edges pixelSize descent)
  = fmap (mapContours (fun x => x * pixelSize)
                      (fun y => (y - descent) * pixelSize))
         (mergeContours edges).
Proof.
  intros Hpos.
  apply (mergeContours_mapEdge (fun x => x * pixelSize)
                               (fun y => (y - descent) * pixelSize)).
  - intros a b Hab. nia.
  - intros a b Hab. nia.
Qed.

(** ** unpackChar *)

Lemma unpack_bit (row bit : Z) :
  0 <= bit -> (Z.land (Z.shiftr row bit) 1 =? 1) = Z.testbit row bit.
Proof.
  intros Hbit.
  change 1 with (Z.ones 1) at 1. rewrite Z.land_ones by lia.
  change (2 ^ 1) with 2. rewrite <- Z.bit0_mod, Z.shiftr_spec by lia.
  simpl. now destruct (Z.testbit row bit).
Qed.

Lemma unpackRow_bits (row : Z) :
  unpackRow row = map (Z.testbit row) bitRange.
Proof.
  unfold unpackRow. apply map_ext_in. intros bit Hin.
  apply unpack_bit. unfold bitRange in Hin. simpl in Hin.
  decompose [or] Hin; subst; try lia; contradiction.
Qed.

(** C9: [unpackChar] turns the rows upside down and keeps the bits of a
    row in their order: output row [i] is the unpacked input row
    [n - 1 - i] (so row 0 is the last input row), every row has 8 columns,
    and column [j] holds bit [7 - j] of the row's integer (column 0 the
    most significant of the low 8 bits). *)
Theorem unpackChar_layout (glyphData : list Z) :
  length (unpackChar glyphData) = length glyphData
  /\ (forall i, (i < length glyphData)%nat ->
        nth_error (unpackChar glyphData) i
        = option_map unpackRow
            (nth_error glyphData (length glyphData - 1 - i)))
  /\ (forall row, length (unpackRow row) = 8%nat)
  /\ (forall row j, (j < 8)%nat ->
        nth_error (unpackRow row) j = Some (Z.testbit row (7 - Z.of_nat j))).
Proof.
  unfold unpackChar. split; [ | split; [ | split]].
  - now rewrite length_map, length_rev.
  - intros i Hi. rewrite nth_error_map. f_equal.
    rewrite (nth_error_nth' (rev glyphData) 0) by (rewrite length_rev; lia).
    rewrite rev_nth by lia.
    replace (length glyphData - S i)%nat with (length glyphData - 1 - i)%nat
      by lia.
    symmetry. apply nth_error_nth'. lia.
  - intros row. reflexivity.
  - intros row j Hj. rewrite unpackRow_bits. unfold bitRange.
    do 8 (destruct j as [ | j]; [reflexivity | ]). lia.
Qed.

Lemma unpackChar_layout_witness :
  nth_error (unpackChar [1; 2; 128]) 0 = Some (unpackRow 128)
  /\ nth_error (unpackRow 128) 0 = Some true.
Proof.
  destruct (unpackChar_layout [1; 2; 128]) as (_ & Hrows & _ & Hbits).
  split.
  - apply (Hrows 0%nat). simpl. lia.
  - apply (Hbits 128 0%nat). lia.
Defined.

(** ** scaleEdges *)

(** C10: [scaleEdges] sends the point [(x, y)] to
    [(x * scale, (y - descent) * scale)], edge by edge and point by point
    in place; for a scale other than zero, dividing the coordinates of the
    result by the scale and adding the descent back to [y] gives the
    edges that went in. *)
Theorem scaleEdges_roundtrip (edges : list edge) (scale descent : Z) :
  length (scaleEdges edges scale descent) = length edges
  /\ (forall i x1 y1 x2 y2,
        nth_error edges i = Some ((x1, y1), (x2, y2)) ->
        nth_error (scaleEdges edges scale descent) i
        = Some ((x1 * scale, (y1 - descent) * scale),
                (x2 * scale, (y2 - descent) * scale)))
  /\ (scale <> 0 ->
      map (fun e => ((fst (fst e) / scale, snd (fst e) / scale + descent),
                     (fst (snd e) / scale, snd (snd e) / scale + descent)))
          (scaleEdges edges scale descent)
      = edges).
Proof.
  unfold scaleEdges. split; [apply length_map | split].
  - intros i x1 y1 x2 y2 Hi. rewrite nth_error_map, Hi. reflexivity.
  - intros Hscale. rewrite map_map.
    rewrite <- (map_id edges) at 2. apply map_ext.
    intros [[x1 y1] [x2 y2]]. unfold scaleEdge, scalePoint. simpl.
    rewrite !Z.div_mul by exact Hscale.
    now rewrite !Z.sub_add.
Qed.

Lemma scaleEdges_roundtrip_witness :
  nth_error (scaleEdges [((0, 0), (0, 1)); ((0, 1), (1, 1))] 64 1) 1
  = Some ((0 * 64, (1 - 1) * 64), (1 * 64, (1 - 1) * 64))
  /\ map (fun e => ((fst (fst e) / 64, snd (fst e) / 64 + 1),
                    (fst (snd e) / 64, snd (snd e) / 64 + 1)))
         (scaleEdges [((0, 0), (0, 1)); ((0, 1), (1, 1))] 64 1)
     = [((0, 0), (0, 1)); ((0, 1), (1, 1))].
Proof.
  destruct (scaleEdges_roundtrip [((0, 0), (0, 1)); ((0, 1), (1, 1))] 64 1)
    as (_ & Hnth & Hback).
  split.
  - apply Hnth. reflexivity.
  - apply Hback. lia.
Defined.

(** ** generateEdges *)

Lemma px_true_iff (bitmap : PixelGrid) (x y : Z) :
  px bitmap x y = true
  <-> 0 <= x /\ 0 <= y
      /\ exists row, nth_error bitmap (Z.to_nat y) = Some row
                     /\ nth_error row (Z.to_nat x) = Some true.
Proof.
  unfold px. split.
  - destruct (Z.leb_spec 0 x) as [Hx | Hx], (Z.leb_spec 0 y) as [Hy | Hy];
      simpl; try discriminate.
    intros H. split; [lia | split; [lia | ]].
    destruct (nth_error bitmap (Z.to_nat y)) as [row | ] eqn:Hrow.
    + exists row. split; [reflexivity | ].
      rewrite (nth_error_nth _ _ [] Hrow) in H.
      destruct (nth_error row (Z.to_nat x)) as [b | ] eqn:Hb.
      * now rewrite (nth_error_nth _ _ false Hb) in H; subst.
      * apply nth_error_None in Hb. rewrite nth_overflow in H by exact Hb.
        discriminate.
    + apply nth_error_None in Hrow. rewrite (nth_overflow bitmap) in H by exact Hrow.
      destruct (Z.to_nat x); discriminate.
  - intros (Hx & Hy & row & Hrow & Hb).
    replace ((0 <=? x) && (0 <=? y)) with true
      by (symmetry; apply andb_true_iff; split; apply Z.leb_le; lia).
    rewrite (nth_error_nth _ _ [] Hrow). apply (nth_error_nth _ _ false Hb).
Qed.

(** C6: on a grid of at least one row whose rows are equally long,
    [generateEdges] returns, each once, exactly the edges that are an open
    side of a filled cell: for the filled cell [(x, y)] the left side
    [(x,y)->(x,y+1)], the top side [(x,y+1)->(x+1,y+1)], the right side
    [(x+1,y+1)->(x+1,y)] and the bottom side [(x+1,y)->(x,y)], each of them
    exactly when the cell beyond it is unfilled or outside the grid. *)
Theorem generateEdges_open_sides (bitmap : PixelGrid) :
  wellFormed bitmap = true ->
  exists edges,
    generateEdges bitmap = Done edges
    /\ NoDup edges
    /\ forall e,
        In e edges
        <-> exists x y : nat,
              (x < gridWidth bitmap)%nat /\ (y < gridHeight bitmap)%nat
              /\ px bitmap (Z.of_nat x) (Z.of_nat y) = true
              /\ ((e = ((Z.of_nat x, Z.of_nat y), (Z.of_nat x, Z.of_nat y + 1))
                   /\ px bitmap (Z.of_nat x - 1) (Z.of_nat y) = false)
                  \/ (e = ((Z.of_nat x, Z.of_nat y + 1),
                           (Z.of_nat x + 1, Z.of_nat y + 1))
                      /\ px bitmap (Z.of_nat x) (Z.of_nat y + 1) = false)
                  \/ (e = ((Z.of_nat x + 1, Z.of_nat y + 1),
                           (Z.of_nat x + 1, Z.of_nat y))
                      /\ px bitmap (Z.of_nat x + 1) (Z.of_nat y) = false)
                  \/ (e = ((Z.of_nat x + 1, Z.of_nat y),
                           (Z.of_nat x, Z.of_nat y))
                      /\ px bitmap (Z.of_nat x) (Z.of_nat y - 1) = false)).
Proof.
  intros Hwf. exists (boundaryEdges bitmap).
  split; [now apply generateEdges_boundaryEdges | ].
  split; [apply boundaryEdges_NoDup | ].
  intros e. apply in_boundaryEdges.
Qed.

Lemma generateEdges_open_sides_witness :
  exists edges,
    generateEdges [[true; false]; [false; true]] = Done edges
    /\ In ((1, 1), (1, 2)) edges.
Proof.
  destruct (generateEdges_open_sides [[true; false]; [false; true]] eq_refl)
    as (edges & Hrun & _ & Hin).
  exists edges. split; [exact Hrun | ].
  apply Hin. exists 1%nat, 1%nat.
  unfold gridWidth, gridHeight.
  split; [simpl; lia | ]. split; [simpl; lia | ]. split; [reflexivity | ].
  left. split; reflexivity.
Defined.

(** C7: on a grid of at least one row whose rows are equally long, every
    edge that [generateEdges] returns is continued: another edge of the
    same list starts where it ends. *)
Theorem generateEdges_closed_loops (bitmap : PixelGrid) :
  wellFormed bitmap = true ->
  exists edges,
    generateEdges bitmap = Done edges
    /\ forall e, In e edges ->
                 exists e', In e' edges /\ e' <> e /\ fst e' = snd e.
Proof.
  intros Hwf. exists (boundaryEdges bitmap).
  split; [now apply generateEdges_boundaryEdges | ].
  intros e He.
  pose proof (boundaryEdges_no_loop bitmap e He) as Hloop.
  destruct (balanced_continued _ e (boundaryEdges_balanced bitmap Hwf) He Hloop)
    as (e' & He' & Hfst).
  exists e'. repeat split; try assumption. congruence.
Qed.

Lemma generateEdges_closed_loops_witness :
  exists edges,
    generateEdges [[true; false]; [false; true]] = Done edges
    /\ forall e, In e edges ->
                 exists e', In e' edges /\ e' <> e /\ fst e' = snd e.
Proof.
  apply (generateEdges_closed_loops [[true; false]; [false; true]]).
  reflexivity.
Defined.

(** ** The contours enclose the filled cells *)

Lemma crossing_parity (cell : point) (segs : list edge) :
  Z.odd (sumZ (crossing cell) segs)
  = Nat.odd (length (filter (crosses cell) segs)).
Proof.
  induction segs as [ | s segs IH]; [reflexivity | ].
  cbn [sumZ filter]. rewrite Z.odd_add, IH. unfold crossing.
  destruct (crosses cell s).
  - cbn [length]. rewrite Nat.odd_succ, <- Nat.negb_odd.
    now destruct (snd (fst s) <? snd (snd s)).
  - reflexivity.
Qed.

Lemma windingNumber_segments (contours : list contour) (cell : point) :
  windingNumber contours cell
  = sumZ (crossing cell) (flat_map segments contours).
Proof. unfold windingNumber. now rewrite sumZ_flat_map. Qed.

Lemma stitch_boundary_winding (bitmap : PixelGrid) (contours : list contour)
  (cell : point) :
  wellFormed bitmap = true ->
  stitch (boundaryEdges bitmap) = Done (contours, []) ->
  windingNumber contours cell = - Z.b2z (px bitmap (fst cell) (snd cell)).
Proof.
  intros Hwf Hrun.
  pose proof (stitch_weight (crossing cell) (crossing_collinear cell)
                _ _ _ (boundaryEdges_axisAligned bitmap) Hrun) as Hw.
  rewrite (boundaryEdges_winding bitmap cell Hwf) in Hw.
  unfold windingNumber. unfold contourWeight in Hw. simpl in Hw. lia.
Qed.

(** C1: for every grid of at least one row whose rows are equally long,
    [generateEdges] followed by [mergeContours] returns contours, and the
    unit cells that these contours enclose are exactly the filled cells of
    the grid, under the even-odd rule and under the nonzero rule alike. *)
Theorem contours_enclose_filled_cells (bitmap : PixelGrid) :
  wellFormed bitmap = true ->
  exists contours,
    (edges <- generateEdges bitmap ;; mergeContours edges) = Done contours
    /\ forall x y : Z,
        insideEvenOdd contours (x, y) = px bitmap x y
        /\ insideNonzero contours (x, y) = px bitmap x y.
Proof.
  intros Hwf. rewrite (generateEdges_boundaryEdges bitmap Hwf). cbn [bind].
  destruct (stitch_succeeds (boundaryEdges bitmap)
              (boundaryEdges_balanced bitmap Hwf)
              (boundaryEdges_no_loop bitmap)) as [contours Hrun].
  exists contours. unfold mergeContours. rewrite Hrun.
  split; [reflexivity | ].
  intros x y.
  pose proof (stitch_boundary_winding bitmap contours (x, y) Hwf Hrun) as Hw.
  simpl in Hw. split.
  - unfold insideEvenOdd, crossingCount.
    rewrite <- crossing_parity, <- windingNumber_segments, Hw.
    now destruct (px bitmap x y).
  - unfold insideNonzero. rewrite Hw. now destruct (px bitmap x y).
Qed.

Lemma contours_enclose_filled_cells_witness :
  exists contours,
    (edges <- generateEdges [[true; false]; [false; true]] ;;
     mergeContours edges) = Done contours
    /\ forall x y : Z,
        insideEvenOdd contours (x, y)
        = px [[true; false]; [false; true]] x y
        /\ insideNonzero contours (x, y)
           = px [[true; false]; [false; true]] x y.
Proof.
  apply (contours_enclose_filled_cells [[true; false]; [false; true]]).
  reflexivity.
Defined.

(** ** The loops of mergeContours end *)

Lemma chainStep_no_timeout (current : edge) (c : contour) (pool : list edge) :
  chainStep current c pool <> Timeout.
Proof.
  unfold chainStep, getitem.
  destruct (nth_error (continuations pool current) 0) as [next | ];
    [ | discriminate].
  cbn [bind].
  assert (Hrem : forall l, list_remove next l <> Timeout).
  { induction l as [ | f l IH]; simpl; [discriminate | ].
    destruct (edge_eqb f next); [discriminate | ].
    destruct (list_remove next l); simpl; congruence. }
  specialize (Hrem pool).
  destruct ((fst (snd next) =? fst (fst current))
            || (snd (snd next) =? snd (fst current))).
  - destruct c; simpl; [discriminate | ].
    destruct (list_remove next pool); simpl; congruence.
  - simpl. destruct (list_remove next pool); simpl; congruence.
Qed.

Lemma followChain_terminates (fuel : nat) (start : edge) :
  forall (current : edge) (c : contour) (pool : list edge),
    (length pool < fuel)%nat ->
    followChain fuel start current c pool <> Timeout
    /\ forall c' pool',
         followChain fuel start current c pool = Done (c', pool') ->
         (length pool' <= length pool)%nat.
Proof.
  induction fuel as [ | fuel IH]; intros current c pool Hfuel; [lia | ].
  cbn [followChain].
  destruct (point_eqb (snd current) (fst start)).
  - split; [discriminate | ]. intros c' pool' H. inversion H. lia.
  - destruct (chainStep current c pool) as [[[next c1] pool1] | e | ] eqn:Hstep.
    + cbn [bind].
      destruct (chainStep_Done _ _ _ _ _ _ Hstep) as (_ & _ & Hperm & _).
      apply Permutation_length in Hperm. simpl in Hperm.
      destruct (IH next c1 pool1) as [Hno Hlen]; [lia | ].
      split; [exact Hno | ].
      intros c' pool' H. apply Hlen in H. lia.
    + split; [discriminate | ]. intros c' pool' H. discriminate.
    + now apply chainStep_no_timeout in Hstep.
Qed.

Lemma mergeLoop_terminates (fuel : nat) :
  forall (pool : list edge) (contours : list contour),
    (length pool <= fuel)%nat ->
    mergeLoop fuel pool contours <> Timeout.
Proof.
  induction fuel as [ | fuel IH]; intros pool contours Hfuel; cbn [mergeLoop];
    destruct (Nat.leb_spec (length pool) 1); try discriminate; [lia | ].
  destruct pool as [ | start pool]; [simpl in *; lia | ].
  unfold getitem. cbn [nth_error bind]. rewrite list_remove_head. cbn [bind].
  destruct (followChain_terminates (S fuel) start start
              [fst start; snd start] pool) as [Hno Hlen];
    [simpl in Hfuel; lia | ].
  destruct (followChain (S fuel) start start [fst start; snd start] pool)
    as [[c pool2] | e | ]; cbn [bind]; [ | discriminate | congruence].
  apply IH. specialize (Hlen c pool2 eq_refl). simpl in Hfuel. lia.
Qed.

(** A loop that ended keeps its result when given more fuel. *)
Lemma followChain_more_fuel (fuel : nat) (start : edge) :
  forall (fuel' : nat) (current : edge) (c : contour) (pool : list edge),
    (fuel <= fuel')%nat ->
    followChain fuel start current c pool <> Timeout ->
    followChain fuel' start current c pool
    = followChain fuel start current c pool.
Proof.
  induction fuel as [ | fuel IH]; intros fuel' current c pool Hle Hno.
  - cbn [followChain] in Hno |- *.
    destruct fuel'; cbn [followChain];
      destruct (point_eqb (snd current) (fst start)); congruence.
  - destruct fuel' as [ | fuel']; [lia | ].
    cbn [followChain] in Hno |- *.
    destruct (point_eqb (snd current) (fst start)); [reflexivity | ].
    destruct (chainStep current c pool) as [[[next c1] pool1] | e | ];
      try reflexivity.
    cbn [bind] in Hno |- *. apply IH; [lia | exact Hno].
Qed.

Lemma mergeLoop_more_fuel (fuel : nat) :
  forall (fuel' : nat) (pool : list edge) (contours : list contour),
    (fuel <= fuel')%nat ->
    mergeLoop fuel pool contours <> Timeout ->
    mergeLoop fuel' pool contours = mergeLoop fuel pool contours.
Proof.
  induction fuel as [ | fuel IH]; intros fuel' pool contours Hle Hno.
  - cbn [mergeLoop] in Hno |- *.
    destruct fuel'; cbn [mergeLoop];
      destruct (length pool <=? 1)%nat; congruence.
  - destruct fuel' as [ | fuel']; [lia | ].
    cbn [mergeLoop] in Hno |- *.
    destruct (length pool <=? 1)%nat; [reflexivity | ].
    destruct (getitem pool 0) as [start | e | ]; try reflexivity.
    cbn [bind] in Hno |- *.
    destruct (list_remove start pool) as [pool1 | e | ]; try reflexivity.
    cbn [bind] in Hno |- *.
    rewrite (followChain_more_fuel (S fuel) start (S fuel')) by
      (try lia;
       destruct (followChain (S fuel) start start [fst start; snd start] pool1);
       cbn [bind] in Hno; congruence).
    destruct (followChain (S fuel) start start [fst start; snd start] pool1)
      as [[c pool2] | e | ]; try reflexivity.
    cbn [bind] in Hno |- *. apply IH; [lia | exact Hno].
Qed.

Lemma stitch_terminates (edges : list edge) :
  stitch edges <> Timeout
  /\ forall fuel, (length edges <= fuel)%nat ->
                  mergeLoop fuel (sorted edges) [] = stitch edges.
Proof.
  assert (Hno : stitch edges <> Timeout)
    by (apply mergeLoop_terminates; now rewrite sorted_length).
  split; [exact Hno | ].
  intros fuel Hfuel. apply mergeLoop_more_fuel; assumption.
Qed.

(** ** The size of the pool *)

Lemma sumZ_le {A : Type} (f g : A -> Z) (l : list A) :
  (forall a, In a l -> f a <= g a) -> sumZ f l <= sumZ g l.
Proof.
  induction l as [ | a l IH]; intros H; simpl; [lia | ].
  pose proof (H a (or_introl eq_refl)).
  assert (sumZ f l <= sumZ g l) by (apply IH; intros; apply H; now right).
  lia.
Qed.

Lemma sumZ_const {A : Type} (k : Z) (l : list A) :
  sumZ (fun _ => k) l = k * Z.of_nat (length l).
Proof. induction l as [ | a l IH]; simpl length; cbn [sumZ]; lia. Qed.

Lemma length_flat_map_sumZ {A B : Type} (f : A -> list B) (l : list A) :
  Z.of_nat (length (flat_map f l))
  = sumZ (fun a => Z.of_nat (length (f a))) l.
Proof.
  induction l as [ | a l IH]; [reflexivity | ].
  cbn [flat_map sumZ]. rewrite length_app. lia.
Qed.

Lemma length_cellEdges (f : Z -> Z -> bool) (x y : Z) :
  Z.of_nat (length (cellEdges f x y)) <= 4 * Z.b2z (f x y).
Proof.
  unfold cellEdges. destruct (f x y); [ | simpl; lia].
  destruct (f (x - 1) y), (f x (y + 1)), (f (x + 1) y), (f x (y - 1));
    simpl; lia.
Qed.

Lemma sumZ_scale {A : Type} (k : Z) (f : A -> Z) (l : list A) :
  sumZ (fun a => k * f a) l = k * sumZ f l.
Proof. induction l as [ | a l IH]; cbn [sumZ]; lia. Qed.

Lemma length_boundaryEdges (bitmap : PixelGrid) :
  Z.of_nat (length (boundaryEdges bitmap)) <= 4 * filledCells bitmap
  /\ filledCells bitmap
     <= Z.of_nat (gridWidth bitmap) * Z.of_nat (gridHeight bitmap).
Proof.
  unfold boundaryEdges, rowEdges, filledCells. split.
  - rewrite length_flat_map_sumZ, <- sumZ_scale.
    apply sumZ_le. intros y _.
    rewrite length_flat_map_sumZ, <- sumZ_scale.
    apply sumZ_le. intros x _. apply length_cellEdges.
  - apply Z.le_trans
      with (sumZ (fun _ : nat => Z.of_nat (gridWidth bitmap))
                 (seq 0 (gridHeight bitmap))).
    + apply sumZ_le. intros y _.
      apply Z.le_trans with (sumZ (fun _ : nat => 1) (seq 0 (gridWidth bitmap))).
      * apply sumZ_le. intros x _.
        destruct (px bitmap (Z.of_nat x) (Z.of_nat y)); simpl; lia.
      * rewrite sumZ_const, length_seq. lia.
    + rewrite sumZ_const, length_seq. lia.
Qed.

Lemma unpackChar_wellFormed (rows : list Z) :
  rows <> [] ->
  wellFormed (unpackChar rows) = true
  /\ gridWidth (unpackChar rows) = 8%nat
  /\ gridHeight (unpackChar rows) = length rows.
Proof.
  intros Hrows. unfold unpackChar, gridHeight, gridWidth.
  rewrite length_map, length_rev.
  destruct (rev rows) as [ | r rest] eqn:Hrev.
  { apply (f_equal (@length Z)) in Hrev. rewrite length_rev in Hrev.
    destruct rows; [contradiction | discriminate]. }
  split; [ | split; reflexivity].
  cbn [map wellFormed]. apply forallb_forall. intros row Hin.
  change (unpackRow r :: map unpackRow rest) with (map unpackRow (r :: rest)) in Hin.
  apply in_map_iff in Hin. destruct Hin as (z & <- & _). reflexivity.
Qed.

(** ** vectorizeGlyph *)

Lemma vectorizeGlyph_rows (rows : list Z) (pixelSize descent : Z) :
  rows <> [] ->
  0 < pixelSize ->
  exists contours,
    stitch (boundaryEdges (unpackChar rows)) = Done (contours, [])
    /\ vectorizeGlyph (Some rows) pixelSize descent
       = Done (mapContours (fun x => x * pixelSize)
                           (fun y => (y - descent) * pixelSize) contours).
Proof.
  intros Hrows Hpos.
  destruct (unpackChar_wellFormed rows Hrows) as (Hwf & _ & _).
  destruct (stitch_succeeds (boundaryEdges (unpackChar rows))
              (boundaryEdges_balanced _ Hwf)
              (boundaryEdges_no_loop _)) as [contours Hrun].
  exists contours. split; [exact Hrun | ].
  unfold vectorizeGlyph.
  destruct rows as [ | r rows]; [contradiction | ]. cbn [length Nat.eqb].
  rewrite (generateEdges_boundaryEdges _ Hwf). cbn [bind].
  rewrite mergeContours_scaleEdges by exact Hpos.
  unfold mergeContours. rewrite Hrun. reflexivity.
Qed.

(** C8: [vectorizeGlyph] ends, with a list of contours, on every input
    (no data, no rows, or any rows of integers; any positive scale and any
    descent that is not negative). The pool that [mergeContours] starts
    from holds at most 4 edges for each filled cell, hence at most 32 for
    each row (256 for 8 rows); the stitching loops, which remove an edge
    with every pass, end within as many passes as there are edges, and
    more fuel does not change their result. *)
Theorem vectorizeGlyph_terminates (glyphData : option (list Z))
  (pixelSize descent : Z) :
  0 < pixelSize -> 0 <= descent ->
  (exists contours, vectorizeGlyph glyphData pixelSize descent = Done contours)
  /\ (forall rows, glyphData = Some rows -> rows <> [] ->
      exists edges,
        generateEdges (unpackChar rows) = Done edges
        /\ Z.of_nat (length edges) <= 4 * filledCells (unpackChar rows)
        /\ Z.of_nat (length edges) <= 32 * Z.of_nat (length rows)
        /\ stitch (scaleEdges edges pixelSize descent) <> Timeout
        /\ forall fuel, (length edges <= fuel)%nat ->
             mergeLoop fuel (sorted (scaleEdges edges pixelSize descent)) []
             = stitch (scaleEdges edges pixelSize descent)).
Proof.
  intros Hpos _. split.
  - destruct glyphData as [rows | ]; [ | now exists []].
    destruct rows as [ | r rows]; [now exists [] | ].
    destruct (vectorizeGlyph_rows (r :: rows) pixelSize descent)
      as (contours & _ & Hrun); [discriminate | exact Hpos | ].
    rewrite Hrun. eauto.
  - intros rows _ Hrows.
    destruct (unpackChar_wellFormed rows Hrows) as (Hwf & Hw & Hh).
    exists (boundaryEdges (unpackChar rows)).
    split; [now apply generateEdges_boundaryEdges | ].
    destruct (length_boundaryEdges (unpackChar rows)) as [Hlen Hfilled].
    rewrite Hw, Hh in Hfilled.
    split; [exact Hlen | ]. split; [lia | ].
    destruct (stitch_terminates
                (scaleEdges (boundaryEdges (unpackChar rows)) pixelSize descent))
      as [Hno Hfuel].
    split; [exact Hno | ].
    intros fuel Hle. apply Hfuel. unfold scaleEdges. now rewrite length_map.
Qed.

Lemma vectorizeGlyph_terminates_witness :
  exists contours, vectorizeGlyph (Some [24; 60; 102; 126; 102; 102; 102; 0]) 64 1
                   = Done contours.
Proof.
  apply (vectorizeGlyph_terminates
           (Some [24; 60; 102; 126; 102; 102; 102; 0]) 64 1); lia.
Defined.

(** C4: the glyph whose 8 rows are all [0xFF] gives one contour, and that
    contour has the 4 corners of the scaled 8x8 square as its vertices, for
    every positive scale and every descent that is not negative. *)
Theorem full_grid_one_square (pixelSize descent : Z) :
  0 < pixelSize -> 0 <= descent ->
  let corners :=
    [(0 * pixelSize, (0 - descent) * pixelSize);
     (0 * pixelSize, (8 - descent) * pixelSize);
     (8 * pixelSize, (8 - descent) * pixelSize);
     (8 * pixelSize, (0 - descent) * pixelSize)] in
  vectorizeGlyph (Some (repeat 255 8)) pixelSize descent = Done [corners]
  /\ length [corners] = 1%nat
  /\ length corners = 4%nat
  /\ NoDup corners.
Proof.
  intros Hpos _ corners.
  split; [ | split; [reflexivity | split; [reflexivity | ]]].
  - unfold vectorizeGlyph. cbn [repeat length Nat.eqb].
    remember (generateEdges (unpackChar [255; 255; 255; 255; 255; 255; 255; 255]))
      as r eqn:Hr.
    vm_compute in Hr. subst r. cbn [bind].
    rewrite mergeContours_scaleEdges by exact Hpos.
    match goal with
    | |- fmap _ (mergeContours ?es) = _ =>
        remember (mergeContours es) as r eqn:Hr
    end.
    vm_compute in Hr. subst r. reflexivity.
  - unfold corners.
    repeat (apply NoDup_cons; [cbn [In]; intros H; decompose [or] H;
                               try contradiction;
                               match goal with
                               | Heq : (_, _) = (_, _) |- _ =>
                                   apply pair_equal_spec in Heq; nia
                               end | ]).
    apply NoDup_nil.
Qed.

Lemma full_grid_one_square_witness :
  vectorizeGlyph (Some (repeat 255 8)) 64 1
  = Done [[(0 * 64, (0 - 1) * 64); (0 * 64, (8 - 1) * 64);
           (8 * 64, (8 - 1) * 64); (8 * 64, (0 - 1) * 64)]].
Proof.
  destruct (full_grid_one_square 64 1) as (Hrun & _); [lia | lia | ].
  exact Hrun.
Defined.

Lemma ring_unscaled (x0 y0 : nat) :
  (x0 <= 5)%nat -> (y0 <= 5)%nat ->
  let P := fun x y : Z => (Z.of_nat x0 + x, Z.of_nat y0 + y) in
  exists edges,
    generateEdges (ringGrid x0 y0) = Done edges
    /\ mergeContours edges
       = Done [[P 0 0; P 0 3; P 3 3; P 3 0]; [P 1 1; P 2 1; P 2 2; P 1 2]].
Proof.
  intros Hx Hy P. subst P.
  do 6 (destruct x0 as [ | x0];
        [do 6 (destruct y0 as [ | y0];
               [eexists; split; vm_compute; reflexivity | ]); lia | ]).
  lia.
Qed.

(** C5: an 8x8 glyph whose filled cells are a 3x3 block with the centre
    cell empty gives two contours, first the outer square of side 3 and
    then the inner square of side 1 around the hole. Both are closed
    polygons of four distinct corners with axis-parallel sides, and they
    have nothing in common: no point lies on a side of both, so they
    share no side and no part of one. *)
Theorem ring_two_contours (rows : list Z) (x0 y0 : nat)
  (pixelSize descent : Z) :
  (x0 <= 5)%nat -> (y0 <= 5)%nat ->
  unpackChar rows = ringGrid x0 y0 ->
  0 < pixelSize ->
  let P := fun x y : Z =>
             ((Z.of_nat x0 + x) * pixelSize,
              (Z.of_nat y0 + y - descent) * pixelSize) in
  let outer := [P 0 0; P 0 3; P 3 3; P 3 0] in
  let inner := [P 1 1; P 2 1; P 2 2; P 1 2] in
  vectorizeGlyph (Some rows) pixelSize descent = Done [outer; inner]
  /\ NoDup outer /\ NoDup inner
  /\ Forall (fun e => axisAligned e = true) (segments outer)
  /\ Forall (fun e => axisAligned e = true) (segments inner)
  /\ forall p e1 e2,
       In e1 (segments outer) -> In e2 (segments inner) ->
       onSegment p e1 = true -> onSegment p e2 = false.
Proof.
  intros Hx Hy Hgrid Hpos P outer inner.
  assert (Hdistinct : forall a b c d : Z,
             a <> c \/ b <> d -> P a b <> P c d).
  { intros a b c d Hne Heq. unfold P in Heq.
    apply pair_equal_spec in Heq. nia. }
  split; [ | split; [ | split; [ | split; [ | split]]]].
  - unfold vectorizeGlyph.
    assert (Hlen : length rows = 8%nat).
    { apply (f_equal (@length (list bool))) in Hgrid.
      unfold unpackChar, ringGrid in Hgrid.
      now rewrite !length_map, length_rev in Hgrid. }
    rewrite Hlen. cbn [Nat.eqb]. rewrite Hgrid.
    destruct (ring_unscaled x0 y0 Hx Hy) as (edges & -> & Hmerge).
    cbn [bind]. rewrite mergeContours_scaleEdges by exact Hpos.
    rewrite Hmerge. reflexivity.
  - unfold outer.
    repeat (apply NoDup_cons;
            [cbn [In]; intros H; decompose [or] H; try contradiction;
             match goal with
             | Heq : P _ _ = P _ _ |- _ => revert Heq; apply Hdistinct; lia
             end | ]).
    apply NoDup_nil.
  - unfold inner.
    repeat (apply NoDup_cons;
            [cbn [In]; intros H; decompose [or] H; try contradiction;
             match goal with
             | Heq : P _ _ = P _ _ |- _ => revert Heq; apply Hdistinct; lia
             end | ]).
    apply NoDup_nil.
  - unfold outer, segments. cbn [combine app].
    repeat (apply Forall_cons;
            [apply axisAligned_spec; split;
             [apply Hdistinct; lia | unfold P; cbn [fst snd]; lia] | ]).
    apply Forall_nil.
  - unfold inner, segments. cbn [combine app].
    repeat (apply Forall_cons;
            [apply axisAligned_spec; split;
             [apply Hdistinct; lia | unfold P; cbn [fst snd]; lia] | ]).
    apply Forall_nil.
  - intros [px_ py_] e1 e2 He1 He2 Hon.
    destruct (onSegment (px_, py_) e2) eqn:Hon2; [exfalso | reflexivity].
    unfold outer, inner, segments in He1, He2. cbn [combine app In] in He1, He2.
    unfold onSegment in Hon, Hon2.
    rewrite !andb_true_iff, !Z.leb_le in Hon, Hon2.
    unfold P in He1, He2.
    decompose [or] He1; try contradiction; subst e1;
      decompose [or] He2; try contradiction; subst e2;
      cbn [fst snd] in Hon, Hon2; nia.
Qed.

Lemma ring_two_contours_witness :
  vectorizeGlyph (Some [0; 0; 0; 0; 0; 224; 160; 224]) 64 1
  = Done [[((0 + 0) * 64, (0 + 0 - 1) * 64); ((0 + 0) * 64, (0 + 3 - 1) * 64);
           ((0 + 3) * 64, (0 + 3 - 1) * 64); ((0 + 3) * 64, (0 + 0 - 1) * 64)];
          [((0 + 1) * 64, (0 + 1 - 1) * 64); ((0 + 2) * 64, (0 + 1 - 1) * 64);
           ((0 + 2) * 64, (0 + 2 - 1) * 64); ((0 + 1) * 64, (0 + 2 - 1) * 64)]].
Proof.
  destruct (ring_two_contours [0; 0; 0; 0; 0; 224; 160; 224] 0 0 64 1)
    as (Hrun & _); [lia | lia | reflexivity | lia | ].
  exact Hrun.
Defined.

(** ** What mergeContours does with edges it cannot pair *)

(** C2, as claimed, fails: a square with one stray edge is stitched into
    the square, the stray edge is left in the pool, and the contours are
    returned as if the edge had not been there; a lone edge gives the empty
    list of contours. *)
Lemma leftover_edge_not_reported :
  let square :=
    [((0, 0), (0, 1)); ((0, 1), (1, 1)); ((1, 1), (1, 0)); ((1, 0), (0, 0))] in
  let stray := ((5, 5), (5, 6)) in
  stitch (stray :: square)
  = Done ([[(0, 0); (0, 1); (1, 1); (1, 0)]], [stray])
  /\ mergeContours (stray :: square) = Done [[(0, 0); (0, 1); (1, 1); (1, 0)]]
  /\ stitch [stray] = Done ([], [stray])
  /\ mergeContours [stray] = Done [].
Proof. repeat split; vm_compute; reflexivity. Qed.

(** C2, amended: when the stitching stops with one edge left in the pool,
    [mergeContours] returns the contours finished so far and raises
    nothing; the loop leaves a pool of one edge as it is. *)
Theorem leftover_edge_ignored (edges : list edge) (contours : list contour)
  (e : edge) :
  stitch edges = Done (contours, [e]) ->
  mergeContours edges = Done contours
  /\ forall fuel contours0,
       mergeLoop fuel [e] contours0 = Done (contours0, [e]).
Proof.
  intros Hrun. split.
  - unfold mergeContours. rewrite Hrun. reflexivity.
  - intros fuel contours0. destruct fuel; reflexivity.
Qed.

Lemma leftover_edge_ignored_witness :
  mergeContours
    [((5, 5), (5, 6)); ((0, 0), (0, 1)); ((0, 1), (1, 1)); ((1, 1), (1, 0));
     ((1, 0), (0, 0))]
  = Done [[(0, 0); (0, 1); (1, 1); (1, 0)]].
Proof.
  apply (leftover_edge_ignored
           [((5, 5), (5, 6)); ((0, 0), (0, 1)); ((0, 1), (1, 1));
            ((1, 1), (1, 0)); ((1, 0), (0, 0))]
           [[(0, 0); (0, 1); (1, 1); (1, 0)]] ((5, 5), (5, 6))).
  vm_compute. reflexivity.
Defined.

(** C3, as claimed, fails: while the glyph with rows [128; 64] (two cells
    that touch at a corner) is vectorised, the chain that started with the
    edge [(0,1)->(0,2)] reaches the point [(1,1)], where two edges of the
    pool start. The step takes the first of them and goes on, and the glyph
    is vectorised without an error. *)
Lemma ambiguous_continuation_proceeds :
  let edges :=
    [((1, 0), (1, 1)); ((1, 1), (2, 1)); ((2, 1), (2, 0)); ((2, 0), (1, 0));
     ((0, 1), (0, 2)); ((0, 2), (1, 2)); ((1, 2), (1, 1)); ((1, 1), (0, 1))] in
  let start := ((0, 1), (0, 2)) in
  let current := ((1, 2), (1, 1)) in
  let c := [(0, 1); (0, 2); (1, 2); (1, 1)] in
  let pool :=
    [((1, 0), (1, 1)); ((1, 1), (0, 1)); ((1, 1), (2, 1)); ((2, 0), (1, 0));
     ((2, 1), (2, 0))] in
  generateEdges (unpackChar [128; 64]) = Done edges
  /\ getitem (sorted edges) 0 = Done start
  /\ followChain 8 start start [fst start; snd start] (tl (sorted edges))
     = followChain 6 start current c pool
  /\ continuations pool current = [((1, 1), (0, 1)); ((1, 1), (2, 1))]
  /\ chainStep current c pool
     = Done (((1, 1), (0, 1)), c ++ [(0, 1)],
             [((1, 0), (1, 1)); ((1, 1), (2, 1)); ((2, 0), (1, 0));
              ((2, 1), (2, 0))])
  /\ vectorizeGlyph (Some [128; 64]) 1 0
     = Done [[(0, 1); (0, 2); (1, 2); (1, 1)];
             [(1, 0); (1, 1); (2, 1); (2, 0)]].
Proof. repeat split; vm_compute; reflexivity. Qed.

(** C3, amended: a chain step with no edge of the pool starting at the end
    of the current edge raises [IndexError]; with one such edge or with
    several it takes the first of them in the order of the pool, removes it
    from the pool and goes on, whatever the other candidates are. *)
Theorem chainStep_takes_first_candidate (current : edge) (c : contour)
  (pool : list edge) :
  (continuations pool current = [] ->
   chainStep current c pool = Raised IndexError)
  /\ (forall next rest,
        continuations pool current = next :: rest ->
        c <> [] ->
        exists c' pool',
          chainStep current c pool = Done (next, c', pool')
          /\ Permutation pool (next :: pool')).
Proof.
  split.
  - intros Hnone. unfold chainStep. rewrite Hnone. reflexivity.
  - intros next rest Hsome Hc.
    assert (Hin : In next pool).
    { assert (H : In next (continuations pool current))
        by (rewrite Hsome; now left).
      unfold continuations in H. now apply filter_In in H. }
    destruct (list_remove_In _ _ Hin) as [pool' Hrem].
    unfold chainStep. rewrite Hsome. unfold getitem. cbn [nth_error bind].
    destruct c as [ | p c]; [contradiction | ].
    destruct ((fst (snd next) =? fst (fst current))
              || (snd (snd next) =? snd (fst current)));
      cbn [set_last bind]; rewrite Hrem; cbn [bind];
      eexists; eexists; (split; [reflexivity | now apply list_remove_Done]).
Qed.

Lemma chainStep_takes_first_candidate_witness :
  chainStep ((0, 0), (1, 0)) [(0, 0); (1, 0)] [((2, 0), (3, 0))]
  = Raised IndexError
  /\ exists c' pool',
       chainStep ((1, 2), (1, 1)) [(0, 1); (0, 2); (1, 2); (1, 1)]
                 [((1, 0), (1, 1)); ((1, 1), (0, 1)); ((1, 1), (2, 1))]
       = Done (((1, 1), (0, 1)), c', pool')
       /\ Permutation
            [((1, 0), (1, 1)); ((1, 1), (0, 1)); ((1, 1), (2, 1))]
            (((1, 1), (0, 1)) :: pool').
Proof.
  split.
  - apply (chainStep_takes_first_candidate
             ((0, 0), (1, 0)) [(0, 0); (1, 0)] [((2, 0), (3, 0))]).
    reflexivity.
  - apply (chainStep_takes_first_candidate
             ((1, 2), (1, 1)) [(0, 1); (0, 2); (1, 2); (1, 1)]
             [((1, 0), (1, 1)); ((1, 1), (0, 1)); ((1, 1), (2, 1))])
      with (rest := [((1, 1), (2, 1))]).
    + reflexivity.
    + discriminate.
Defined.

(** * Further properties of the vectorisation *)

(** ** What the contours are made of *)

Lemma mergeContours_Done (edges : list edge) (contours : list contour) :
  mergeContours edges = Done contours
  <-> exists pool, stitch edges = Done (contours, pool).
Proof.
  unfold mergeContours, fmap. split.
  - intros H. apply bind_Done in H. destruct H as ([cs pool] & Hrun & Hcs).
    inversion Hcs. subst. eauto.
  - intros [pool ->]. reflexivity.
Qed.

Lemma In_removelast {A : Type} (l : list A) (a : A) :
  In a (removelast l) -> In a l.
Proof.
  induction l as [ | b l IH]; [auto | ].
  simpl. destruct l as [ | c l]; [contradiction | ].
  intros [-> | H]; [now left | right; now apply IH].
Qed.

Section ContourPoints.

Variable P : point -> Prop.

Lemma followChain_points (fuel : nat) (start : edge) :
  forall (current : edge) (c c' : contour) (pool pool' : list edge),
    Forall P c ->
    (forall e, In e pool -> P (snd e)) ->
    followChain fuel start current c pool = Done (c', pool') ->
    Forall P c' /\ incl pool' pool /\ (2 <= length c -> 2 <= length c')%nat.
Proof.
  induction fuel as [ | fuel IH];
    intros current c c' pool pool' Hc Hpool Hrun; cbn [followChain] in Hrun;
    destruct (point_eqb (snd current) (fst start)); try discriminate;
    try (inversion Hrun; subst; split; [assumption | split; [apply incl_refl | auto]]).
  apply bind_Done in Hrun.
  destruct Hrun as ([[next c1] pool1] & Hstep & Hrun).
  destruct (chainStep_Done _ _ _ _ _ _ Hstep) as (Hin & _ & Hperm & Hcase).
  assert (Hc1 : Forall P c1 /\ (2 <= length c -> 2 <= length c1)%nat).
  { destruct Hcase as [(_ & Hne & ->) | (_ & ->)].
    - split.
      + apply Forall_app. split.
        * apply Forall_forall. intros p Hp. apply In_removelast in Hp.
          rewrite Forall_forall in Hc. now apply Hc.
        * constructor; [now apply Hpool | constructor].
      + intros Hlen. destruct (exists_last Hne) as (l & a & ->).
        rewrite removelast_last. rewrite !length_app in *. exact Hlen.
    - split.
      + apply Forall_app. split; [exact Hc | ].
        constructor; [now apply Hpool | constructor].
      + rewrite length_app. simpl. lia. }
  assert (Hincl1 : incl pool1 pool).
  { intros e He. apply (Permutation_in e (Permutation_sym Hperm)). now right. }
  destruct (IH next c1 c' pool1 pool') as (Hc' & Hincl & Hlen);
    [tauto | intros; apply Hpool; now apply Hincl1 | exact Hrun | ].
  split; [exact Hc' | ].
  split; [intros e He; apply Hincl1; now apply Hincl | ].
  intros H. apply Hlen. now apply Hc1.
Qed.

Lemma mergeLoop_points (fuel : nat) :
  forall (pool pool' : list edge) (contours contours' : list contour),
    (forall e, In e pool -> P (fst e) /\ P (snd e)) ->
    Forall (fun c => c <> [] /\ Forall P c) contours ->
    mergeLoop fuel pool contours = Done (contours', pool') ->
    Forall (fun c => c <> [] /\ Forall P c) contours' /\ incl pool' pool.
Proof.
  induction fuel as [ | fuel IH];
    intros pool pool' contours contours' Hpool Hcs Hrun;
    cbn [mergeLoop] in Hrun;
    destruct (length pool <=? 1)%nat; try discriminate;
    try (inversion Hrun; subst; split; [assumption | apply incl_refl]).
  apply bind_Done in Hrun. destruct Hrun as (start & Hstart & Hrun).
  apply bind_Done in Hrun. destruct Hrun as (pool1 & Hrem & Hrun).
  apply bind_Done in Hrun. destruct Hrun as ([c pool2] & Hfollow & Hrun).
  destruct pool as [ | e pool]; [discriminate | ].
  unfold getitem in Hstart. simpl in Hstart. inversion Hstart. subst e.
  rewrite list_remove_head in Hrem. inversion Hrem. subst pool1.
  destruct (Hpool start (or_introl eq_refl)) as [Hs Ht].
  destruct (followChain_points _ _ _ _ _ _ _
              (Forall_cons _ Hs (Forall_cons _ Ht (Forall_nil _)))
              (fun e He => proj2 (Hpool e (or_intror He))) Hfollow)
    as (Hc & Hincl & Hlen).
  specialize (Hlen (le_n 2)).
  destruct (IH pool2 pool' (contours ++ [removelast c]) contours')
    as [Hcs' Hincl']; [ | | exact Hrun | ].
  - intros e He. apply Hpool. right. now apply Hincl.
  - apply Forall_app. split; [exact Hcs | ].
    constructor; [ | constructor]. split.
    + destruct c as [ | p [ | q c]]; simpl in Hlen; try lia. discriminate.
    + apply Forall_forall. intros p Hp. apply In_removelast in Hp.
      rewrite Forall_forall in Hc. now apply Hc.
  - split; [exact Hcs' | ].
    intros e He. right. apply Hincl. now apply Hincl'.
Qed.

Lemma mergeContours_points (edges : list edge) (contours : list contour) :
  (forall e, In e edges -> P (fst e) /\ P (snd e)) ->
  mergeContours edges = Done contours ->
  Forall (fun c => c <> [] /\ Forall P c) contours.
Proof.
  intros Hedges Hrun. apply mergeContours_Done in Hrun.
  destruct Hrun as [pool Hrun]. unfold stitch in Hrun.
  apply mergeLoop_points in Hrun; [tauto | | constructor].
  intros e He. apply Hedges.
  apply (Permutation_in e (sorted_Permutation edges) He).
Qed.

End ContourPoints.

(** X5: [mergeContours] invents no point: whenever it returns, every
    contour has at least one vertex and every vertex of every contour is a
    point at which one of the given edges starts or ends. *)
Theorem mergeContours_vertices_from_edges (edges : list edge)
  (contours : list contour) :
  mergeContours edges = Done contours ->
  forall c, In c contours ->
            c <> [] /\ forall p, In p c -> endpointOf edges p.
Proof.
  intros Hrun c Hc.
  pose proof (mergeContours_points (endpointOf edges) edges contours) as H.
  rewrite Forall_forall in H.
  destruct (H (fun e He => conj (ex_intro _ e (conj He (or_introl eq_refl)))
                                (ex_intro _ e (conj He (or_intror eq_refl))))
              Hrun c Hc) as [Hne Hall].
  split; [exact Hne | ]. now apply Forall_forall.
Qed.

Lemma mergeContours_vertices_from_edges_witness :
  endpointOf [((0, 0), (0, 1)); ((0, 1), (1, 1)); ((1, 1), (1, 0));
              ((1, 0), (0, 0))] (1, 1).
Proof.
  apply (mergeContours_vertices_from_edges
           [((0, 0), (0, 1)); ((0, 1), (1, 1)); ((1, 1), (1, 0));
            ((1, 0), (0, 0))]
           [[(0, 0); (0, 1); (1, 1); (1, 0)]])
    with (c := [(0, 0); (0, 1); (1, 1); (1, 0)]).
  - vm_compute. reflexivity.
  - now left.
  - simpl. auto.
Defined.

(** ** The sides of the contours *)

Lemma sumZ_nonneg_zero {A : Type} (f : A -> Z) (l : list A) :
  (forall a, In a l -> 0 <= f a) ->
  sumZ f l = 0 ->
  forall a, In a l -> f a = 0.
Proof.
  induction l as [ | b l IH]; intros Hpos Hsum a Ha; [contradiction | ].
  cbn [sumZ] in Hsum.
  assert (Hb : 0 <= f b) by (apply Hpos; now left).
  assert (Hl : 0 <= sumZ f l).
  { rewrite <- (sumZ_zero (fun _ : A => 0) l) by reflexivity.
    apply sumZ_le. intros; apply Hpos; now right. }
  destruct Ha as [-> | Ha]; [lia | ].
  apply IH; [intros; apply Hpos; now right | lia | exact Ha].
Qed.

Lemma skewWeight_nonneg (e : edge) : 0 <= skewWeight e.
Proof. unfold skewWeight. destruct (axisParallel e); lia. Qed.

Lemma skewWeight_collinear (p q r : point) :
  (fst p = fst q /\ fst q = fst r) \/ (snd p = snd q /\ snd q = snd r) ->
  skewWeight (p, q) + skewWeight (q, r) = skewWeight (p, r).
Proof.
  intros H. unfold skewWeight, axisParallel. cbn [fst snd].
  destruct H as [[H1 H2] | [H1 H2]].
  - rewrite H1, H2, !Z.eqb_refl. reflexivity.
  - rewrite H1, H2, !Z.eqb_refl, !orb_true_r. reflexivity.
Qed.

Lemma axisAligned_axisParallel (e : edge) :
  axisAligned e = true -> axisParallel e = true.
Proof.
  unfold axisAligned, axisParallel. intros H.
  apply andb_true_iff in H. tauto.
Qed.

(** X7: when every given edge joins two different points that share a
    coordinate, every side of every contour that [mergeContours] returns,
    the closing side from the last vertex back to the first included, is
    parallel to an axis. *)
Theorem mergeContours_sides_axis_parallel (edges : list edge)
  (contours : list contour) :
  Forall (fun e => axisAligned e = true) edges ->
  mergeContours edges = Done contours ->
  forall c s, In c contours -> In s (segments c) -> axisParallel s = true.
Proof.
  intros Hax Hrun c s Hc Hs.
  apply mergeContours_Done in Hrun. destruct Hrun as [pool Hrun].
  pose proof (stitch_weight skewWeight skewWeight_collinear _ _ _ Hax Hrun)
    as Hw.
  assert (Hedges : sumZ skewWeight edges = 0).
  { apply sumZ_zero. intros e He. rewrite Forall_forall in Hax.
    unfold skewWeight. now rewrite (axisAligned_axisParallel e (Hax e He)). }
  assert (Hpool : 0 <= sumZ skewWeight pool).
  { rewrite <- (sumZ_zero (fun _ : edge => 0) pool) by reflexivity.
    apply sumZ_le. intros; apply skewWeight_nonneg. }
  assert (Hcs : forall c', In c' contours -> 0 <= contourWeight skewWeight c').
  { intros c' _. unfold contourWeight.
    rewrite <- (sumZ_zero (fun _ : edge => 0) (segments c')) by reflexivity.
    apply sumZ_le. intros; apply skewWeight_nonneg. }
  assert (Hsum : 0 <= sumZ (contourWeight skewWeight) contours).
  { rewrite <- (sumZ_zero (fun _ : contour => 0) contours) by reflexivity.
    apply sumZ_le. exact Hcs. }
  assert (Hc0 : contourWeight skewWeight c = 0).
  { apply (sumZ_nonneg_zero _ contours Hcs); [lia | exact Hc]. }
  assert (Hs0 : skewWeight s = 0).
  { apply (sumZ_nonneg_zero _ (segments c));
      [intros; apply skewWeight_nonneg | exact Hc0 | exact Hs]. }
  unfold skewWeight in Hs0. destruct (axisParallel s); [reflexivity | lia].
Qed.

Lemma mergeContours_sides_axis_parallel_witness :
  axisParallel ((1, 0), (0, 0)) = true.
Proof.
  apply (mergeContours_sides_axis_parallel
           [((0, 0), (0, 1)); ((0, 1), (1, 1)); ((1, 1), (1, 0));
            ((1, 0), (0, 0))]
           [[(0, 0); (0, 1); (1, 1); (1, 0)]])
    with (c := [(0, 0); (0, 1); (1, 1); (1, 0)]).
  - repeat constructor.
  - vm_compute. reflexivity.
  - now left.
  - simpl. auto.
Defined.

(** ** The only exception of mergeContours *)

Lemma chainStep_IndexError (current : edge) (c : contour) (pool : list edge) :
  (exists r, chainStep current c pool = Done r)
  \/ chainStep current c pool = Raised IndexError.
Proof.
  unfold chainStep.
  destruct (getitem (continuations pool current) 0) as [next | e | ] eqn:Hnext.
  - cbn [bind].
    destruct (continuations_first _ _ _ Hnext) as [Hin _].
    destruct (list_remove_In _ _ Hin) as [pool' Hrem].
    destruct ((fst (snd next) =? fst (fst current))
              || (snd (snd next) =? snd (fst current))).
    + destruct c as [ | p c]; [now right | ].
      cbn [set_last bind]. rewrite Hrem. left. eexists. reflexivity.
    + cbn [bind]. rewrite Hrem. left. eexists. reflexivity.
  - right. unfold getitem in Hnext.
    destruct (nth_error (continuations pool current) 0); [discriminate | ].
    now inversion Hnext.
  - unfold getitem in Hnext.
    destruct (nth_error (continuations pool current) 0); discriminate.
Qed.

Lemma followChain_no_ValueError (fuel : nat) (start : edge) :
  forall (current : edge) (c : contour) (pool : list edge),
    followChain fuel start current c pool <> Raised ValueError.
Proof.
  induction fuel as [ | fuel IH]; intros current c pool; cbn [followChain];
    destruct (point_eqb (snd current) (fst start)); try discriminate.
  destruct (chainStep_IndexError current c pool) as [[[[next c1] pool1] ->] | ->].
  - cbn [bind]. apply IH.
  - discriminate.
Qed.

Lemma mergeLoop_no_ValueError (fuel : nat) :
  forall (pool : list edge) (contours : list contour),
    mergeLoop fuel pool contours <> Raised ValueError.
Proof.
  induction fuel as [ | fuel IH]; intros pool contours; cbn [mergeLoop];
    destruct (length pool <=? 1)%nat eqn:Hlen; try discriminate.
  destruct pool as [ | start pool]; [discriminate | ].
  unfold getitem. cbn [nth_error bind]. rewrite list_remove_head. cbn [bind].
  pose proof (followChain_no_ValueError (S fuel) start start
                [fst start; snd start] pool) as Hchain.
  destruct (followChain (S fuel) start start [fst start; snd start] pool)
    as [[c pool2] | e | ]; cbn [bind]; [apply IH | | discriminate].
  destruct e; [discriminate | congruence].
Qed.

(** X8: whatever the edges, [mergeContours] either returns a list of
    contours or raises [IndexError] (a chain that finds no continuation);
    [edgeList.remove] never fails, and the loops always end. *)
Theorem mergeContours_Done_or_IndexError (edges : list edge) :
  (exists contours, mergeContours edges = Done contours)
  \/ mergeContours edges = Raised IndexError.
Proof.
  unfold mergeContours, fmap.
  pose proof (proj1 (stitch_terminates edges)) as Hno.
  pose proof (mergeLoop_no_ValueError (length edges) (sorted edges) []) as Hval.
  fold (stitch edges) in Hval.
  destruct (stitch edges) as [[cs pool] | e | ]; cbn [bind].
  - left. eauto.
  - right. destruct e; [reflexivity | congruence].
  - congruence.
Qed.

(** ** The order of the edges does not matter *)

Lemma edge_leb_spec (e f : edge) :
  edge_leb e f = true
  <-> fst (fst e) < fst (fst f)
      \/ (fst (fst e) = fst (fst f)
          /\ (snd (fst e) < snd (fst f)
              \/ (snd (fst e) = snd (fst f)
                  /\ (fst (snd e) < fst (snd f)
                      \/ (fst (snd e) = fst (snd f)
                          /\ snd (snd e) <= snd (snd f)))))).
Proof.
  destruct e as [[x1 y1] [x2 y2]], f as [[u1 v1] [u2 v2]].
  unfold edge_leb, point_ltb, point_eqb. cbn [fst snd].
  rewrite !orb_true_iff, !andb_true_iff, !orb_true_iff, !andb_true_iff,
    !Z.ltb_lt, !Z.eqb_eq.
  lia.
Qed.

Lemma edge_leb_false (e f : edge) :
  edge_leb e f = false -> edge_leb f e = true /\ e <> f.
Proof.
  intros H. split.
  - apply edge_leb_spec.
    assert (Hn : ~ edge_leb e f = true) by congruence.
    rewrite edge_leb_spec in Hn. lia.
  - intros ->. assert (Hr : edge_leb f f = true) by (apply edge_leb_spec; lia).
    congruence.
Qed.

Lemma edge_leb_antisym (e f : edge) :
  edge_leb e f = true -> edge_leb f e = true -> e = f.
Proof.
  rewrite !edge_leb_spec.
  destruct e as [[x1 y1] [x2 y2]], f as [[u1 v1] [u2 v2]]. cbn [fst snd].
  intros H1 H2.
  assert (x1 = u1 /\ y1 = v1 /\ x2 = u2 /\ y2 = v2) as (-> & -> & -> & ->)
    by lia.
  reflexivity.
Qed.

Lemma edge_leb_trans (e f g : edge) :
  edge_leb e f = true -> edge_leb f g = true -> edge_leb e g = true.
Proof. rewrite !edge_leb_spec. lia. Qed.

Lemma insertEdge_comm (a b : edge) (l : list edge) :
  insertEdge a (insertEdge b l) = insertEdge b (insertEdge a l).
Proof.
  induction l as [ | f l IH].
  - simpl. destruct (edge_leb a b) eqn:Hab, (edge_leb b a) eqn:Hba;
      try reflexivity.
    + now rewrite (edge_leb_antisym a b Hab Hba).
    + apply edge_leb_false in Hab. destruct Hab. congruence.
  - cbn [insertEdge].
    destruct (edge_leb b f) eqn:Hbf, (edge_leb a f) eqn:Haf; cbn [insertEdge].
    + destruct (edge_leb a b) eqn:Hab, (edge_leb b a) eqn:Hba;
        rewrite ?Haf, ?Hbf; try reflexivity.
      * now rewrite (edge_leb_antisym a b Hab Hba).
      * apply edge_leb_false in Hab. destruct Hab. congruence.
    + rewrite Hbf.
      assert (Hab : edge_leb a b = false).
      { destruct (edge_leb a b) eqn:Hab; [ | reflexivity].
        rewrite (edge_leb_trans a b f Hab Hbf) in Haf. discriminate. }
      now rewrite Hab, Haf.
    + rewrite Haf.
      assert (Hba : edge_leb b a = false).
      { destruct (edge_leb b a) eqn:Hba; [ | reflexivity].
        rewrite (edge_leb_trans b a f Hba Haf) in Hbf. discriminate. }
      now rewrite Hba, Hbf.
    + rewrite Haf, Hbf. now rewrite IH.
Qed.

Lemma sorted_Permutation_eq (l1 l2 : list edge) :
  Permutation l1 l2 -> sorted l1 = sorted l2.
Proof.
  induction 1 as [ | x l l' _ IH | x y l | l l' l'' _ IH1 _ IH2]; simpl.
  - reflexivity.
  - now rewrite IH.
  - apply insertEdge_comm.
  - congruence.
Qed.

(** X4: [mergeContours] depends on the edges it is given, not on the
    order in which they are listed: two lists with the same edges, each as
    often in one as in the other, give the same result. *)
Theorem mergeContours_order_irrelevant (edges1 edges2 : list edge) :
  Permutation edges1 edges2 ->
  mergeContours edges1 = mergeContours edges2.
Proof.
  intros Hperm. unfold mergeContours, stitch.
  now rewrite (sorted_Permutation_eq _ _ Hperm), (Permutation_length Hperm).
Qed.

Lemma mergeContours_order_irrelevant_witness :
  mergeContours [((0, 0), (0, 1)); ((0, 1), (1, 1)); ((1, 1), (1, 0));
                 ((1, 0), (0, 0))]
  = mergeContours [((1, 0), (0, 0)); ((0, 0), (0, 1)); ((0, 1), (1, 1));
                   ((1, 1), (1, 0))].
Proof.
  apply mergeContours_order_irrelevant.
  apply Permutation_sym.
  apply (Permutation_cons_append
           [((0, 0), (0, 1)); ((0, 1), (1, 1)); ((1, 1), (1, 0))]
           ((1, 0), (0, 0))).
Defined.

(** ** The pixel size only scales the outline *)

Lemma scaleEdges_unit (edges : list edge) : scaleEdges edges 1 0 = edges.
Proof.
  unfold scaleEdges. rewrite <- (map_id edges) at 2. apply map_ext.
  intros [[x1 y1] [x2 y2]]. unfold scaleEdge, scalePoint. cbn [fst snd].
  now rewrite !Z.mul_1_r, !Z.sub_0_r.
Qed.

(** X3: for a positive pixel size, [vectorizeGlyph] returns the outline
    that it returns for pixel size 1 and descent 0, with every vertex
    [(x, y)] moved to [(x * pixelSize, (y - descent) * pixelSize)]: the
    number of contours, their order and their vertices' order do not depend
    on the pixel size or the descent. *)
Theorem vectorizeGlyph_scales (glyphData : option (list Z))
  (pixelSize descent : Z) :
  0 < pixelSize ->
  vectorizeGlyph glyphData pixelSize descent
  = fmap (map (map (fun p => (fst p * pixelSize,
                              (snd p - descent) * pixelSize))))
         (vectorizeGlyph glyphData 1 0).
Proof.
  intros Hpos. unfold vectorizeGlyph.
  destruct glyphData as [rows | ]; [ | reflexivity].
  destruct (length rows =? 0)%nat; [reflexivity | ].
  destruct (generateEdges (unpackChar rows)) as [edges | e | ];
    try reflexivity.
  cbn [bind]. rewrite scaleEdges_unit.
  now rewrite mergeContours_scaleEdges by exact Hpos.
Qed.

Lemma vectorizeGlyph_scales_witness :
  vectorizeGlyph (Some [128; 64]) 256 1
  = fmap (map (map (fun p => (fst p * 256, (snd p - 1) * 256))))
         (vectorizeGlyph (Some [128; 64]) 1 0).
Proof. apply vectorizeGlyph_scales. lia. Defined.

(** ** The outline and the font metrics *)

Lemma boundaryEdges_in_grid (bitmap : PixelGrid) (e : edge) :
  In e (boundaryEdges bitmap) ->
  let inGrid := fun p : point =>
                  0 <= fst p <= Z.of_nat (gridWidth bitmap)
                  /\ 0 <= snd p <= Z.of_nat (gridHeight bitmap) in
  inGrid (fst e) /\ inGrid (snd e).
Proof.
  intros He. apply in_boundaryEdges in He.
  destruct He as (x & y & Hx & Hy & _ & Hside).
  unfold openSideOf, leftEdge, topEdge, rightEdge, bottomEdge in Hside.
  destruct Hside as [[-> _] | [[-> _] | [[-> _] | [-> _]]]];
    cbn [fst snd]; lia.
Qed.

Lemma vectorizeGlyph_vertex_box (rows : list Z) (pixelSize descent : Z)
  (contours : list contour) :
  (length rows <= 8)%nat ->
  0 < pixelSize ->
  vectorizeGlyph (Some rows) pixelSize descent = Done contours ->
  forall c p, In c contours -> In p c ->
    0 <= fst p <= 8 * pixelSize
    /\ - descent * pixelSize <= snd p <= (8 - descent) * pixelSize.
Proof.
  intros Hrows Hpos Hrun c p Hc Hp.
  destruct rows as [ | r rows].
  { inversion Hrun. subst. contradiction. }
  destruct (vectorizeGlyph_rows (r :: rows) pixelSize descent)
    as (contours0 & Hstitch & Hrun'); [discriminate | exact Hpos | ].
  rewrite Hrun' in Hrun. inversion Hrun. subst contours. clear Hrun.
  destruct (unpackChar_wellFormed (r :: rows)) as (_ & Hw & Hh);
    [discriminate | ].
  set (bitmap := unpackChar (r :: rows)) in *.
  assert (Hbox : Forall (fun c0 : contour =>
                   c0 <> [] /\
                   Forall (fun q : point =>
                             0 <= fst q <= Z.of_nat (gridWidth bitmap)
                             /\ 0 <= snd q <= Z.of_nat (gridHeight bitmap))
                          c0) contours0).
  { apply (mergeContours_points _ (boundaryEdges bitmap)).
    - intros e He. now apply boundaryEdges_in_grid.
    - apply mergeContours_Done. eauto. }
  unfold mapContours in Hc. apply in_map_iff in Hc.
  destruct Hc as (c0 & <- & Hc0). apply in_map_iff in Hp.
  destruct Hp as (p0 & <- & Hp0).
  rewrite Forall_forall in Hbox. destruct (Hbox c0 Hc0) as [_ Hall].
  rewrite Forall_forall in Hall. specialize (Hall p0 Hp0).
  rewrite Hw, Hh in Hall.
  unfold mapPoint. cbn [fst snd]. nia.
Qed.

(** X6: for a glyph of at most 8 rows and a positive pixel size, every
    vertex of the outline that [vectorizeGlyph] returns lies in the cell
    that the font tables describe: its [x] between 0 and the width
    [8 * pixelSize] that [makeTable_OS2] stores as [xAvgCharWidth], its [y]
    between the descent and the ascent that [makeTable_hhea] stores. *)
Theorem vectorizeGlyph_within_metrics (rows : list Z) (pixelSize descent : Z)
  (minUnicode maxUnicode : Z) (contours : list contour) :
  (length rows <= 8)%nat ->
  0 < pixelSize ->
  vectorizeGlyph (Some rows) pixelSize descent = Done contours ->
  forall c p, In c contours -> In p c ->
    0 <= fst p
         <= xAvgCharWidth (makeTable_OS2 pixelSize descent minUnicode maxUnicode)
    /\ hhea_descent (makeTable_hhea pixelSize descent)
       <= snd p <= hhea_ascent (makeTable_hhea pixelSize descent).
Proof.
  intros Hrows Hpos Hrun c p Hc Hp.
  unfold makeTable_OS2, makeTable_hhea.
  cbn [xAvgCharWidth hhea_descent hhea_ascent].
  exact (vectorizeGlyph_vertex_box rows pixelSize descent contours
           Hrows Hpos Hrun c p Hc Hp).
Qed.

Lemma vectorizeGlyph_within_metrics_witness :
  0 <= 8 * 256 <= xAvgCharWidth (makeTable_OS2 256 1 32 255)
  /\ hhea_descent (makeTable_hhea 256 1) <= (8 - 1) * 256
     <= hhea_ascent (makeTable_hhea 256 1).
Proof.
  apply (vectorizeGlyph_within_metrics (repeat 255 8) 256 1 32 255
           [[(0 * 256, (0 - 1) * 256); (0 * 256, (8 - 1) * 256);
             (8 * 256, (8 - 1) * 256); (8 * 256, (0 - 1) * 256)]])
    with (c := [(0 * 256, (0 - 1) * 256); (0 * 256, (8 - 1) * 256);
                (8 * 256, (8 - 1) * 256); (8 * 256, (0 - 1) * 256)])
         (p := (8 * 256, (8 - 1) * 256)).
  - simpl. lia.
  - lia.
  - vm_compute. reflexivity.
  - now left.
  - simpl. auto.
Defined.

(** X9: the metrics that [makeTable_OS2] and [makeTable_hhea] compute from
    the same pixel size and descent agree: the typographic and the Windows
    ascent and the cap height equal the [hhea] ascent, the typographic
    descender equals the [hhea] descent and is the Windows descent negated,
    and ascent minus descent is the width of a character, 8 pixels. *)
Theorem OS2_hhea_metrics_agree (pixelSize descent minUnicode maxUnicode : Z) :
  let os2 := makeTable_OS2 pixelSize descent minUnicode maxUnicode in
  let hhea := makeTable_hhea pixelSize descent in
  sTypoAscender os2 = hhea_ascent hhea
  /\ usWinAscent os2 = hhea_ascent hhea
  /\ sCapHeight os2 = hhea_ascent hhea
  /\ sTypoDescender os2 = hhea_descent hhea
  /\ usWinDescent os2 = - hhea_descent hhea
  /\ hhea_ascent hhea - hhea_descent hhea = xAvgCharWidth os2
  /\ ySubscriptYSize os2 + ySuperscriptYSize os2 = xAvgCharWidth os2
  /\ yStrikeoutPosition os2 - sTypoDescender os2 = 4 * pixelSize.
Proof.
  unfold makeTable_OS2, makeTable_hhea.
  cbn [sTypoAscender usWinAscent sCapHeight sTypoDescender usWinDescent
       xAvgCharWidth hhea_ascent hhea_descent ySubscriptYSize
       ySuperscriptYSize yStrikeoutPosition].
  assert (Hhalf : 8 * pixelSize / 2 = 4 * pixelSize).
  { replace (8 * pixelSize) with (4 * pixelSize * 2) by lia.
    apply Z.div_mul. lia. }
  rewrite Hhalf. repeat split; lia.
Qed.

(** ** generateEdges on grids that are not rectangular *)

Lemma getitem_doneOrIndexError {A : Type} (l : list A) (i : nat) :
  doneOrIndexError (getitem l i).
Proof.
  unfold doneOrIndexError, getitem.
  destruct (nth_error l i); [left; eauto | now right].
Qed.

Lemma bind_doneOrIndexError {A B : Type} (m : outcome A) (k : A -> outcome B) :
  doneOrIndexError m ->
  (forall a, doneOrIndexError (k a)) ->
  doneOrIndexError (bind m k).
Proof.
  intros [[a ->] | ->] Hk; [apply Hk | now right].
Qed.

Lemma pixel_doneOrIndexError (bitmap : PixelGrid) (y x : nat) :
  doneOrIndexError (pixel bitmap y x).
Proof.
  unfold pixel. apply bind_doneOrIndexError.
  - apply getitem_doneOrIndexError.
  - intros row. apply getitem_doneOrIndexError.
Qed.

Lemma openSide_doneOrIndexError (atBorder : bool) (bitmap : PixelGrid)
  (y x : nat) :
  doneOrIndexError (openSide atBorder bitmap y x).
Proof.
  unfold openSide. destruct atBorder; [left; eauto | ].
  apply bind_doneOrIndexError; [apply pixel_doneOrIndexError | ].
  intros q. left. eauto.
Qed.

Lemma visitPixel_doneOrIndexError (bitmap : PixelGrid) (height width y x : nat)
  (edges : list edge) :
  doneOrIndexError (visitPixel bitmap height width y x edges).
Proof.
  unfold visitPixel.
  apply bind_doneOrIndexError; [apply pixel_doneOrIndexError | ].
  intros [ | ]; [ | left; eauto].
  repeat (apply bind_doneOrIndexError;
          [apply openSide_doneOrIndexError | intros ?]).
  left. eauto.
Qed.

Lemma foldM_doneOrIndexError {A S : Type} (body : S -> A -> outcome S)
  (l : list A) :
  (forall s a, doneOrIndexError (body s a)) ->
  forall s, doneOrIndexError (foldM body l s).
Proof.
  intros Hbody. induction l as [ | a l IH]; intros s; simpl.
  - left. eauto.
  - apply bind_doneOrIndexError; [apply Hbody | exact IH].
Qed.

Lemma foldM_raises {A S : Type} (body : S -> A -> outcome S) (l : list A)
  (a0 : A) :
  (forall s a, doneOrIndexError (body s a)) ->
  In a0 l ->
  (forall s, body s a0 = Raised IndexError) ->
  forall s, foldM body l s = Raised IndexError.
Proof.
  intros Hbody Hin Hraise. induction l as [ | a l IH]; intros s;
    [contradiction | ].
  simpl. destruct Hin as [-> | Hin].
  - now rewrite Hraise.
  - destruct (Hbody s a) as [[s' ->] | ->]; [ | reflexivity].
    simpl. now apply IH.
Qed.

(** X1: [generateEdges] raises [IndexError] on a grid without rows, and on
    a grid in which some row is shorter than the first row. *)
Theorem generateEdges_IndexError (bitmap : PixelGrid) :
  bitmap = []
  \/ (exists y row, nth_error bitmap y = Some row
                    /\ (length row < gridWidth bitmap)%nat) ->
  generateEdges bitmap = Raised IndexError.
Proof.
  intros [-> | (y & row & Hrow & Hshort)]; [reflexivity | ].
  unfold generateEdges, gridWidth in *.
  destruct bitmap as [ | row0 rest] eqn:Hbitmap;
    [destruct y; discriminate | ].
  rewrite <- Hbitmap in *.
  assert (H0 : getitem bitmap 0 = Done row0) by (now rewrite Hbitmap).
  assert (Hw : nth 0%nat bitmap [] = row0) by (now rewrite Hbitmap).
  rewrite H0, Hw in *. cbn [bind].
  apply (foldM_raises _ _ y).
  - intros s y'. apply foldM_doneOrIndexError.
    intros s' x. apply visitPixel_doneOrIndexError.
  - apply in_seq. split; [lia | ]. simpl.
    apply nth_error_Some. congruence.
  - intros s. apply (foldM_raises _ _ (length row)).
    + intros s' x. apply visitPixel_doneOrIndexError.
    + apply in_seq. lia.
    + intros s'. unfold visitPixel, pixel, getitem. rewrite Hrow. cbn [bind].
      assert (Hnone : nth_error row (length row) = None)
        by (apply nth_error_None; lia).
      now rewrite Hnone.
Qed.

Lemma generateEdges_IndexError_witness :
  generateEdges [[true; true]; [true]] = Raised IndexError.
Proof.
  apply generateEdges_IndexError. right.
  exists 1%nat, [true]. split; [reflexivity | ].
  unfold gridWidth. simpl. lia.
Defined.

(** ** The bits that unpackChar keeps *)

Lemma packRow_unpackRow (row : Z) : packRow (unpackRow row) = row mod 256.
Proof.
  rewrite unpackRow_bits. unfold packRow, bitRange. cbn [map fold_left].
  rewrite !Z.testbit_spec' by lia.
  change (2 ^ 7) with 128. change (2 ^ 6) with 64. change (2 ^ 5) with 32.
  change (2 ^ 4) with 16. change (2 ^ 3) with 8. change (2 ^ 2) with 4.
  change (2 ^ 1) with 2. change (2 ^ 0) with 1.
  Z.div_mod_to_equations. lia.
Qed.

Lemma unpackRow_mod256 (row : Z) : unpackRow (row mod 256) = unpackRow row.
Proof.
  rewrite !unpackRow_bits. apply map_ext_in. intros bit Hbit.
  change 256 with (2 ^ 8). apply Z.mod_pow2_bits_low.
  unfold bitRange in Hbit. simpl in Hbit.
  decompose [or] Hbit; subst; try lia; contradiction.
Qed.

(** X2: a row of [unpackChar] holds the low 8 bits of the row's integer
    and nothing else: read as binary digits, first column first, it gives
    the integer modulo 256 (also for negative integers), and integers that
    agree modulo 256 unpack to the same row. *)
Theorem unpackRow_low_byte (row : Z) :
  packRow (unpackRow row) = row mod 256
  /\ unpackRow (row mod 256) = unpackRow row.
Proof.
  split.
  - apply packRow_unpackRow.
  - apply unpackRow_mod256.
Qed.

(** ** readCharBitmaps *)

Lemma padToEight_pads (fuel : nat) :
  forall data : list Z,
    ((8 - length data mod 8) mod 8 <= fuel)%nat ->
    padToEight fuel data
    = Done (data ++ repeat 0 ((8 - length data mod 8) mod 8)%nat).
Proof.
  induction fuel as [ | fuel IH]; intros data Hfuel; cbn [padToEight];
    destruct (Nat.eqb_spec (length data mod 8) 0) as [Hm | Hm].
  - rewrite Hm. simpl. now rewrite app_nil_r.
  - exfalso. pose proof (Nat.mod_upper_bound (length data) 8 ltac:(lia)).
    destruct (length data mod 8)%nat as [ | [ | [ | [ | [ | [ | [ | [ | m]]]]]]]];
      simpl in Hfuel; lia.
  - rewrite Hm. simpl. now rewrite app_nil_r.
  - assert (Hnext : (length (data ++ [0%Z]) mod 8
                     = (length data mod 8 + 1) mod 8)%nat).
    { rewrite length_app. cbn [length].
      now rewrite Nat.Div0.add_mod_idemp_l. }
    pose proof (Nat.mod_upper_bound (length data) 8 ltac:(lia)) as Hlt.
    rewrite IH; rewrite Hnext.
    + rewrite <- app_assoc. f_equal.
      destruct (length data mod 8)%nat as [ | [ | [ | [ | [ | [ | [ | [ | m]]]]]]]];
        try reflexivity; lia.
    + destruct (length data mod 8)%nat as [ | [ | [ | [ | [ | [ | [ | [ | m]]]]]]]];
        simpl in Hfuel |- *; lia.
Qed.

Lemma chunks_of_eight (n : nat) :
  forall data : list Z,
    length data = (8 * n)%nat ->
    let chunks := map (fun idx => firstn 8 (skipn idx data))
                      (map (fun k => (8 * k)%nat) (seq 0 n)) in
    concat chunks = data /\ Forall (fun g => length g = 8%nat) chunks.
Proof.
  induction n as [ | n IH]; intros data Hlen chunks; subst chunks.
  - destruct data; [split; [reflexivity | constructor] | discriminate].
  - cbn [seq map concat]. rewrite <- seq_shift, !map_map.
    assert (Hrest : length (skipn 8 data) = (8 * n)%nat)
      by (rewrite length_skipn; lia).
    destruct (IH (skipn 8 data) Hrest) as [Hcat Hall].
    rewrite map_map in Hcat, Hall.
    assert (Heq : map (fun x => firstn 8 (skipn (8 * S x) data)) (seq 0 n)
                  = map (fun x => firstn 8 (skipn (8 * x) (skipn 8 data)))
                        (seq 0 n)).
    { apply map_ext. intros k. rewrite skipn_skipn. do 2 f_equal. lia. }
    rewrite Heq. split.
    + change (skipn (8 * 0) data) with data. rewrite Hcat.
      apply firstn_skipn.
    + constructor; [ | exact Hall].
      change (skipn (8 * 0) data) with data. rewrite length_firstn. lia.
Qed.

Lemma readCharBitmaps_chunks (bytes : list Z) :
  let n := (length bytes - 2)%nat in
  (0 < n <= 2048)%nat ->
  exists glyphs,
    readCharBitmaps (Some bytes) = Done glyphs
    /\ length glyphs = ((n + 7) / 8)%nat
    /\ (1 <= length glyphs <= 256)%nat
    /\ Forall (fun g => length g = 8%nat) glyphs
    /\ concat glyphs = skipn 2 bytes ++ repeat 0 ((8 - n mod 8) mod 8)%nat.
Proof.
  intros n Hn. unfold readCharBitmaps.
  assert (Hlen : length (skipn 2 bytes) = n) by apply length_skipn.
  rewrite padToEight_pads; rewrite Hlen.
  2: { pose proof (Nat.mod_upper_bound (8 - n mod 8) 8 ltac:(lia)). lia. }
  cbn [bind].
  set (k := ((8 - n mod 8) mod 8)%nat).
  set (data := skipn 2 bytes ++ repeat 0 k).
  assert (Hdata : length data = (n + k)%nat)
    by (unfold data; now rewrite length_app, repeat_length, Hlen).
  assert (Hq : (n + k = 8 * ((n + 7) / 8))%nat /\ ((n + 7) / 8 <= 256)%nat
               /\ (1 <= (n + 7) / 8)%nat).
  { pose proof (Nat.div_mod_eq n 8) as Hdm.
    pose proof (Nat.mod_upper_bound n 8 ltac:(lia)) as Hm.
    assert (Hk : (k = if (n mod 8 =? 0)%nat then 0 else 8 - n mod 8)%nat).
    { unfold k.
      destruct (n mod 8)%nat as [ | [ | [ | [ | [ | [ | [ | [ | m]]]]]]]];
        try reflexivity; lia. }
    assert (Hc : ((n + 7) / 8
                  = n / 8 + if (n mod 8 =? 0)%nat then 0 else 1)%nat).
    { destruct (Nat.eqb_spec (n mod 8) 0) as [H0 | H0].
      - symmetry. apply (Nat.div_unique _ 8 _ 7); lia.
      - symmetry. apply (Nat.div_unique _ 8 _ (n mod 8 - 1)); lia. }
    rewrite Hc, Hk. destruct (Nat.eqb_spec (n mod 8) 0); lia. }
  destruct Hq as (Hq & Hmax & Hmin).
  rewrite Hdata.
  replace (n + k =? 0)%nat with false by (symmetry; apply Nat.eqb_neq; lia).
  replace (2048 <? n + k)%nat with false
    by (symmetry; apply Nat.ltb_ge; lia).
  eexists. split; [reflexivity | ].
  unfold rangeBy8.
  assert (Hceil : ((n + k + 7) / 8 = (n + 7) / 8)%nat).
  { rewrite Hq. symmetry.
    apply (Nat.div_unique _ 8 _ 7); lia. }
  rewrite Hceil.
  destruct (chunks_of_eight ((n + 7) / 8) data) as [Hcat Hall];
    [lia | ].
  split; [now rewrite !length_map, length_seq | ].
  split; [rewrite !length_map, length_seq; lia | ].
  split; [exact Hall | exact Hcat].
Qed.

(** X10: given a file with more than 2 and at most 2050 bytes,
    [readCharBitmaps] drops the 2 leading bytes and cuts the rest into
    glyphs of exactly 8 rows, in order and without loss: the rows of all
    glyphs, one after another, are the remaining bytes followed by fewer
    than 8 zeros, and there are at most 256 glyphs. *)
Theorem readCharBitmaps_glyphs (bytes : list Z) :
  let n := (length bytes - 2)%nat in
  (0 < n <= 2048)%nat ->
  exists glyphs,
    readCharBitmaps (Some bytes) = Done glyphs
    /\ length glyphs = ((n + 7) / 8)%nat
    /\ (1 <= length glyphs <= 256)%nat
    /\ Forall (fun g => length g = 8%nat) glyphs
    /\ concat glyphs = skipn 2 bytes ++ repeat 0 ((8 - n mod 8) mod 8)%nat.
Proof. exact (readCharBitmaps_chunks bytes). Qed.

Lemma readCharBitmaps_glyphs_witness :
  exists glyphs,
    readCharBitmaps (Some [0; 56; 1; 2; 3; 4; 5; 6; 7; 8; 9]) = Done glyphs
    /\ concat glyphs = [1; 2; 3; 4; 5; 6; 7; 8; 9; 0; 0; 0; 0; 0; 0; 0].
Proof.
  destruct (readCharBitmaps_glyphs [0; 56; 1; 2; 3; 4; 5; 6; 7; 8; 9])
    as (glyphs & Hrun & _ & _ & _ & Hcat); [simpl; lia | ].
  exists glyphs. split; [exact Hrun | exact Hcat].
Defined.

Lemma readCharBitmaps_nothing (bytes : list Z) :
  (length bytes <= 2)%nat \/ (2050 < length bytes)%nat ->
  readCharBitmaps (Some bytes) = Done [].
Proof.
  intros Hlen. unfold readCharBitmaps.
  assert (Hn : length (skipn 2 bytes) = (length bytes - 2)%nat)
    by apply length_skipn.
  rewrite padToEight_pads; rewrite Hn.
  2: { pose proof (Nat.mod_upper_bound (8 - (length bytes - 2) mod 8) 8
                     ltac:(lia)).
       lia. }
  cbn [bind]. rewrite length_app, repeat_length, Hn.
  destruct Hlen as [Hshort | Hlong].
  - replace (length bytes - 2)%nat with 0%nat by lia. reflexivity.
  - destruct (Nat.eqb_spec
                (length bytes - 2 + (8 - (length bytes - 2) mod 8) mod 8) 0);
      [reflexivity | ].
    replace (2048 <? length bytes - 2
                     + (8 - (length bytes - 2) mod 8) mod 8)%nat
      with true by (symmetry; apply Nat.ltb_lt; lia).
    reflexivity.
Qed.

(** X11: [readCharBitmaps] returns no glyphs when no file is named, when
    the file has at most 2 bytes, and when it has more than 2050 bytes
    (more than 256 glyphs); a file of exactly 2050 bytes is still read. *)
Theorem readCharBitmaps_refuses (bytes : list Z) :
  readCharBitmaps None = Done []
  /\ ((length bytes <= 2)%nat \/ (2050 < length bytes)%nat ->
      readCharBitmaps (Some bytes) = Done [])
  /\ (length bytes = 2050%nat ->
      exists glyphs, readCharBitmaps (Some bytes) = Done glyphs
                     /\ length glyphs = 256%nat).
Proof.
  split; [reflexivity | split].
  - apply readCharBitmaps_nothing.
  - intros Hlen.
    destruct (readCharBitmaps_chunks bytes) as (glyphs & Hrun & Hcount & _);
      [lia | ].
    exists glyphs. split; [exact Hrun | ].
    rewrite Hcount, Hlen. reflexivity.
Qed.

Lemma readCharBitmaps_refuses_witness :
  readCharBitmaps (Some [0; 56]) = Done [].
Proof.
  destruct (readCharBitmaps_refuses [0; 56]) as (_ & Hrefuse & _).
  apply Hrefuse. left. simpl. lia.
Defined.

(** ** mapGlyphs *)

Lemma dict_get_set_same {V : Type} (k : string) (v : V) (d : dict V) :
  dict_get k (dict_set k v d) = Some v.
Proof.
  induction d as [ | [k' v'] d IH]; simpl.
  - now rewrite String.eqb_refl.
  - destruct (String.eqb k' k) eqn:Hk; simpl.
    + now rewrite String.eqb_refl.
    + now rewrite Hk.
Qed.

Lemma dict_get_set_other {V : Type} (k k0 : string) (v : V) (d : dict V) :
  String.eqb k0 k = false ->
  dict_get k (dict_set k0 v d) = dict_get k d.
Proof.
  intros Hne. induction d as [ | [k' v'] d IH]; simpl.
  - now rewrite Hne.
  - destruct (String.eqb k' k0) eqn:Hk; simpl.
    + apply String.eqb_eq in Hk. subst k'. now rewrite Hne.
    + destruct (String.eqb k' k); [reflexivity | exact IH].
Qed.

Lemma find_snoc {A : Type} (f : A -> bool) (l : list A) (a : A) :
  find f (l ++ [a])
  = match find f l with
    | Some x => Some x
    | None => if f a then Some a else None
    end.
Proof.
  induction l as [ | b l IH]; simpl; [reflexivity | ].
  destruct (f b); [reflexivity | exact IH].
Qed.

Lemma getitemZ_nth {A : Type} (l : list A) (i : Z) (d : A) :
  0 <= i < Z.of_nat (length l) ->
  getitemZ l i = Done (nth (Z.to_nat i) l d).
Proof.
  intros Hi. unfold getitemZ, getitem.
  replace (0 <=? i) with true by (symmetry; apply Z.leb_le; lia).
  rewrite (nth_error_nth' l d) by lia. reflexivity.
Qed.

Lemma mapGlyphs_fold (glyphData : list (list Z)) (charset : list charEntry) :
  (forall idx name codes, In (idx, name, codes) charset -> 0 <= idx) ->
  forall d0 : dict glyphEntry,
  exists d,
    foldM (fun d (char : charEntry) =>
             let '(idx, name, codes) := char in
             if idx <? Z.of_nat (length glyphData)
             then bitmap <- getitemZ glyphData idx ;;
                  Done (dict_set name (bitmap, codes) d)
             else Done d)
          charset d0 = Done d
    /\ forall name,
         dict_get name d
         = match lastEntry (length glyphData) name charset with
           | Some char => Some (glyphOfEntry glyphData char)
           | None => dict_get name d0
           end.
Proof.
  induction charset as [ | [[idx name0] codes] charset IH]; intros Hidx d0.
  - exists d0. split; reflexivity.
  - assert (Hpos : 0 <= idx) by (apply (Hidx idx name0 codes); now left).
    assert (Hrest : forall i n c, In (i, n, c) charset -> 0 <= i)
      by (intros i n c H; apply (Hidx i n c); now right).
    cbn [foldM].
    destruct (Z.ltb_spec idx (Z.of_nat (length glyphData))) as [Hlt | Hge].
    + rewrite (getitemZ_nth glyphData idx []) by lia. cbn [bind].
      destruct (IH Hrest (dict_set name0
                            (nth (Z.to_nat idx) glyphData [], codes) d0))
        as (d & Hrun & Hget).
      exists d. split; [exact Hrun | ].
      intros name. rewrite Hget. unfold lastEntry. cbn [rev].
      rewrite find_snoc.
      destruct (find _ (rev charset)); [reflexivity | ].
      replace (idx <? Z.of_nat (length glyphData)) with true
        by (symmetry; apply Z.ltb_lt; lia).
      rewrite andb_true_r.
      destruct (String.eqb name0 name) eqn:Hname.
      * apply String.eqb_eq in Hname. subst name0.
        now rewrite dict_get_set_same.
      * now rewrite dict_get_set_other.
    + cbn [bind]. destruct (IH Hrest d0) as (d & Hrun & Hget).
      exists d. split; [exact Hrun | ].
      intros name. rewrite Hget. unfold lastEntry. cbn [rev].
      rewrite find_snoc.
      destruct (find _ (rev charset)); [reflexivity | ].
      replace (idx <? Z.of_nat (length glyphData)) with false
        by (symmetry; apply Z.ltb_ge; lia).
      now rewrite andb_false_r.
Qed.

(** X12: for a character set whose indices are not negative, [mapGlyphs]
    raises nothing, whatever the number of glyphs read; under a name it
    stores the bitmap at the index, and the code points, of the last
    entry of the character set that has this name and an index below the
    number of glyphs, and it stores nothing under a name without such an
    entry. *)
Theorem mapGlyphs_lookup (glyphData : list (list Z))
  (charset : list charEntry) :
  (forall idx name codes, In (idx, name, codes) charset -> 0 <= idx) ->
  exists d,
    mapGlyphs glyphData charset = Done d
    /\ forall name,
         dict_get name d
         = match lastEntry (length glyphData) name charset with
           | Some (idx, _, codes) =>
               Some (nth (Z.to_nat idx) glyphData [], codes)
           | None => None
           end.
Proof.
  intros Hidx.
  destruct (mapGlyphs_fold glyphData charset Hidx []) as (d & Hrun & Hget).
  exists d. split; [exact Hrun | ].
  intros name. rewrite Hget.
  destruct (lastEntry (length glyphData) name charset) as [[[idx n] codes] | ];
    reflexivity.
Qed.

Lemma mapGlyphs_lookup_witness :
  exists d,
    mapGlyphs [[0; 1; 2; 3; 4; 5; 6; 7]]
              [(0, "at"%string, [64]); (1, "A"%string, [65])] = Done d
    /\ dict_get "at"%string d = Some ([0; 1; 2; 3; 4; 5; 6; 7], [64])
    /\ dict_get "A"%string d = None.
Proof.
  destruct (mapGlyphs_lookup [[0; 1; 2; 3; 4; 5; 6; 7]]
              [(0, "at"%string, [64]); (1, "A"%string, [65])])
    as (d & Hrun & Hget).
  - intros idx name codes [H | [H | []]]; inversion H; lia.
  - exists d. split; [exact Hrun | ].
    split; rewrite Hget; reflexivity.
Defined.

(** ** makeTTFGlyph *)

Lemma endPointsFrom_cons (base : Z) (p : contour) (ps : list contour) :
  endPointsFrom base (p :: ps)
  = (base + Z.of_nat (length p) - 1)
    :: endPointsFrom (base + Z.of_nat (length p)) ps.
Proof.
  unfold endPointsFrom. cbn [length seq map].
  rewrite <- seq_shift, map_map. f_equal.
  - cbn [Nat.add firstn map fold_right]. lia.
  - apply map_ext. intros idx. cbn [Nat.add firstn map fold_right]. lia.
Qed.

Lemma makeTTFGlyph_endPts (polygons : list contour) :
  endPtsOfContours (makeTTFGlyph polygons) = endPointsFrom 0 polygons.
Proof.
  unfold makeTTFGlyph, endPointsFrom. cbn [endPtsOfContours].
  apply map_ext. intros idx. reflexivity.
Qed.



Lemma endPointsFrom_increasing (polygons : list contour) :
  Forall (fun c : contour => c <> []) polygons ->
  forall base,
    Sorted Z.lt ((base - 1) :: endPointsFrom base polygons)
    /\ (forall e, In e (endPointsFrom base polygons) ->
                  e <= base + Z.of_nat (length (concat polygons)) - 1)
    /\ (polygons <> [] ->
        In (base + Z.of_nat (length (concat polygons)) - 1)
           (endPointsFrom base polygons)).
Proof.
  induction polygons as [ | p ps IH]; intros Hne base.
  - split; [repeat constructor | split; [intros e [] | congruence]].
  - inversion Hne as [ | ? ? Hp Hps]. subst.
    rewrite endPointsFrom_cons.
    destruct (IH Hps (base + Z.of_nat (length p)))
      as (Hsorted & Hbound & Hlast).
    assert (Hlen : (0 < length p)%nat)
      by (destruct p; simpl; [congruence | lia]).
    cbn [concat]. rewrite length_app, Nat2Z.inj_add.
    split; [ | split].
    + constructor; [exact Hsorted | constructor; lia].
    + intros e [<- | He]; [lia | ]. apply Hbound in He. lia.
    + intros _. destruct ps as [ | q ps].
      * left. simpl. lia.
      * right.
        replace (base + (Z.of_nat (length p)
                         + Z.of_nat (length (concat (q :: ps)))) - 1)
          with (base + Z.of_nat (length p)
                + Z.of_nat (length (concat (q :: ps))) - 1) by lia.
        apply Hlast. discriminate.
Qed.

(** X14: for the contours that [mergeContours] returns, the end points
    that [makeTTFGlyph] computes are valid: they increase strictly, the
    first is at least 0 (every contour has a point), none exceeds the index
    of the last coordinate, and when there is a contour that index is
    among them. *)
Theorem makeTTFGlyph_endPts_valid (edges : list edge)
  (contours : list contour) :
  mergeContours edges = Done contours ->
  let g := makeTTFGlyph contours in
  Sorted Z.lt (-1 :: endPtsOfContours g)
  /\ (forall e, In e (endPtsOfContours g) ->
                e <= Z.of_nat (length (coordinates g)) - 1)
  /\ (contours <> [] ->
      In (Z.of_nat (length (coordinates g)) - 1) (endPtsOfContours g)).
Proof.
  intros Hrun g. subst g. rewrite makeTTFGlyph_endPts.
  assert (Hne : Forall (fun c : contour => c <> []) contours).
  { pose proof (mergeContours_points (fun _ => True) edges contours
                  (fun _ _ => conj I I) Hrun) as H.
    apply Forall_forall. intros c Hc. rewrite Forall_forall in H.
    now destruct (H c Hc). }
  apply (endPointsFrom_increasing contours Hne 0).
Qed.

Lemma makeTTFGlyph_endPts_valid_witness :
  Sorted Z.lt
    (-1 :: endPtsOfContours
             (makeTTFGlyph [[(0, 1); (0, 2); (1, 2); (1, 1)];
                            [(1, 0); (1, 1); (2, 1); (2, 0)]])).
Proof.
  apply (makeTTFGlyph_endPts_valid
           [((1, 0), (1, 1)); ((1, 1), (2, 1)); ((2, 1), (2, 0));
            ((2, 0), (1, 0)); ((0, 1), (0, 2)); ((0, 2), (1, 2));
            ((1, 2), (1, 1)); ((1, 1), (0, 1))]).
  vm_compute. reflexivity.
Defined.

(** ** The number of points of an outline *)

Lemma followChain_counts (fuel : nat) (start : edge) :
  forall (current : edge) (c c' : contour) (pool pool' : list edge),
    followChain fuel start current c pool = Done (c', pool') ->
    (length c' + length pool' <= length c + length pool)%nat
    /\ (length c <= length c')%nat.
Proof.
  induction fuel as [ | fuel IH];
    intros current c c' pool pool' Hrun; cbn [followChain] in Hrun;
    destruct (point_eqb (snd current) (fst start)); try discriminate;
    try (inversion Hrun; subst; lia).
  apply bind_Done in Hrun.
  destruct Hrun as ([[next c1] pool1] & Hstep & Hrun).
  destruct (chainStep_Done _ _ _ _ _ _ Hstep) as (_ & _ & Hperm & Hcase).
  apply Permutation_length in Hperm. cbn [length] in Hperm.
  apply IH in Hrun.
  assert (Hc1 : (length c <= length c1 <= length c + 1)%nat).
  { destruct Hcase as [(_ & Hne & ->) | (_ & ->)].
    - destruct (exists_last Hne) as (l & a & ->).
      rewrite removelast_last, !length_app. simpl. lia.
    - rewrite length_app. simpl. lia. }
  lia.
Qed.

Lemma mergeLoop_counts (fuel : nat) :
  forall (pool pool' : list edge) (contours contours' : list contour),
    mergeLoop fuel pool contours = Done (contours', pool') ->
    (length (concat contours') + length pool'
     <= length (concat contours) + length pool)%nat.
Proof.
  induction fuel as [ | fuel IH];
    intros pool pool' contours contours' Hrun; cbn [mergeLoop] in Hrun;
    destruct (length pool <=? 1)%nat; try discriminate;
    try (inversion Hrun; subst; lia).
  apply bind_Done in Hrun. destruct Hrun as (start & Hstart & Hrun).
  apply bind_Done in Hrun. destruct Hrun as (pool1 & Hrem & Hrun).
  apply bind_Done in Hrun. destruct Hrun as ([c pool2] & Hfollow & Hrun).
  destruct pool as [ | e pool]; [discriminate | ].
  unfold getitem in Hstart. simpl in Hstart. inversion Hstart. subst e.
  rewrite list_remove_head in Hrem. inversion Hrem. subst pool1.
  apply followChain_counts in Hfollow. destruct Hfollow as [Hfollow Hgrow].
  apply IH in Hrun.
  rewrite concat_app, length_app in Hrun. cbn [concat] in Hrun.
  rewrite app_nil_r in Hrun.
  assert (Hlast : (length (removelast c) = length c - 1)%nat).
  { destruct c as [ | p c]; [reflexivity | ].
    assert (Hne : p :: c <> []) by discriminate.
    destruct (exists_last Hne) as (l & a & ->).
    rewrite removelast_last, length_app. simpl. lia. }
  cbn [length] in *. lia.
Qed.

Lemma mergeContours_point_count (edges : list edge) (contours : list contour) :
  mergeContours edges = Done contours ->
  (length (concat contours) <= length edges)%nat.
Proof.
  intros H. apply mergeContours_Done in H.
  destruct H as [pool H]. unfold stitch in H.
  apply mergeLoop_counts in H. rewrite sorted_length in H.
  simpl in H. lia.
Qed.

Lemma vectorizeGlyph_point_bound (rows : list Z) (pixelSize descent : Z)
  (contours : list contour) :
  vectorizeGlyph (Some rows) pixelSize descent = Done contours ->
  Z.of_nat (length (concat contours)) <= 4 * filledCells (unpackChar rows)
  /\ Z.of_nat (length (concat contours)) <= 32 * Z.of_nat (length rows).
Proof.
  intros Hrun. destruct rows as [ | r rows].
  { inversion Hrun. subst. unfold filledCells. simpl. lia. }
  unfold vectorizeGlyph in Hrun. cbn [length Nat.eqb] in Hrun.
  destruct (unpackChar_wellFormed (r :: rows)) as (Hwf & Hw & Hh);
    [discriminate | ].
  rewrite (generateEdges_boundaryEdges _ Hwf) in Hrun. cbn [bind] in Hrun.
  apply mergeContours_point_count in Hrun. unfold scaleEdges in Hrun.
  rewrite length_map in Hrun.
  destruct (length_boundaryEdges (unpackChar (r :: rows))) as [Hlen Hfilled].
  rewrite Hw, Hh in Hfilled. lia.
Qed.

(** X15: an outline has no more points than there were edges: the
    contours that [mergeContours] returns have together at most as many
    vertices as the edge list has edges. So the glyph that [makeTTFGlyph]
    builds from [vectorizeGlyph] has at most 4 points for each filled pixel
    and 32 for each row. *)
Theorem vectorizeGlyph_point_count (rows : list Z) (pixelSize descent : Z)
  (contours : list contour) :
  0 < pixelSize ->
  vectorizeGlyph (Some rows) pixelSize descent = Done contours ->
  (forall edges contours',
      mergeContours edges = Done contours' ->
      (length (concat contours') <= length edges)%nat)
  /\ Z.of_nat (length (coordinates (makeTTFGlyph contours)))
     <= 4 * filledCells (unpackChar rows)
  /\ Z.of_nat (length (coordinates (makeTTFGlyph contours)))
     <= 32 * Z.of_nat (length rows).
Proof.
  intros Hpos Hrun. split.
  - exact mergeContours_point_count.
  - unfold makeTTFGlyph. cbn [coordinates].
    exact (vectorizeGlyph_point_bound rows pixelSize descent contours Hrun).
Qed.

Lemma vectorizeGlyph_point_count_witness :
  Z.of_nat (length (coordinates
                      (makeTTFGlyph
                         [[(0 * 64, (0 - 1) * 64); (0 * 64, (8 - 1) * 64);
                           (8 * 64, (8 - 1) * 64); (8 * 64, (0 - 1) * 64)]])))
  <= 32 * Z.of_nat (length (repeat 255 8)).
Proof.
  apply (vectorizeGlyph_point_count (repeat 255 8) 64 1).
  - lia.
  - vm_compute. reflexivity.
Defined.

(** ** Empty outlines *)

Lemma unpackRow_blank (row : Z) :
  unpackRow row = repeat false 8 <-> row mod 256 = 0.
Proof.
  pose proof (packRow_unpackRow row) as Hpack.
  pose proof (unpackRow_mod256 row) as Hmod. split.
  - intros H. rewrite H in Hpack. rewrite <- Hpack. reflexivity.
  - intros H. rewrite <- Hmod, H. reflexivity.
Qed.

Lemma boundaryEdges_blank (bitmap : PixelGrid) :
  (forall x y, px bitmap x y = false) -> boundaryEdges bitmap = [].
Proof.
  intros Hblank. unfold boundaryEdges, rowEdges.
  assert (Hflat : forall {A B : Type} (f : A -> list B) (l : list A),
             (forall a, f a = []) -> flat_map f l = []).
  { intros A B f l Hf. induction l as [ | a l IH]; simpl;
      [reflexivity | now rewrite Hf, IH]. }
  apply Hflat. intros y. apply Hflat. intros x.
  unfold cellEdges. now rewrite Hblank.
Qed.

(** X16: for a positive pixel size, [vectorizeGlyph] returns the empty
    outline exactly for the glyphs without a set pixel, that is, when the
    low 8 bits of every row are 0. *)
Theorem vectorizeGlyph_empty_outline (rows : list Z) (pixelSize descent : Z) :
  0 < pixelSize ->
  (vectorizeGlyph (Some rows) pixelSize descent = Done []
   <-> Forall (fun row => row mod 256 = 0) rows).
Proof.
  intros Hpos. destruct rows as [ | r rows].
  { split; [constructor | reflexivity]. }
  set (glyph := r :: rows).
  assert (Hglyph : glyph <> []) by discriminate.
  destruct (unpackChar_wellFormed glyph Hglyph) as (Hwf & Hw & Hh).
  destruct (vectorizeGlyph_rows glyph pixelSize descent Hglyph Hpos)
    as (contours0 & Hstitch & ->).
  assert (Hrow : forall y row,
             nth_error (unpackChar glyph) y = Some row ->
             forall x, px (unpackChar glyph) (Z.of_nat x) (Z.of_nat y)
                       = nth x row false).
  { intros y row Hy x. unfold px.
    replace ((0 <=? Z.of_nat x) && (0 <=? Z.of_nat y)) with true
      by (symmetry; apply andb_true_iff; split; apply Z.leb_le; lia).
    rewrite !Nat2Z.id. now rewrite (nth_error_nth _ _ [] Hy). }
  split.
  - intros Hrun. inversion Hrun as [Hmap].
    assert (contours0 = []) by (destruct contours0; [reflexivity | discriminate]).
    subst contours0.
    assert (Hblank : forall x y, px (unpackChar glyph) x y = false).
    { intros x y.
      pose proof (stitch_boundary_winding _ _ (x, y) Hwf Hstitch) as Hw0.
      unfold windingNumber in Hw0. simpl in Hw0.
      destruct (px (unpackChar glyph) x y); [discriminate | reflexivity]. }
    apply Forall_forall. intros row Hin.
    apply unpackRow_blank.
    assert (Hin' : In (unpackRow row) (unpackChar glyph)).
    { unfold unpackChar. apply in_map. now apply in_rev in Hin. }
    apply In_nth_error in Hin'. destruct Hin' as [y Hy].
    pose proof (Hrow y _ Hy) as Hpx.
    assert (Hbits : forall x, nth x (unpackRow row) false = false)
      by (intros x; rewrite <- Hpx; apply Hblank).
    unfold unpackRow, bitRange in Hbits |- *. cbn [map] in Hbits |- *.
    pose proof (Hbits 0%nat) as H0. pose proof (Hbits 1%nat) as H1.
    pose proof (Hbits 2%nat) as H2. pose proof (Hbits 3%nat) as H3.
    pose proof (Hbits 4%nat) as H4. pose proof (Hbits 5%nat) as H5.
    pose proof (Hbits 6%nat) as H6. pose proof (Hbits 7%nat) as H7.
    cbn [nth] in H0, H1, H2, H3, H4, H5, H6, H7.
    now rewrite H0, H1, H2, H3, H4, H5, H6, H7.
  - intros Hzero.
    assert (Hblank : forall x y, px (unpackChar glyph) x y = false).
    { intros x y. unfold px.
      destruct ((0 <=? x) && (0 <=? y)); [ | reflexivity].
      destruct (nth_error (unpackChar glyph) (Z.to_nat y)) as [row | ] eqn:Hy.
      - rewrite (nth_error_nth _ _ [] Hy).
        apply nth_error_In in Hy. unfold unpackChar in Hy.
        apply in_map_iff in Hy. destruct Hy as (z & <- & Hz).
        apply in_rev in Hz. rewrite Forall_forall in Hzero.
        rewrite (proj2 (unpackRow_blank z) (Hzero z Hz)).
        apply nth_repeat.
      - apply nth_error_None in Hy. rewrite (nth_overflow _ [] Hy).
        now destruct (Z.to_nat x). }
    rewrite (boundaryEdges_blank _ Hblank) in Hstitch.
    vm_compute in Hstitch. inversion Hstitch. reflexivity.
Qed.

Lemma vectorizeGlyph_empty_outline_witness :
  vectorizeGlyph (Some [0; 256; 512; -256]) 64 1 = Done [].
Proof.
  apply (vectorizeGlyph_empty_outline [0; 256; 512; -256] 64 1).
  - lia.
  - repeat constructor.
Defined.

(** ** From the bytes of a file to outlines *)

Lemma readCharBitmaps_rows (bytes : list Z) :
  exists glyphs,
    readCharBitmaps (Some bytes) = Done glyphs
    /\ Forall (fun g => length g = 8%nat) glyphs.
Proof.
  destruct (Nat.le_gt_cases (length bytes) 2) as [Hshort | Hlong].
  { exists []. split; [ | constructor].
    apply (readCharBitmaps_nothing bytes). now left. }
  destruct (Nat.le_gt_cases (length bytes) 2050) as [Hfit | Hbig].
  - destruct (readCharBitmaps_chunks bytes) as (glyphs & Hrun & _ & _ & Hall & _);
      [lia | ].
    exists glyphs. split; assumption.
  - exists []. split; [ | constructor].
    apply (readCharBitmaps_nothing bytes). now right.
Qed.

(** X17: whatever the bytes of the file, every glyph that
    [readCharBitmaps] returns is vectorised by [vectorizeGlyph] without an
    exception, for every positive pixel size; the outline lies within the
    width [8 * pixelSize] and between the descent and the ascent of
    [makeTable_hhea], and it has at most 256 points. *)
Theorem file_glyphs_vectorize (bytes : list Z) (pixelSize descent : Z) :
  0 < pixelSize ->
  exists glyphs,
    readCharBitmaps (Some bytes) = Done glyphs
    /\ forall g, In g glyphs ->
         exists contours,
           vectorizeGlyph (Some g) pixelSize descent = Done contours
           /\ (forall c p, In c contours -> In p c ->
                 0 <= fst p <= 8 * pixelSize
                 /\ hhea_descent (makeTable_hhea pixelSize descent) <= snd p
                    <= hhea_ascent (makeTable_hhea pixelSize descent))
           /\ (length (coordinates (makeTTFGlyph contours)) <= 256)%nat.
Proof.
  intros Hpos. destruct (readCharBitmaps_rows bytes) as (glyphs & Hrun & Hall).
  exists glyphs. split; [exact Hrun | ].
  intros g Hg. rewrite Forall_forall in Hall. specialize (Hall g Hg).
  assert (Hne : g <> []) by (intros ->; discriminate).
  destruct (vectorizeGlyph_rows g pixelSize descent Hne Hpos)
    as (contours0 & _ & Hvec).
  eexists. split; [exact Hvec | ]. split.
  - intros c p Hc Hp. unfold makeTable_hhea. cbn [hhea_descent hhea_ascent].
    apply (vectorizeGlyph_vertex_box g pixelSize descent _
             ltac:(lia) Hpos Hvec c p Hc Hp).
  - destruct (vectorizeGlyph_point_bound g pixelSize descent _ Hvec)
      as (_ & Hcount).
    unfold makeTTFGlyph. cbn [coordinates]. rewrite Hall in Hcount. lia.
Qed.

Lemma file_glyphs_vectorize_witness :
  exists glyphs,
    readCharBitmaps (Some [0; 56; 24; 60; 102; 126; 102; 102; 102; 0])
    = Done glyphs
    /\ forall g, In g glyphs ->
         exists contours,
           vectorizeGlyph (Some g) 256 1 = Done contours
           /\ (forall c p, In c contours -> In p c ->
                 0 <= fst p <= 8 * 256
                 /\ hhea_descent (makeTable_hhea 256 1) <= snd p
                    <= hhea_ascent (makeTable_hhea 256 1))
           /\ (length (coordinates (makeTTFGlyph contours)) <= 256)%nat.
Proof.
  apply (file_glyphs_vectorize
           [0; 56; 24; 60; 102; 126; 102; 102; 102; 0] 256 1).
  lia.
Defined.

(** ** Every vertex of an outline is a corner *)

Lemma notBefore_spec (s p : point) :
  notBefore s p
  <-> fst s < fst p \/ (fst s = fst p /\ snd s <= snd p).
Proof.
  unfold notBefore, point_ltb.
  rewrite orb_false_iff, andb_false_iff, Z.ltb_ge, Z.eqb_neq, Z.ltb_ge. lia.
Qed.

(** *** Steps of a run, in coordinates *)

Lemma run_extends (v a b c : point) :
  sameRun v a b -> unitStep a b -> unitStep b c -> c <> a ->
  fst c = fst a \/ snd c = snd a ->
  sameLine v b c /\ sameRun v b c.
Proof.
  destruct v as [vx vy], a as [ax ay], b as [bx by_], c as [cx cy].
  unfold sameRun, unitStep, sameLine. cbn [fst snd].
  intros Hrun Hab Hbc Hne Hmerge.
  assert (cx <> ax \/ cy <> ay).
  { destruct (Z.eq_dec cx ax) as [-> | ]; [ | now left].
    destruct (Z.eq_dec cy ay) as [-> | ]; [ | now right].
    now contradiction Hne. }
  lia.
Qed.

Lemma run_turns (v a b c : point) :
  sameRun v a b -> unitStep a b -> unitStep b c ->
  fst c <> fst a /\ snd c <> snd a ->
  corner v b c /\ sameRun b b c.
Proof.
  destruct v as [vx vy], a as [ax ay], b as [bx by_], c as [cx cy].
  unfold sameRun, unitStep, corner. cbn [fst snd]. lia.
Qed.

Lemma seam_corner (v a s t v1 : point) :
  sameRun v a s -> sameRun s t v1 \/ (t = v1 /\ unitStep s t) ->
  unitStep a s -> unitStep s t ->
  notBefore s a -> notBefore s t -> a <> t ->
  corner v s v1.
Proof.
  destruct v as [vx vy], a as [ax ay], s as [sx sy], t as [tx ty],
    v1 as [wx wy].
  rewrite !notBefore_spec.
  unfold sameRun, unitStep, corner. cbn [fst snd].
  intros Hlast Hfirst Has Hst Ha Ht Hne.
  assert (ax <> tx \/ ay <> ty).
  { destruct (Z.eq_dec ax tx) as [-> | ]; [ | now left].
    destruct (Z.eq_dec ay ty) as [-> | ]; [ | now right].
    now contradiction Hne. }
  destruct Hfirst as [Hfirst | [Heq _]]; [lia | ].
  inversion Heq. subst. lia.
Qed.

Lemma first_run_extends (s t a b c : point) :
  sameRun s t b \/ (t = b /\ unitStep s t) ->
  sameRun s a b -> unitStep a b -> unitStep b c -> c <> a ->
  fst c = fst a \/ snd c = snd a ->
  sameRun s t c.
Proof.
  destruct s as [sx sy], t as [tx ty], a as [ax ay], b as [bx by_],
    c as [cx cy].
  unfold sameRun, unitStep. cbn [fst snd].
  intros Hfirst Hrun Hab Hbc Hne Hmerge.
  assert (cx <> ax \/ cy <> ay).
  { destruct (Z.eq_dec cx ax) as [-> | ]; [ | now left].
    destruct (Z.eq_dec cy ay) as [-> | ]; [ | now right].
    now contradiction Hne. }
  destruct Hab as [[? [? | ?]] | [? [? | ?]]];
    destruct Hbc as [[? [? | ?]] | [? [? | ?]]]; try lia;
    (destruct Hfirst as [Hfirst | [Heq Hst]];
     [lia | inversion Heq; subst; lia]).
Qed.

Lemma corner_sameLine (u v b c : point) :
  corner u v b -> sameLine v b c -> corner u v c.
Proof.
  destruct u as [ux uy], v as [vx vy], b as [bx by_], c as [cx cy].
  unfold corner, sameLine. cbn [fst snd]. lia.
Qed.

Lemma sameRun_distinct (v a b : point) : sameRun v a b -> v <> b.
Proof.
  destruct v as [vx vy], a as [ax ay], b as [bx by_].
  unfold sameRun. cbn [fst snd]. intros H Heq. inversion Heq. lia.
Qed.

(** *** Corners of a polyline that grows at its end *)

Lemma allCorners_cons (a b c : point) (l : list point) :
  allCorners (a :: b :: c :: l) <-> corner a b c /\ allCorners (b :: c :: l).
Proof. reflexivity. Qed.

Lemma allCorners_replace_last (c0 : list point) (v b c : point) :
  allCorners (c0 ++ [v; b]) -> sameLine v b c -> allCorners (c0 ++ [v; c]).
Proof.
  intros Hall Hline. induction c0 as [ | u c0 IH]; [exact I | ].
  destruct c0 as [ | u' c0].
  - change (corner u v b /\ True) in Hall. change (corner u v c /\ True).
    destruct Hall as [Hc _].
    split; [ | exact I]. now apply (corner_sameLine u v b c).
  - destruct c0 as [ | u'' c0].
    + cbn [app] in Hall, IH |- *.
      apply allCorners_cons in Hall. apply allCorners_cons.
      destruct Hall as [Hc Hrest]. split; [exact Hc | now apply IH].
    + cbn [app] in Hall, IH |- *.
      apply allCorners_cons in Hall. apply allCorners_cons.
      destruct Hall as [Hc Hrest]. split; [exact Hc | now apply IH].
Qed.

Lemma allCorners_snoc (c0 : list point) (v b c : point) :
  allCorners (c0 ++ [v; b]) -> corner v b c -> allCorners (c0 ++ [v; b; c]).
Proof.
  intros Hall Hcorner. induction c0 as [ | u c0 IH].
  - cbn [app]. apply allCorners_cons. split; [exact Hcorner | exact I].
  - destruct c0 as [ | u' c0].
    + cbn [app] in Hall, IH |- *.
      apply allCorners_cons in Hall. apply allCorners_cons.
      destruct Hall as [Hc Hrest]. split; [exact Hc | now apply IH].
    + destruct c0 as [ | u'' c0].
      * cbn [app] in Hall, IH |- *.
        apply allCorners_cons in Hall. apply allCorners_cons.
        destruct Hall as [Hc Hrest]. split; [exact Hc | now apply IH].
      * cbn [app] in Hall, IH |- *.
        apply allCorners_cons in Hall. apply allCorners_cons.
        destruct Hall as [Hc Hrest]. split; [exact Hc | now apply IH].
Qed.

Lemma closedCorners_length (c : contour) :
  closedCorners c -> (2 <= length c)%nat -> (4 <= length c)%nat.
Proof.
  unfold closedCorners. intros Hall Hlen.
  destruct c as [ | [ax ay] [ | [bx by_] [ | [cx cy] [ | d c]]]];
    simpl in Hlen; try lia.
  - exfalso. cbn [app firstn allCorners] in Hall. unfold corner in Hall.
    cbn [fst snd] in Hall. lia.
  - exfalso. cbn [app firstn allCorners] in Hall. unfold corner in Hall.
    cbn [fst snd] in Hall. lia.
  - simpl. lia.
Qed.

(** *** Chains of unit edges that never turn back *)

Section CornerChains.

Variable inE : edge -> Prop.
Hypothesis inE_unit : forall e, inE e -> unitStep (fst e) (snd e).
Hypothesis inE_no_reverse : forall p q, inE (p, q) -> inE (q, p) -> False.

Lemma cornerRun_start (start : edge) :
  inE start -> cornerRun start start [fst start; snd start].
Proof.
  intros Hin. pose proof (inE_unit start Hin) as Hunit.
  exists [], (fst start). cbn [app hd nth].
  split; [reflexivity | ]. split; [exact I | ].
  split; [ | split; [reflexivity | right; split; [reflexivity | exact Hunit]]].
  destruct start as [[sx sy] [tx ty]]. unfold sameRun, unitStep in *.
  cbn [fst snd] in *. lia.
Qed.

Lemma chainStep_cornerRun (start current next : edge) (c c' : contour)
  (pool pool' : list edge) :
  cornerRun start current c ->
  inE current -> inE next ->
  chainStep current c pool = Done (next, c', pool') ->
  cornerRun start next c'.
Proof.
  intros (c0 & v & Hc & Hall & Hrun & Hhd & Hfirst) Hcur Hnext Hstep.
  destruct (chainStep_Done _ _ _ _ _ _ Hstep) as (_ & Hfst & _ & Hcase).
  pose proof (inE_unit _ Hcur) as Hunit1.
  pose proof (inE_unit _ Hnext) as Hunit2.
  destruct current as [A B], next as [B' C]. cbn [fst snd] in *. subst B'.
  assert (Hne : C <> A).
  { intros ->. exact (inE_no_reverse _ _ Hcur Hnext). }
  subst c. destruct Hcase as [(Hmerge & _ & ->) | (Hturn & ->)].
  - (* the run goes on *)
    destruct (run_extends v A B C Hrun Hunit1 Hunit2 Hne Hmerge)
      as [Hline Hrun'].
    replace (removelast (c0 ++ [v; B]) ++ [C]) with (c0 ++ [v; C]).
    2: { replace (c0 ++ [v; B]) with ((c0 ++ [v]) ++ [B])
           by (now rewrite <- app_assoc).
         now rewrite removelast_last, <- app_assoc. }
    exists c0, v. split; [reflexivity | ].
    split; [now apply (allCorners_replace_last c0 v B C) | ].
    split; [exact Hrun' | ].
    split; [destruct c0; exact Hhd | ].
    destruct c0 as [ | u [ | u' c0]]; cbn [app nth hd] in *; try exact Hfirst.
    subst v. left.
    now apply (first_run_extends (fst start) (snd start) A B C).
  - (* a corner *)
    destruct (run_turns v A B C Hrun Hunit1 Hunit2 Hturn) as [Hcorner Hrun'].
    exists (c0 ++ [v]), B.
    split; [now rewrite <- !app_assoc | ].
    split; [rewrite <- app_assoc; now apply allCorners_snoc | ].
    split; [exact Hrun' | ].
    split; [destruct c0; exact Hhd | ].
    destruct c0 as [ | u [ | u' c0]]; cbn [app nth hd] in *; exact Hfirst.
Qed.

Lemma cornerRun_closed (start current : edge) (c : contour) :
  cornerRun start current c ->
  inE start -> inE current ->
  snd current = fst start ->
  notBefore (fst start) (fst current) ->
  notBefore (fst start) (snd start) ->
  goodContour (removelast c).
Proof.
  intros (c0 & v & Hc & Hall & Hrun & Hhd & Hfirst) Hstart Hcur Hclosed
    Hmin1 Hmin2.
  pose proof (inE_unit _ Hstart) as Hunit0.
  pose proof (inE_unit _ Hcur) as Hunit1.
  destruct start as [s t], current as [A B]. cbn [fst snd] in *. subst B c.
  assert (Hne : A <> t).
  { intros ->. exact (inE_no_reverse _ _ Hstart Hcur). }
  destruct c0 as [ | u c0].
  { cbn [app hd] in Hhd. subst v.
    now apply sameRun_distinct in Hrun. }
  cbn [app hd] in Hhd. subst u.
  replace ((s :: c0) ++ [v; s]) with (((s :: c0) ++ [v]) ++ [s])
    by (now rewrite <- app_assoc).
  rewrite removelast_last.
  assert (Hseam : corner v s (nth 1 ((s :: c0) ++ [v; s]) (0, 0))).
  { apply (seam_corner v A s t); assumption. }
  assert (Hclosed : closedCorners ((s :: c0) ++ [v])).
  { unfold closedCorners.
    replace (firstn 2 ((s :: c0) ++ [v]))
      with [s; nth 1 ((s :: c0) ++ [v; s]) (0, 0)]
      by (destruct c0; reflexivity).
    rewrite <- app_assoc. cbn [app].
    change (s :: c0 ++ [v; s; nth 1 (s :: c0 ++ [v; s]) (0, 0)])
      with ((s :: c0) ++ [v; s; nth 1 ((s :: c0) ++ [v; s]) (0, 0)]).
    now apply allCorners_snoc. }
  split; [exact Hclosed | ].
  apply closedCorners_length; [exact Hclosed | ].
  rewrite length_app. simpl. lia.
Qed.

Lemma followChain_goodContour (fuel : nat) (start : edge) :
  forall (current : edge) (c c' : contour) (pool pool' : list edge),
    inE start -> inE current ->
    (forall e, In e pool -> inE e /\ notBefore (fst start) (fst e)) ->
    notBefore (fst start) (fst current) ->
    notBefore (fst start) (snd start) ->
    cornerRun start current c ->
    followChain fuel start current c pool = Done (c', pool') ->
    goodContour (removelast c').
Proof.
  induction fuel as [ | fuel IH];
    intros current c c' pool pool' Hstart Hcur Hpool Hmin1 Hmin2 Hrun Hfollow;
    cbn [followChain] in Hfollow;
    destruct (point_eqb (snd current) (fst start)) eqn:Hclosed;
    try discriminate;
    try (inversion Hfollow; subst c' pool'; apply point_eqb_eq in Hclosed;
         now apply (cornerRun_closed start current c)).
  apply bind_Done in Hfollow.
  destruct Hfollow as ([[next c1] pool1] & Hstep & Hfollow).
  destruct (chainStep_Done _ _ _ _ _ _ Hstep) as (Hin & _ & Hperm & _).
  destruct (Hpool next Hin) as [Hnext Hmin].
  apply (IH next c1 c' pool1 pool'); try assumption.
  - intros e He. apply Hpool.
    apply (Permutation_in e (Permutation_sym Hperm)). now right.
  - now apply (chainStep_cornerRun start current next c c1 pool pool1).
Qed.

End CornerChains.

(** *** The pool stays ordered and balanced *)

Lemma insertEdge_sorted (e : edge) (l : list edge) :
  StronglySorted edgeOrder l -> StronglySorted edgeOrder (insertEdge e l).
Proof.
  induction 1 as [ | f l Hl IH Hf]; simpl.
  - repeat constructor.
  - destruct (edge_leb e f) eqn:Hef.
    + constructor; [now constructor | ].
      constructor; [exact Hef | ].
      apply Forall_forall. intros x Hx. rewrite Forall_forall in Hf.
      apply (edge_leb_trans e f x Hef). now apply Hf.
    + constructor; [exact IH | ].
      apply Forall_forall. intros x Hx.
      apply (Permutation_in x (insertEdge_Permutation e l)) in Hx.
      destruct Hx as [<- | Hx].
      * now apply edge_leb_false in Hef.
      * rewrite Forall_forall in Hf. now apply Hf.
Qed.

Lemma sorted_StronglySorted (edges : list edge) :
  StronglySorted edgeOrder (sorted edges).
Proof.
  induction edges as [ | e l IH]; simpl; [constructor | ].
  now apply insertEdge_sorted.
Qed.

Lemma list_remove_sorted (e : edge) (l l' : list edge) :
  StronglySorted edgeOrder l ->
  list_remove e l = Done l' ->
  StronglySorted edgeOrder l'.
Proof.
  intros Hl. revert l'. induction Hl as [ | f l Hl IH Hf]; intros l' Hrem;
    simpl in Hrem; [discriminate | ].
  destruct (edge_eqb f e); [inversion Hrem; now subst | ].
  apply bind_Done in Hrem. destruct Hrem as (l'' & Hrem & Hl').
  inversion Hl'. subst l'. constructor; [now apply IH | ].
  apply Forall_forall. intros x Hx. rewrite Forall_forall in Hf. apply Hf.
  apply list_remove_Done in Hrem.
  apply (Permutation_in x (Permutation_sym Hrem)). now right.
Qed.

Lemma chainStep_remove (current next : edge) (c c' : contour)
  (pool pool' : list edge) :
  chainStep current c pool = Done (next, c', pool') ->
  list_remove next pool = Done pool'.
Proof.
  unfold chainStep. intros H.
  apply bind_Done in H. destruct H as (n & Hn & H).
  apply bind_Done in H. destruct H as (c1 & Hc & H).
  apply bind_Done in H. destruct H as (l1 & Hl & H).
  inversion H. now subst.
Qed.

Lemma followChain_pool (fuel : nat) (start : edge) :
  forall (current : edge) (c c' : contour) (pool pool' : list edge),
    StronglySorted edgeOrder pool ->
    chainInv (fst start) (snd current) pool ->
    followChain fuel start current c pool = Done (c', pool') ->
    StronglySorted edgeOrder pool' /\ balanced pool' /\ incl pool' pool.
Proof.
  induction fuel as [ | fuel IH];
    intros current c c' pool pool' Hsorted Hinv Hfollow;
    cbn [followChain] in Hfollow;
    destruct (point_eqb (snd current) (fst start)) eqn:Hclosed;
    try discriminate;
    try (inversion Hfollow; subst c' pool'; apply point_eqb_eq in Hclosed;
         split; [exact Hsorted | split; [ | apply incl_refl]];
         intros p; rewrite (Hinv p), Hclosed; lia).
  apply bind_Done in Hfollow.
  destruct Hfollow as ([[next c1] pool1] & Hstep & Hfollow).
  destruct (chainStep_Done _ _ _ _ _ _ Hstep) as (_ & Hfst & Hperm & _).
  pose proof (chainStep_remove _ _ _ _ _ _ Hstep) as Hrem.
  destruct (IH next c1 c' pool1 pool') as (Hs & Hb & Hincl).
  - now apply (list_remove_sorted next pool).
  - now apply (chainInv_step (fst start) current next pool pool1).
  - exact Hfollow.
  - split; [exact Hs | split; [exact Hb | ]].
    intros e He. apply Hincl in He.
    apply (Permutation_in e (Permutation_sym Hperm)). now right.
Qed.

Lemma edge_leb_notBefore (start e : edge) :
  edge_leb start e = true -> notBefore (fst start) (fst e).
Proof. rewrite edge_leb_spec, notBefore_spec. lia. Qed.

Section CornerContours.

Variable inE : edge -> Prop.
Hypothesis inE_unit : forall e, inE e -> unitStep (fst e) (snd e).
Hypothesis inE_no_reverse : forall p q, inE (p, q) -> inE (q, p) -> False.

Lemma mergeLoop_goodContours (fuel : nat) :
  forall (pool pool' : list edge) (contours contours' : list contour),
    StronglySorted edgeOrder pool ->
    balanced pool ->
    (forall e, In e pool -> inE e) ->
    Forall goodContour contours ->
    mergeLoop fuel pool contours = Done (contours', pool') ->
    Forall goodContour contours'.
Proof.
  induction fuel as [ | fuel IH];
    intros pool pool' contours contours' Hsorted Hbal Hin Hcs Hrun;
    cbn [mergeLoop] in Hrun;
    destruct (length pool <=? 1)%nat; try discriminate;
    try (inversion Hrun; subst; assumption).
  apply bind_Done in Hrun. destruct Hrun as (start & Hstart & Hrun).
  apply bind_Done in Hrun. destruct Hrun as (pool1 & Hrem & Hrun).
  apply bind_Done in Hrun. destruct Hrun as ([c pool2] & Hfollow & Hrun).
  destruct pool as [ | e pool]; [discriminate | ].
  unfold getitem in Hstart. simpl in Hstart. inversion Hstart. subst e.
  rewrite list_remove_head in Hrem. inversion Hrem. subst pool1.
  inversion Hsorted as [ | ? ? Hsorted1 Hhead]. subst.
  assert (HinS : inE start) by (apply Hin; now left).
  pose proof (inE_unit _ HinS) as Hunit.
  assert (Hloop : fst start <> snd start).
  { destruct start as [[sx sy] [tx ty]]. unfold unitStep in Hunit.
    cbn [fst snd] in *. intros Heq. inversion Heq. lia. }
  assert (Hinv : chainInv (fst start) (snd start) pool).
  { intros p. specialize (Hbal p). cbn [sumZ] in Hbal.
    unfold excess in Hbal at 1. lia. }
  assert (Hself : notBefore (fst start) (fst start))
    by (apply notBefore_spec; lia).
  assert (Hmin : forall e, In e pool ->
                           inE e /\ notBefore (fst start) (fst e)).
  { intros e He. split; [apply Hin; now right | ].
    apply edge_leb_notBefore. rewrite Forall_forall in Hhead.
    now apply Hhead. }
  assert (Hend : notBefore (fst start) (snd start)).
  { destruct (balanced_continued (start :: pool) start Hbal
                (or_introl eq_refl) Hloop) as (e' & [<- | He'] & Hfst).
    - now rewrite <- Hfst.
    - rewrite <- Hfst. now apply Hmin. }
  destruct (followChain_pool _ _ _ _ _ _ _ Hsorted1 Hinv Hfollow)
    as (Hsorted2 & Hbal2 & Hincl).
  apply (IH pool2 pool' (contours ++ [removelast c]) contours');
    try assumption.
  - intros e He. apply Hin. right. now apply Hincl.
  - apply Forall_app. split; [exact Hcs | ].
    constructor; [ | constructor].
    apply (followChain_goodContour inE inE_unit inE_no_reverse
             (S fuel) start start [fst start; snd start] c pool pool2);
      try assumption.
    now apply (cornerRun_start inE inE_unit).
Qed.

End CornerContours.

(** *** The boundary of a bitmap never turns back *)

Lemma boundaryEdges_unit (bitmap : PixelGrid) (e : edge) :
  In e (boundaryEdges bitmap) -> unitStep (fst e) (snd e).
Proof.
  intros He. apply in_boundaryEdges in He.
  destruct He as (x & y & _ & _ & _ & Hside).
  unfold openSideOf, leftEdge, topEdge, rightEdge, bottomEdge in Hside.
  unfold unitStep.
  destruct Hside as [[-> _] | [[-> _] | [[-> _] | [-> _]]]];
    cbn [fst snd]; lia.
Qed.

Lemma openSideOf_no_reverse (bitmap : PixelGrid) (x y x' y' : Z) (p q : point) :
  px bitmap x y = true -> openSideOf bitmap x y (p, q) ->
  px bitmap x' y' = true -> openSideOf bitmap x' y' (q, p) ->
  False.
Proof.
  unfold openSideOf, leftEdge, topEdge, rightEdge, bottomEdge.
  intros Hp H1 Hp' H2.
  destruct H1 as [[E1 F1] | [[E1 F1] | [[E1 F1] | [E1 F1]]]];
    inversion E1; subst p q;
    destruct H2 as [[E2 F2] | [[E2 F2] | [[E2 F2] | [E2 F2]]]];
    injection E2 as Ha Hb Hc Hd;
    first
      [ lia
      | match goal with
        | Ht : px bitmap ?a ?b = true, Hf : px bitmap ?a' ?b' = false |- _ =>
            replace a' with a in Hf by lia;
            replace b' with b in Hf by lia;
            congruence
        end ].
Qed.

Lemma boundaryEdges_no_reverse (bitmap : PixelGrid) (p q : point) :
  In (p, q) (boundaryEdges bitmap) -> In (q, p) (boundaryEdges bitmap) ->
  False.
Proof.
  intros H1 H2. apply in_boundaryEdges in H1, H2.
  destruct H1 as (x & y & _ & _ & Hp & Hs).
  destruct H2 as (x' & y' & _ & _ & Hp' & Hs').
  exact (openSideOf_no_reverse bitmap _ _ _ _ p q Hp Hs Hp' Hs').
Qed.

Lemma stitch_boundary_goodContours (bitmap : PixelGrid)
  (contours : list contour) (pool : list edge) :
  wellFormed bitmap = true ->
  stitch (boundaryEdges bitmap) = Done (contours, pool) ->
  Forall goodContour contours.
Proof.
  intros Hwf Hrun. unfold stitch in Hrun.
  apply (mergeLoop_goodContours
           (fun e => In e (boundaryEdges bitmap))
           (boundaryEdges_unit bitmap) (boundaryEdges_no_reverse bitmap)
           _ _ _ _ _ (sorted_StronglySorted _)) in Hrun.
  - exact Hrun.
  - apply (balanced_Permutation (boundaryEdges bitmap));
      [apply Permutation_sym, sorted_Permutation
      | now apply boundaryEdges_balanced].
  - intros e He. apply (Permutation_in e (sorted_Permutation _) He).
  - constructor.
Qed.

(** *** Corners survive the scaling *)

Lemma corner_mapPoint (fx fy : Z -> Z) (a b c : point) :
  (forall u v, u < v -> fx u < fx v) ->
  (forall u v, u < v -> fy u < fy v) ->
  corner a b c ->
  corner (mapPoint fx fy a) (mapPoint fx fy b) (mapPoint fx fy c).
Proof.
  intros Hx Hy. unfold corner, mapPoint. cbn [fst snd].
  assert (Hinjx : forall u v, u <> v -> fx u <> fx v).
  { intros u v Hne. destruct (Z.lt_total u v) as [H | [H | H]];
      [apply Hx in H | contradiction | apply Hx in H]; lia. }
  assert (Hinjy : forall u v, u <> v -> fy u <> fy v).
  { intros u v Hne. destruct (Z.lt_total u v) as [H | [H | H]];
      [apply Hy in H | contradiction | apply Hy in H]; lia. }
  intros [(H1 & H2 & H3 & H4) | (H1 & H2 & H3 & H4)]; [left | right];
    (split; [now rewrite H1 | ]);
    (split; [first [now apply Hinjx | now apply Hinjy] | ]);
    (split; [now rewrite H3 | ]);
    first [now apply Hinjx | now apply Hinjy].
Qed.

Lemma allCorners_map (fx fy : Z -> Z) (l : list point) :
  (forall u v, u < v -> fx u < fx v) ->
  (forall u v, u < v -> fy u < fy v) ->
  allCorners l -> allCorners (map (mapPoint fx fy) l).
Proof.
  intros Hx Hy. induction l as [ | a l IH]; intros Hall; [exact I | ].
  destruct l as [ | b [ | c l]]; try exact I.
  cbn [map] in IH |- *. apply allCorners_cons in Hall.
  apply allCorners_cons. destruct Hall as [Hc Hrest].
  split; [now apply corner_mapPoint | now apply IH].
Qed.

Lemma goodContour_map (fx fy : Z -> Z) (c : contour) :
  (forall u v, u < v -> fx u < fx v) ->
  (forall u v, u < v -> fy u < fy v) ->
  goodContour c -> goodContour (map (mapPoint fx fy) c).
Proof.
  intros Hx Hy [Hclosed Hlen]. split; [ | now rewrite length_map].
  unfold closedCorners in *. rewrite firstn_map, <- map_app.
  now apply allCorners_map.
Qed.

(** X18: for a positive pixel size, the outline that [vectorizeGlyph]
    returns has no vertex to spare: at every vertex of every contour, the
    closing side included, the contour turns by a right angle from a
    horizontal side to a vertical one or back, and no side is a single
    point; so a run of collinear pixel edges is always merged into one
    side, and every contour has at least 4 vertices. *)
Theorem vectorizeGlyph_corners (rows : list Z) (pixelSize descent : Z)
  (contours : list contour) :
  0 < pixelSize ->
  vectorizeGlyph (Some rows) pixelSize descent = Done contours ->
  forall c, In c contours ->
            (4 <= length c)%nat /\ allCorners (c ++ firstn 2 c).
Proof.
  intros Hpos Hrun c Hc.
  destruct rows as [ | r rows].
  { inversion Hrun. subst. contradiction. }
  destruct (vectorizeGlyph_rows (r :: rows) pixelSize descent)
    as (contours0 & Hstitch & Hrun'); [discriminate | exact Hpos | ].
  rewrite Hrun' in Hrun. inversion Hrun. subst contours. clear Hrun.
  destruct (unpackChar_wellFormed (r :: rows)) as (Hwf & _ & _);
    [discriminate | ].
  pose proof (stitch_boundary_goodContours _ _ _ Hwf Hstitch) as Hgood.
  unfold mapContours in Hc. apply in_map_iff in Hc.
  destruct Hc as (c0 & <- & Hc0).
  rewrite Forall_forall in Hgood.
  destruct (goodContour_map (fun x => x * pixelSize)
              (fun y => (y - descent) * pixelSize) c0) as [Hclosed Hlen].
  - intros u v Huv. nia.
  - intros u v Huv. nia.
  - now apply Hgood.
  - split; [exact Hlen | exact Hclosed].
Qed.

Lemma vectorizeGlyph_corners_witness :
  (4 <= length [(0, 256); (0, 512); (256, 512); (256, 256)]%Z)%nat
  /\ allCorners ([(0, 256); (0, 512); (256, 512); (256, 256)]
                 ++ firstn 2 [(0, 256); (0, 512); (256, 512); (256, 256)]).
Proof.
  apply (vectorizeGlyph_corners [128; 64] 256 0
           [[(0, 256); (0, 512); (256, 512); (256, 256)];
            [(256, 0); (256, 256); (512, 256); (512, 0)]]).
  - lia.
  - vm_compute. reflexivity.
  - now left.
Defined.

(** ** vectorizeGlyph for any pixel size *)

Lemma mergeLoop_succeeds_balanced (fuel : nat) :
  forall (pool : list edge) (contours : list contour),
    (length pool <= fuel)%nat ->
    balanced pool ->
    exists contours' pool',
      mergeLoop fuel pool contours = Done (contours', pool').
Proof.
  induction fuel as [ | fuel IH]; intros pool contours Hfuel Hbal.
  - destruct pool; [ | simpl in Hfuel; lia]. simpl. eauto.
  - destruct pool as [ | start pool]; [simpl; eauto | ].
    destruct pool as [ | e2 pool]; [simpl; eauto | ].
    cbn [mergeLoop length Nat.leb].
    unfold getitem. cbn [nth_error]. cbn [bind].
    rewrite list_remove_head. cbn [bind].
    destruct (followChain_succeeds (S fuel) start start [fst start; snd start]
                (e2 :: pool)) as (c' & pool' & Hrun & Hbal' & Hle & Hincl).
    + simpl in *. lia.
    + intros p. specialize (Hbal p). cbn [sumZ] in Hbal |- *.
      unfold excess in Hbal at 1. lia.
    + discriminate.
    + rewrite Hrun. cbn [bind]. apply IH; [simpl in *; lia | exact Hbal'].
Qed.

Lemma point_eq_dec (p q : point) : {p = q} + {p <> q}.
Proof. decide equality; apply Z.eq_dec. Qed.

Lemma excess_count (p : point) (edges : list edge) :
  sumZ (excess p) edges
  = Z.of_nat (count_occ point_eq_dec (map fst edges) p)
    - Z.of_nat (count_occ point_eq_dec (map snd edges) p).
Proof.
  induction edges as [ | e l IH]; [reflexivity | ].
  cbn [sumZ map count_occ]. rewrite IH. unfold excess.
  destruct (point_eq_dec (fst e) p) as [H1 | H1],
    (point_eq_dec (snd e) p) as [H2 | H2];
    rewrite ?(proj2 (point_eqb_eq _ _) H1), ?(proj2 (point_eqb_eq _ _) H2),
      ?(proj2 (point_eqb_neq _ _) H1), ?(proj2 (point_eqb_neq _ _) H2);
    cbn [Z.b2z]; lia.
Qed.

Lemma balanced_starts_ends (edges : list edge) :
  balanced edges -> Permutation (map fst edges) (map snd edges).
Proof.
  intros Hbal. apply (Permutation_count_occ point_eq_dec). intros p.
  specialize (Hbal p). rewrite excess_count in Hbal. lia.
Qed.

Lemma balanced_map (f : point -> point) (edges : list edge) :
  balanced edges ->
  balanced (map (fun e => (f (fst e), f (snd e))) edges).
Proof.
  intros Hbal p. rewrite excess_count, !map_map. cbn [fst snd].
  rewrite <- (map_map fst f), <- (map_map snd f).
  rewrite (proj1 (Permutation_count_occ point_eq_dec
                    (map f (map fst edges)) (map f (map snd edges)))
             (Permutation_map f (balanced_starts_ends edges Hbal)) p).
  lia.
Qed.

(** X19: [vectorizeGlyph] returns an outline, and raises nothing, for
    every input: no glyph data, no rows, or any rows of integers, with any
    pixel size, zero and negative ones included, and any descent. *)
Theorem vectorizeGlyph_total (glyphData : option (list Z))
  (pixelSize descent : Z) :
  exists contours, vectorizeGlyph glyphData pixelSize descent = Done contours.
Proof.
  destruct glyphData as [rows | ]; [ | now exists []].
  destruct rows as [ | r rows]; [now exists [] | ].
  unfold vectorizeGlyph. cbn [length Nat.eqb].
  destruct (unpackChar_wellFormed (r :: rows)) as (Hwf & _ & _);
    [discriminate | ].
  rewrite (generateEdges_boundaryEdges _ Hwf). cbn [bind].
  set (edges := scaleEdges (boundaryEdges (unpackChar (r :: rows)))
                           pixelSize descent).
  destruct (mergeLoop_succeeds_balanced (length edges) (sorted edges) [])
    as (contours & pool & Hrun).
  - now rewrite sorted_length.
  - apply (balanced_Permutation edges);
      [apply Permutation_sym, sorted_Permutation | ].
    apply (balanced_map (scalePoint pixelSize descent)).
    now apply boundaryEdges_balanced.
  - exists contours. unfold mergeContours, stitch. now rewrite Hrun.
Qed.

(** ** hmtx: the left side bearing *)


















